(** * Ball-and-socket joint solver of ReactPhysics3D, and the legacy
      ConstraintSolver bookkeeping

    Shallow embedding of
    - [src/systems/SolveBallAndSocketJointSystem.cpp]: [initBeforeSolve],
      [warmstart], [solveVelocityConstraint], [solvePositionConstraint];
    - [src/engine/ConstraintSolver.h]: [isConstrainedBody], the two
      constrained-velocity getters, [cleanup] and the two setters.

    The scalar type [decimal] of the library is a build-time choice ([float]
    or [double]).  The embedding is therefore written once, over any type
    carrying the operations the code uses (class [Decimal]), and instantiated
    at IEEE binary64 ([float_decimal], the [double] build), where it runs.
    Statements that only depend on which array cell is read or written, and
    on which operations are applied in which order, are proved for every
    instance.  Statements that depend on what the arithmetic returns
    ([0 · x], [x + 0]) are proved on doubles, from the specification of the
    primitive operations ([FloatAxioms]): there a product by zero is a zero
    only for a finite factor, a zero may change sign when a zero is added to
    it, and every operation rounds.

    Component arrays are lists; an access outside an array, a missing entity
    in a handle map and a failed [assert] all make a kernel return [None].

    Part I holds the definitions: the scalar class, the mathematics, the
    component store, the four kernels, the specification's formulas, the
    vocabulary of the statements, the seed scenarios of the specification,
    the legacy solver and the vocabulary of IEEE doubles.  Part II holds the
    lemmas and the theorems C1-C10, then further properties of the same
    kernels and methods. *)

From Stdlib Require Import Floats.
From stdpp Require Import base option list gmap.

Set Default Proof Using "Type".

(* ------------------------------------------------------------------------- *)
(** * Part I: the embedding *)

(* ------------------------------------------------------------------------- *)
(** ** The scalar type [decimal] *)

Class Decimal (D : Type) : Type := {
  dec_0 : D;                     (* 0, decimal(0.0) *)
  dec_1 : D;                     (* decimal(1.0) *)
  dec_2 : D;                     (* decimal(2.0) *)
  dec_0_5 : D;                   (* decimal(0.5) *)
  dec_0_2 : D;                   (* decimal(0.2) *)
  MACHINE_EPSILON : D;           (* std::numeric_limits<decimal>::epsilon() *)
  dadd : D -> D -> D;
  dsub : D -> D -> D;
  dmul : D -> D -> D;
  ddiv : D -> D -> D;
  dneg : D -> D;
  dabs : D -> D;                 (* std::abs *)
  dsqrt : D -> D;                (* std::sqrt *)
  dgtb : D -> D -> bool;         (* operator> *)
}.

Declare Scope dec_scope.
Delimit Scope dec_scope with dec.
Infix "+" := dadd : dec_scope.
Infix "-" := dsub : dec_scope.
Infix "*" := dmul : dec_scope.
Infix "/" := ddiv : dec_scope.
Notation "- x" := (dneg x) : dec_scope.
Infix ">?" := dgtb (at level 70, no associativity) : dec_scope.

(** IEEE binary64, the [double] build of the library. *)
Definition float_decimal : Decimal float := {|
  dec_0 := 0%float; dec_1 := 1%float; dec_2 := 2%float;
  dec_0_5 := 0.5%float; dec_0_2 := 0x1.999999999999ap-3%float;
  MACHINE_EPSILON := 0x1p-52%float;
  dadd := PrimFloat.add; dsub := PrimFloat.sub; dmul := PrimFloat.mul;
  ddiv := PrimFloat.div; dneg := PrimFloat.opp; dabs := PrimFloat.abs;
  dsqrt := PrimFloat.sqrt;
  dgtb := fun a b => PrimFloat.ltb b a;
|}.

(* ------------------------------------------------------------------------- *)
(** ** Mathematics: [Vector3], [Matrix3x3], [Quaternion]

    The headers of [mathematics/] are not under [src/]; the operators the
    solver calls are modelled below, each as the usual componentwise formula. *)

Record Vector3 (D : Type) : Type := mkVector3 { vx : D; vy : D; vz : D }.
Arguments mkVector3 {D} _ _ _.
Arguments vx {D} _.
Arguments vy {D} _.
Arguments vz {D} _.

Record Matrix3x3 (D : Type) : Type :=
  mkMatrix3x3 { row0 : Vector3 D; row1 : Vector3 D; row2 : Vector3 D }.
Arguments mkMatrix3x3 {D} _ _ _.
Arguments row0 {D} _.
Arguments row1 {D} _.
Arguments row2 {D} _.

Record Quaternion (D : Type) : Type :=
  mkQuaternion { qx : D; qy : D; qz : D; qw : D }.
Arguments mkQuaternion {D} _ _ _ _.
Arguments qx {D} _.
Arguments qy {D} _.
Arguments qz {D} _.
Arguments qw {D} _.

Section Mathematics.
Context {D : Type} `{Decimal D}.
Local Open Scope dec_scope.

(** Modelled from the spec: [Vector3] is missing from [src/].
    [setToZero], [operator+], [operator-] (binary and unary), the product by
    a scalar, the elementwise product (the spec's [⊙]) and [cross]. *)
Definition Vector3_zero : Vector3 D := mkVector3 dec_0 dec_0 dec_0.
Definition v3_add (a b : Vector3 D) : Vector3 D :=
  mkVector3 (vx a + vx b) (vy a + vy b) (vz a + vz b).
Definition v3_sub (a b : Vector3 D) : Vector3 D :=
  mkVector3 (vx a - vx b) (vy a - vy b) (vz a - vz b).
Definition v3_neg (a : Vector3 D) : Vector3 D :=
  mkVector3 (- vx a) (- vy a) (- vz a).
Definition v3_scale (k : D) (a : Vector3 D) : Vector3 D :=
  mkVector3 (k * vx a) (k * vy a) (k * vz a).
Definition v3_mul (a b : Vector3 D) : Vector3 D :=
  mkVector3 (vx a * vx b) (vy a * vy b) (vz a * vz b).
Definition cross (a b : Vector3 D) : Vector3 D :=
  mkVector3 (vy a * vz b - vz a * vy b)
            (vz a * vx b - vx a * vz b)
            (vx a * vy b - vy a * vx b).

(** Modelled from the spec: [Matrix3x3] is missing from [src/].  The
    nine-argument constructor is row major. *)
Definition Matrix3x3_of (a1 a2 a3 b1 b2 b3 c1 c2 c3 : D) : Matrix3x3 D :=
  mkMatrix3x3 (mkVector3 a1 a2 a3) (mkVector3 b1 b2 b3) (mkVector3 c1 c2 c3).
Definition Matrix3x3_zero : Matrix3x3 D :=
  Matrix3x3_of dec_0 dec_0 dec_0 dec_0 dec_0 dec_0 dec_0 dec_0 dec_0.
Definition Matrix3x3_identity : Matrix3x3 D :=
  Matrix3x3_of dec_1 dec_0 dec_0 dec_0 dec_1 dec_0 dec_0 dec_0 dec_1.
Definition m3_add (a b : Matrix3x3 D) : Matrix3x3 D :=
  mkMatrix3x3 (v3_add (row0 a) (row0 b)) (v3_add (row1 a) (row1 b))
              (v3_add (row2 a) (row2 b)).
Definition m3_scale (k : D) (a : Matrix3x3 D) : Matrix3x3 D :=
  mkMatrix3x3 (v3_scale k (row0 a)) (v3_scale k (row1 a)) (v3_scale k (row2 a)).
Definition getTranspose (a : Matrix3x3 D) : Matrix3x3 D :=
  Matrix3x3_of (vx (row0 a)) (vx (row1 a)) (vx (row2 a))
               (vy (row0 a)) (vy (row1 a)) (vy (row2 a))
               (vz (row0 a)) (vz (row1 a)) (vz (row2 a)).
Definition dot3 (a b : Vector3 D) : D := vx a * vx b + vy a * vy b + vz a * vz b.
Definition m3_mulv (a : Matrix3x3 D) (v : Vector3 D) : Vector3 D :=
  mkVector3 (dot3 (row0 a) v) (dot3 (row1 a) v) (dot3 (row2 a) v).
Definition row_mul (r : Vector3 D) (b : Matrix3x3 D) : Vector3 D :=
  mkVector3 (vx r * vx (row0 b) + vy r * vx (row1 b) + vz r * vx (row2 b))
            (vx r * vy (row0 b) + vy r * vy (row1 b) + vz r * vy (row2 b))
            (vx r * vz (row0 b) + vy r * vz (row1 b) + vz r * vz (row2 b)).
Definition m3_mul (a b : Matrix3x3 D) : Matrix3x3 D :=
  mkMatrix3x3 (row_mul (row0 a) b) (row_mul (row1 a) b) (row_mul (row2 a) b).
Definition computeSkewSymmetricMatrixForCrossProduct (v : Vector3 D) : Matrix3x3 D :=
  Matrix3x3_of dec_0 (- vz v) (vy v)
               (vz v) dec_0 (- vx v)
               (- vy v) (vx v) dec_0.
Definition getDeterminant (m : Matrix3x3 D) : D :=
  let '(mkMatrix3x3 (mkVector3 a b c) (mkVector3 d e f) (mkVector3 g h i)) := m in
  a * (e * i - h * f) - b * (d * i - g * f) + c * (d * h - g * e).
(** The inverse in cofactor form, from a determinant the caller has
    computed: [1/det] times the adjugate. *)
Definition getInverse (m : Matrix3x3 D) (determinant : D) : Matrix3x3 D :=
  let '(mkMatrix3x3 (mkVector3 a b c) (mkVector3 d e f) (mkVector3 g h i)) := m in
  let invDeterminant := dec_1 / determinant in
  m3_scale invDeterminant
    (Matrix3x3_of (e * i - h * f) (- (b * i - h * c)) (b * f - c * e)
                  (- (d * i - g * f)) (a * i - g * c) (- (a * f - d * c))
                  (d * h - g * e) (- (a * h - g * b)) (a * e - b * d)).

(** Modelled from the spec: [Quaternion] is missing from [src/].
    [Quaternion(w, v)], [operator+] (as used by [+=]), the Hamilton product
    [⊗], the product by a scalar, the rotation of a vector
    ([q * v = q ⊗ (v,0) ⊗ conj q]), [length], [normalize] and [getMatrix]. *)
Definition Quaternion_of (w : D) (v : Vector3 D) : Quaternion D :=
  mkQuaternion (vx v) (vy v) (vz v) w.
Definition q_add (a b : Quaternion D) : Quaternion D :=
  mkQuaternion (qx a + qx b) (qy a + qy b) (qz a + qz b) (qw a + qw b).
Definition q_mul (a b : Quaternion D) : Quaternion D :=
  mkQuaternion
    (qw a * qx b + qw b * qx a + qy a * qz b - qz a * qy b)
    (qw a * qy b + qw b * qy a + qz a * qx b - qx a * qz b)
    (qw a * qz b + qw b * qz a + qx a * qy b - qy a * qx b)
    (qw a * qw b - qx a * qx b - qy a * qy b - qz a * qz b).
Definition q_scale (a : Quaternion D) (nb : D) : Quaternion D :=
  mkQuaternion (nb * qx a) (nb * qy a) (nb * qz a) (nb * qw a).
Definition q_rotate (q : Quaternion D) (point : Vector3 D) : Vector3 D :=
  let prodX := qw q * vx point + qy q * vz point - qz q * vy point in
  let prodY := qw q * vy point + qz q * vx point - qx q * vz point in
  let prodZ := qw q * vz point + qx q * vy point - qy q * vx point in
  let prodW := - qx q * vx point - qy q * vy point - qz q * vz point in
  mkVector3 (qw q * prodX - prodY * qz q + prodZ * qy q - prodW * qx q)
            (qw q * prodY - prodZ * qx q + prodX * qz q - prodW * qy q)
            (qw q * prodZ - prodX * qy q + prodY * qx q - prodW * qz q).
Definition lengthSquare (q : Quaternion D) : D :=
  qx q * qx q + qy q * qy q + qz q * qz q + qw q * qw q.
Definition Quaternion_length (q : Quaternion D) : D := dsqrt (lengthSquare q).
Definition normalize (q : Quaternion D) : Quaternion D :=
  let l := Quaternion_length q in
  mkQuaternion (qx q / l) (qy q / l) (qz q / l) (qw q / l).
Definition getMatrix (q : Quaternion D) : Matrix3x3 D :=
  let nQ := lengthSquare q in
  let s := if nQ >? dec_0 then dec_2 / nQ else dec_0 in
  let xs := qx q * s in let ys := qy q * s in let zs := qz q * s in
  let wxs := qw q * xs in let wys := qw q * ys in let wzs := qw q * zs in
  let xxs := qx q * xs in let xys := qx q * ys in let xzs := qx q * zs in
  let yys := qy q * ys in let yzs := qy q * zs in let zzs := qz q * zs in
  Matrix3x3_of (dec_1 - yys - zzs) (xys - wzs) (xzs + wys)
               (xys + wzs) (dec_1 - xxs - zzs) (yzs - wxs)
               (xzs - wys) (yzs + wxs) (dec_1 - xxs - yys).

(** Modelled from the spec: [RigidBody::computeWorldInertiaTensorInverse] is
    missing from [src/]; the spec gives the sandwich [R · I_local · Rᵀ]. *)
Definition computeWorldInertiaTensorInverse
    (orientation inverseInertiaTensorLocal : Matrix3x3 D) : Matrix3x3 D :=
  m3_mul (m3_mul orientation inverseInertiaTensorLocal) (getTranspose orientation).
End Mathematics.

(** The arithmetic is unfolded on demand only. *)
Arguments Vector3_zero : simpl never.
Arguments v3_add : simpl never.
Arguments v3_sub : simpl never.
Arguments v3_neg : simpl never.
Arguments v3_scale : simpl never.
Arguments v3_mul : simpl never.
Arguments cross : simpl never.
Arguments Matrix3x3_of : simpl never.
Arguments Matrix3x3_zero : simpl never.
Arguments Matrix3x3_identity : simpl never.
Arguments m3_add : simpl never.
Arguments m3_scale : simpl never.
Arguments getTranspose : simpl never.
Arguments m3_mulv : simpl never.
Arguments m3_mul : simpl never.
Arguments computeSkewSymmetricMatrixForCrossProduct : simpl never.
Arguments getDeterminant : simpl never.
Arguments getInverse : simpl never.
Arguments Quaternion_of : simpl never.
Arguments q_add : simpl never.
Arguments q_mul : simpl never.
Arguments q_scale : simpl never.
Arguments q_rotate : simpl never.
Arguments lengthSquare : simpl never.
Arguments Quaternion_length : simpl never.
Arguments normalize : simpl never.
Arguments getMatrix : simpl never.
Arguments computeWorldInertiaTensorInverse : simpl never.

(* ------------------------------------------------------------------------- *)
(** ** The component store

    Structure of arrays: one list per column, and per family the map from an
    entity handle to its row.  The declarations of the four component classes
    are not under [src/]; the columns below are the ones the solver names. *)

Abbreviation Entity := N (only parsing).

Inductive BodyType : Set := STATIC | KINEMATIC | DYNAMIC.
Inductive JointsPositionCorrectionTechnique : Set :=
  BAUMGARTE_JOINTS | NON_LINEAR_GAUSS_SEIDEL.

#[global] Instance BodyType_eq_dec : EqDecision BodyType.
Proof. solve_decision. Defined.
#[global] Instance JointsPositionCorrectionTechnique_eq_dec :
  EqDecision JointsPositionCorrectionTechnique.
Proof. solve_decision. Defined.

Record Transform (D : Type) : Type :=
  mkTransform { mPosition : Vector3 D; mOrientation : Quaternion D }.
Arguments mkTransform {D} _ _.
Arguments mPosition {D} _.
Arguments mOrientation {D} _.

Record TransformComponents (D : Type) : Type := mkTransformComponents {
  tc_mMapEntityToComponentIndex : gmap N nat;
  mTransforms : list (Transform D);
}.
Arguments mkTransformComponents {D} _ _.
Arguments tc_mMapEntityToComponentIndex {D} _.
Arguments mTransforms {D} _.

Record JointComponents : Type := mkJointComponents {
  jc_mMapEntityToComponentIndex : gmap N nat;
  mBody1Entities : list N;
  mBody2Entities : list N;
  mPositionCorrectionTechniques : list JointsPositionCorrectionTechnique;
}.

Record RigidBodyComponents (D : Type) : Type := mkRigidBodyComponents {
  rb_mMapEntityToComponentIndex : gmap N nat;
  rb_mDisabledStartIndex : nat;
  mBodyTypes : list BodyType;
  mInverseMasses : list D;
  mInverseInertiaTensorsLocal : list (Matrix3x3 D);
  mInverseInertiaTensorsWorld : list (Matrix3x3 D);
  mCentersOfMassWorld : list (Vector3 D);
  mLinearLockAxisFactors : list (Vector3 D);
  mAngularLockAxisFactors : list (Vector3 D);
  mConstrainedLinearVelocities : list (Vector3 D);
  mConstrainedAngularVelocities : list (Vector3 D);
  mConstrainedPositions : list (Vector3 D);
  mConstrainedOrientations : list (Quaternion D);
}.
Arguments mkRigidBodyComponents {D} _ _ _ _ _ _ _ _ _ _ _ _ _.
Arguments rb_mMapEntityToComponentIndex {D} _.
Arguments rb_mDisabledStartIndex {D} _.
Arguments mBodyTypes {D} _.
Arguments mInverseMasses {D} _.
Arguments mInverseInertiaTensorsLocal {D} _.
Arguments mInverseInertiaTensorsWorld {D} _.
Arguments mCentersOfMassWorld {D} _.
Arguments mLinearLockAxisFactors {D} _.
Arguments mAngularLockAxisFactors {D} _.
Arguments mConstrainedLinearVelocities {D} _.
Arguments mConstrainedAngularVelocities {D} _.
Arguments mConstrainedPositions {D} _.
Arguments mConstrainedOrientations {D} _.

Record BallAndSocketJointComponents (D : Type) : Type :=
  mkBallAndSocketJointComponents {
  bs_mDisabledStartIndex : nat;
  mJointEntities : list N;
  mLocalAnchorPointBody1 : list (Vector3 D);
  mLocalAnchorPointBody2 : list (Vector3 D);
  mR1World : list (Vector3 D);
  mR2World : list (Vector3 D);
  mI1 : list (Matrix3x3 D);
  mI2 : list (Matrix3x3 D);
  mBiasVector : list (Vector3 D);
  mInverseMassMatrix : list (Matrix3x3 D);
  mImpulse : list (Vector3 D);
}.
Arguments mkBallAndSocketJointComponents {D} _ _ _ _ _ _ _ _ _ _ _.
Arguments bs_mDisabledStartIndex {D} _.
Arguments mJointEntities {D} _.
Arguments mLocalAnchorPointBody1 {D} _.
Arguments mLocalAnchorPointBody2 {D} _.
Arguments mR1World {D} _.
Arguments mR2World {D} _.
Arguments mI1 {D} _.
Arguments mI2 {D} _.
Arguments mBiasVector {D} _.
Arguments mInverseMassMatrix {D} _.
Arguments mImpulse {D} _.

(** The members of [SolveBallAndSocketJointSystem] ([mWorld] is never used by
    the four kernels). *)
Record System (D : Type) : Type := mkSystem {
  mRigidBodyComponents : RigidBodyComponents D;
  mTransformComponents : TransformComponents D;
  mJointComponents : JointComponents;
  mBallAndSocketJointComponents : BallAndSocketJointComponents D;
  mTimeStep : D;
  mIsWarmStartingActive : bool;
}.
Arguments mkSystem {D} _ _ _ _ _ _.
Arguments mRigidBodyComponents {D} _.
Arguments mTransformComponents {D} _.
Arguments mJointComponents {D} _.
Arguments mBallAndSocketJointComponents {D} _.
Arguments mTimeStep {D} _.
Arguments mIsWarmStartingActive {D} _.

Section Store.
Context {D : Type}.

(** [a[i] = v] on a raw array: undefined outside the array. *)
Definition array_set {A : Type} (a : list A) (i : nat) (v : A) : option (list A) :=
  if decide (i < length a) then Some (<[i := v]> a) else None.

(** Writers of the columns the solver assigns to. *)
Definition with_mConstrainedLinearVelocities (l : list (Vector3 D))
    (rb : RigidBodyComponents D) : RigidBodyComponents D :=
  mkRigidBodyComponents (rb_mMapEntityToComponentIndex rb) (rb_mDisabledStartIndex rb)
    (mBodyTypes rb) (mInverseMasses rb) (mInverseInertiaTensorsLocal rb)
    (mInverseInertiaTensorsWorld rb) (mCentersOfMassWorld rb)
    (mLinearLockAxisFactors rb) (mAngularLockAxisFactors rb)
    l (mConstrainedAngularVelocities rb)
    (mConstrainedPositions rb) (mConstrainedOrientations rb).
Definition with_mConstrainedAngularVelocities (l : list (Vector3 D))
    (rb : RigidBodyComponents D) : RigidBodyComponents D :=
  mkRigidBodyComponents (rb_mMapEntityToComponentIndex rb) (rb_mDisabledStartIndex rb)
    (mBodyTypes rb) (mInverseMasses rb) (mInverseInertiaTensorsLocal rb)
    (mInverseInertiaTensorsWorld rb) (mCentersOfMassWorld rb)
    (mLinearLockAxisFactors rb) (mAngularLockAxisFactors rb)
    (mConstrainedLinearVelocities rb) l
    (mConstrainedPositions rb) (mConstrainedOrientations rb).
Definition with_mConstrainedPositions (l : list (Vector3 D))
    (rb : RigidBodyComponents D) : RigidBodyComponents D :=
  mkRigidBodyComponents (rb_mMapEntityToComponentIndex rb) (rb_mDisabledStartIndex rb)
    (mBodyTypes rb) (mInverseMasses rb) (mInverseInertiaTensorsLocal rb)
    (mInverseInertiaTensorsWorld rb) (mCentersOfMassWorld rb)
    (mLinearLockAxisFactors rb) (mAngularLockAxisFactors rb)
    (mConstrainedLinearVelocities rb) (mConstrainedAngularVelocities rb)
    l (mConstrainedOrientations rb).
Definition with_mConstrainedOrientations (l : list (Quaternion D))
    (rb : RigidBodyComponents D) : RigidBodyComponents D :=
  mkRigidBodyComponents (rb_mMapEntityToComponentIndex rb) (rb_mDisabledStartIndex rb)
    (mBodyTypes rb) (mInverseMasses rb) (mInverseInertiaTensorsLocal rb)
    (mInverseInertiaTensorsWorld rb) (mCentersOfMassWorld rb)
    (mLinearLockAxisFactors rb) (mAngularLockAxisFactors rb)
    (mConstrainedLinearVelocities rb) (mConstrainedAngularVelocities rb)
    (mConstrainedPositions rb) l.

Definition with_mR1World (l : list (Vector3 D))
    (bs : BallAndSocketJointComponents D) : BallAndSocketJointComponents D :=
  mkBallAndSocketJointComponents (bs_mDisabledStartIndex bs) (mJointEntities bs)
    (mLocalAnchorPointBody1 bs) (mLocalAnchorPointBody2 bs)
    l (mR2World bs) (mI1 bs) (mI2 bs)
    (mBiasVector bs) (mInverseMassMatrix bs) (mImpulse bs).
Definition with_mR2World (l : list (Vector3 D))
    (bs : BallAndSocketJointComponents D) : BallAndSocketJointComponents D :=
  mkBallAndSocketJointComponents (bs_mDisabledStartIndex bs) (mJointEntities bs)
    (mLocalAnchorPointBody1 bs) (mLocalAnchorPointBody2 bs)
    (mR1World bs) l (mI1 bs) (mI2 bs)
    (mBiasVector bs) (mInverseMassMatrix bs) (mImpulse bs).
Definition with_mI1 (l : list (Matrix3x3 D))
    (bs : BallAndSocketJointComponents D) : BallAndSocketJointComponents D :=
  mkBallAndSocketJointComponents (bs_mDisabledStartIndex bs) (mJointEntities bs)
    (mLocalAnchorPointBody1 bs) (mLocalAnchorPointBody2 bs)
    (mR1World bs) (mR2World bs) l (mI2 bs)
    (mBiasVector bs) (mInverseMassMatrix bs) (mImpulse bs).
Definition with_mI2 (l : list (Matrix3x3 D))
    (bs : BallAndSocketJointComponents D) : BallAndSocketJointComponents D :=
  mkBallAndSocketJointComponents (bs_mDisabledStartIndex bs) (mJointEntities bs)
    (mLocalAnchorPointBody1 bs) (mLocalAnchorPointBody2 bs)
    (mR1World bs) (mR2World bs) (mI1 bs) l
    (mBiasVector bs) (mInverseMassMatrix bs) (mImpulse bs).
Definition with_mBiasVector (l : list (Vector3 D))
    (bs : BallAndSocketJointComponents D) : BallAndSocketJointComponents D :=
  mkBallAndSocketJointComponents (bs_mDisabledStartIndex bs) (mJointEntities bs)
    (mLocalAnchorPointBody1 bs) (mLocalAnchorPointBody2 bs)
    (mR1World bs) (mR2World bs) (mI1 bs) (mI2 bs)
    l (mInverseMassMatrix bs) (mImpulse bs).
Definition with_mInverseMassMatrix (l : list (Matrix3x3 D))
    (bs : BallAndSocketJointComponents D) : BallAndSocketJointComponents D :=
  mkBallAndSocketJointComponents (bs_mDisabledStartIndex bs) (mJointEntities bs)
    (mLocalAnchorPointBody1 bs) (mLocalAnchorPointBody2 bs)
    (mR1World bs) (mR2World bs) (mI1 bs) (mI2 bs)
    (mBiasVector bs) l (mImpulse bs).
Definition with_mImpulse (l : list (Vector3 D))
    (bs : BallAndSocketJointComponents D) : BallAndSocketJointComponents D :=
  mkBallAndSocketJointComponents (bs_mDisabledStartIndex bs) (mJointEntities bs)
    (mLocalAnchorPointBody1 bs) (mLocalAnchorPointBody2 bs)
    (mR1World bs) (mR2World bs) (mI1 bs) (mI2 bs)
    (mBiasVector bs) (mInverseMassMatrix bs) l.

Definition with_rb (rb : RigidBodyComponents D) (s : System D) : System D :=
  mkSystem rb (mTransformComponents s) (mJointComponents s)
           (mBallAndSocketJointComponents s) (mTimeStep s) (mIsWarmStartingActive s).
Definition with_bs (bs : BallAndSocketJointComponents D) (s : System D) : System D :=
  mkSystem (mRigidBodyComponents s) (mTransformComponents s) (mJointComponents s)
           bs (mTimeStep s) (mIsWarmStartingActive s).

(** Modelled from the spec: the component classes are missing from [src/].
    Section 4.1 gives [getEntityIndex(entity) → row index] (here a lookup in
    the family's map), [getNbEnabledComponents() → count], and "enabled
    components occupy rows [0, count); disabled components live beyond";
    [getTransform] reads the transform row of an entity. *)
Definition getNbEnabledComponents (bs : BallAndSocketJointComponents D) : nat :=
  bs_mDisabledStartIndex bs.
Definition getIsEntityDisabled (rb : RigidBodyComponents D) (e : Entity) : option bool :=
  idx ← rb_mMapEntityToComponentIndex rb !! e;
  Some (bool_decide (rb_mDisabledStartIndex rb ≤ idx)).
Definition getTransform (tc : TransformComponents D) (e : Entity) : option (Transform D) :=
  idx ← tc_mMapEntityToComponentIndex tc !! e;
  mTransforms tc !! idx.

(** The prologue every kernel starts its loop body with: the row of joint
    [i] in the joint family, then its two bodies and their rows. *)
Definition jointIndexOf (s : System D) (i : nat) : option nat :=
  jointEntity ← mJointEntities (mBallAndSocketJointComponents s) !! i;
  jc_mMapEntityToComponentIndex (mJointComponents s) !! jointEntity.
Definition bodiesOf (s : System D) (jointIndex : nat)
    : option (Entity * Entity * nat * nat) :=
  body1Entity ← mBody1Entities (mJointComponents s) !! jointIndex;
  body2Entity ← mBody2Entities (mJointComponents s) !! jointIndex;
  componentIndexBody1 ← rb_mMapEntityToComponentIndex (mRigidBodyComponents s) !! body1Entity;
  componentIndexBody2 ← rb_mMapEntityToComponentIndex (mRigidBodyComponents s) !! body2Entity;
  Some (body1Entity, body2Entity, componentIndexBody1, componentIndexBody2).

(** [for (uint32 i=0; i < nbJoints; i++) body(i)]. *)
Fixpoint for_each {S : Type} (body : nat -> S -> option S) (rows : list nat) (s : S)
    : option S :=
  match rows with
  | [] => Some s
  | i :: rows' => s' ← body i s; for_each body rows' s'
  end.
End Store.

(* ------------------------------------------------------------------------- *)
(** ** The four kernels of [SolveBallAndSocketJointSystem] *)

Section Kernels.
Context {D : Type} `{Decimal D}.
Local Open Scope dec_scope.

Definition BETA : D := dec_0_2.

(** [a[i] += d] on a column of vectors. *)
Definition cell_add (a : list (Vector3 D)) (i : nat) (d : Vector3 D)
    : option (list (Vector3 D)) :=
  v ← a !! i; Some (<[i := v3_add v d]> a).

(** [mBodyTypes[c1] == DYNAMIC || mBodyTypes[c2] == DYNAMIC], with the
    short circuit of [||]. *)
Definition eitherDynamic (rb : RigidBodyComponents D) (c1 c2 : nat) : option bool :=
  t1 ← mBodyTypes rb !! c1;
  if decide (t1 = DYNAMIC) then Some true
  else t2 ← mBodyTypes rb !! c2; Some (bool_decide (t2 = DYNAMIC)).

(** The expression assigned to [massMatrix] in [initBeforeSolve] and in
    [solvePositionConstraint]. *)
Definition massMatrixExpr (inverseMassBodies : D) (i1 i2 : Matrix3x3 D)
    (skewSymmetricMatrixU1 skewSymmetricMatrixU2 : Matrix3x3 D) : Matrix3x3 D :=
  m3_add
    (m3_add
       (Matrix3x3_of inverseMassBodies dec_0 dec_0
                     dec_0 inverseMassBodies dec_0
                     dec_0 dec_0 inverseMassBodies)
       (m3_mul (m3_mul skewSymmetricMatrixU1 i1) (getTranspose skewSymmetricMatrixU1)))
    (m3_mul (m3_mul skewSymmetricMatrixU2 i2) (getTranspose skewSymmetricMatrixU2)).

(** *** [initBeforeSolve], lines 48-124 *)
Definition initBeforeSolve_joint (biasFactor : D) (i : nat) (s : System D)
    : option (System D) :=
  let rb := mRigidBodyComponents s in
  let bs := mBallAndSocketJointComponents s in
  jointIndex ← jointIndexOf s i;
  '(body1Entity, body2Entity, componentIndexBody1, componentIndexBody2)
     ← bodiesOf s jointIndex;
  (* assert(!getIsEntityDisabled(body1Entity)); assert(!getIsEntityDisabled(body2Entity)); *)
  disabled1 ← getIsEntityDisabled rb body1Entity;
  disabled2 ← getIsEntityDisabled rb body2Entity;
  if disabled1 || disabled2 then None else
  (* Get the inertia tensor of bodies *)
  i1 ← mInverseInertiaTensorsWorld rb !! componentIndexBody1;
  colI1 ← array_set (mI1 bs) i i1;
  i2 ← mInverseInertiaTensorsWorld rb !! componentIndexBody2;
  colI2 ← array_set (mI2 bs) i i2;
  transform1 ← getTransform (mTransformComponents s) body1Entity;
  transform2 ← getTransform (mTransformComponents s) body2Entity;
  let orientationBody1 := mOrientation transform1 in
  let orientationBody2 := mOrientation transform2 in
  (* Compute the vector from body center to the anchor point in world-space *)
  anchor1 ← mLocalAnchorPointBody1 bs !! i;
  let r1World := q_rotate orientationBody1 anchor1 in
  colR1 ← array_set (mR1World bs) i r1World;
  anchor2 ← mLocalAnchorPointBody2 bs !! i;
  let r2World := q_rotate orientationBody2 anchor2 in
  colR2 ← array_set (mR2World bs) i r2World;
  (* Compute the corresponding skew-symmetric matrices *)
  let skewSymmetricMatrixU1 := computeSkewSymmetricMatrixForCrossProduct r1World in
  let skewSymmetricMatrixU2 := computeSkewSymmetricMatrixForCrossProduct r2World in
  (* Compute the matrix K=JM^-1J^t (3x3 matrix) *)
  body1MassInverse ← mInverseMasses rb !! componentIndexBody1;
  body2MassInverse ← mInverseMasses rb !! componentIndexBody2;
  let inverseMassBodies := body1MassInverse + body2MassInverse in
  let massMatrix :=
    massMatrixExpr inverseMassBodies i1 i2 skewSymmetricMatrixU1 skewSymmetricMatrixU2 in
  (* Compute the inverse mass matrix K^-1 *)
  colK0 ← array_set (mInverseMassMatrix bs) i Matrix3x3_zero;
  let massMatrixDeterminant := getDeterminant massMatrix in
  colK ← (if dabs massMatrixDeterminant >? MACHINE_EPSILON then
            dynamic ← eitherDynamic rb componentIndexBody1 componentIndexBody2;
            if dynamic : bool
            then array_set colK0 i (getInverse massMatrix massMatrixDeterminant)
            else Some colK0
          else Some colK0);
  x1 ← mCentersOfMassWorld rb !! componentIndexBody1;
  x2 ← mCentersOfMassWorld rb !! componentIndexBody2;
  (* Compute the bias "b" of the constraint *)
  colB0 ← array_set (mBiasVector bs) i Vector3_zero;
  technique ← mPositionCorrectionTechniques (mJointComponents s) !! jointIndex;
  colB ← (if decide (technique = BAUMGARTE_JOINTS)
          then array_set colB0 i
                 (v3_scale biasFactor (v3_sub (v3_sub (v3_add x2 r2World) x1) r1World))
          else Some colB0);
  (* If warm-starting is not enabled, reset the accumulated impulse *)
  colP ← (if mIsWarmStartingActive s then Some (mImpulse bs)
          else array_set (mImpulse bs) i Vector3_zero);
  Some (with_bs
          (with_mImpulse colP (with_mBiasVector colB (with_mInverseMassMatrix colK
             (with_mR2World colR2 (with_mR1World colR1
                (with_mI2 colI2 (with_mI1 colI1 bs)))))))
          s).

Definition initBeforeSolve (s : System D) : option (System D) :=
  let biasFactor := BETA / mTimeStep s in
  let nbJoints := getNbEnabledComponents (mBallAndSocketJointComponents s) in
  for_each (initBeforeSolve_joint biasFactor) (seq 0 nbJoints) s.

(** The impulse application shared, line for line, by [warmstart]
    (lines 154-167, with [P := mImpulse[i]]) and [solveVelocityConstraint]
    (lines 203-216, with [P := deltaLambda]).  [v1], [v2], [w1], [w2] are
    references into the velocity columns: each [+=] reads the cell as the
    previous statements left it, which matters when both ends of the joint
    are the same body. *)
Definition applyImpulse (P r1World r2World : Vector3 D) (i1 i2 : Matrix3x3 D)
    (componentIndexBody1 componentIndexBody2 : nat) (rb : RigidBodyComponents D)
    : option (RigidBodyComponents D) :=
  (* Compute the impulse P=J^T * lambda for the body 1 *)
  let linearImpulseBody1 := v3_neg P in
  let angularImpulseBody1 := cross P r1World in
  (* Apply the impulse to the body 1 *)
  inverseMass1 ← mInverseMasses rb !! componentIndexBody1;
  linearLock1 ← mLinearLockAxisFactors rb !! componentIndexBody1;
  colV ← cell_add (mConstrainedLinearVelocities rb) componentIndexBody1
           (v3_mul (v3_scale inverseMass1 linearLock1) linearImpulseBody1);
  angularLock1 ← mAngularLockAxisFactors rb !! componentIndexBody1;
  colW ← cell_add (mConstrainedAngularVelocities rb) componentIndexBody1
           (v3_mul angularLock1 (m3_mulv i1 angularImpulseBody1));
  (* Compute the impulse P=J^T * lambda for the body 2 *)
  let angularImpulseBody2 := v3_neg (cross P r2World) in
  (* Apply the impulse to the body 2 *)
  inverseMass2 ← mInverseMasses rb !! componentIndexBody2;
  linearLock2 ← mLinearLockAxisFactors rb !! componentIndexBody2;
  colV ← cell_add colV componentIndexBody2
           (v3_mul (v3_scale inverseMass2 linearLock2) P);
  angularLock2 ← mAngularLockAxisFactors rb !! componentIndexBody2;
  colW ← cell_add colW componentIndexBody2
           (v3_mul angularLock2 (m3_mulv i2 angularImpulseBody2));
  Some (with_mConstrainedAngularVelocities colW
          (with_mConstrainedLinearVelocities colV rb)).

(** *** [warmstart], lines 127-169 *)
Definition warmstart_joint (i : nat) (s : System D) : option (System D) :=
  let rb := mRigidBodyComponents s in
  let bs := mBallAndSocketJointComponents s in
  jointIndex ← jointIndexOf s i;
  '(_, _, componentIndexBody1, componentIndexBody2) ← bodiesOf s jointIndex;
  (* Get the velocities *)
  _ ← mConstrainedLinearVelocities rb !! componentIndexBody1;
  _ ← mConstrainedLinearVelocities rb !! componentIndexBody2;
  _ ← mConstrainedAngularVelocities rb !! componentIndexBody1;
  _ ← mConstrainedAngularVelocities rb !! componentIndexBody2;
  r1World ← mR1World bs !! i;
  r2World ← mR2World bs !! i;
  i1 ← mI1 bs !! i;
  i2 ← mI2 bs !! i;
  impulse ← mImpulse bs !! i;
  rb' ← applyImpulse impulse r1World r2World i1 i2
          componentIndexBody1 componentIndexBody2 rb;
  Some (with_rb rb' s).

Definition warmstart (s : System D) : option (System D) :=
  let nbJoints := getNbEnabledComponents (mBallAndSocketJointComponents s) in
  for_each warmstart_joint (seq 0 nbJoints) s.

(** *** [solveVelocityConstraint], lines 172-218 *)
Definition solveVelocityConstraint_joint (i : nat) (s : System D) : option (System D) :=
  let rb := mRigidBodyComponents s in
  let bs := mBallAndSocketJointComponents s in
  jointIndex ← jointIndexOf s i;
  '(_, _, componentIndexBody1, componentIndexBody2) ← bodiesOf s jointIndex;
  (* Get the velocities *)
  v1 ← mConstrainedLinearVelocities rb !! componentIndexBody1;
  v2 ← mConstrainedLinearVelocities rb !! componentIndexBody2;
  w1 ← mConstrainedAngularVelocities rb !! componentIndexBody1;
  w2 ← mConstrainedAngularVelocities rb !! componentIndexBody2;
  i1 ← mI1 bs !! i;
  i2 ← mI2 bs !! i;
  r1World ← mR1World bs !! i;
  r2World ← mR2World bs !! i;
  (* Compute J*v *)
  let Jv := v3_sub (v3_sub (v3_add v2 (cross w2 r2World)) v1) (cross w1 r1World) in
  (* Compute the Lagrange multiplier lambda *)
  inverseMassMatrix ← mInverseMassMatrix bs !! i;
  biasVector ← mBiasVector bs !! i;
  let deltaLambda := m3_mulv inverseMassMatrix (v3_sub (v3_neg Jv) biasVector) in
  colP ← cell_add (mImpulse bs) i deltaLambda;
  rb' ← applyImpulse deltaLambda r1World r2World i1 i2
          componentIndexBody1 componentIndexBody2 rb;
  Some (with_bs (with_mImpulse colP bs) (with_rb rb' s)).

Definition solveVelocityConstraint (s : System D) : option (System D) :=
  let nbJoints := getNbEnabledComponents (mBallAndSocketJointComponents s) in
  for_each solveVelocityConstraint_joint (seq 0 nbJoints) s.

(** [q += Quaternion(0, w) * q * decimal(0.5); q.normalize();] on a cell of
    the orientation column. *)
Definition integrateOrientation (a : list (Quaternion D)) (c : nat) (w : Vector3 D)
    : option (list (Quaternion D)) :=
  q ← a !! c;
  Some (<[c := normalize (q_add q (q_scale (q_mul (Quaternion_of dec_0 w) q) dec_0_5))]> a).

(** *** [solvePositionConstraint], lines 221-320 *)
Definition solvePositionConstraint_joint (i : nat) (s : System D) : option (System D) :=
  let rb := mRigidBodyComponents s in
  let bs := mBallAndSocketJointComponents s in
  jointIndex ← jointIndexOf s i;
  technique ← mPositionCorrectionTechniques (mJointComponents s) !! jointIndex;
  if decide (technique ≠ NON_LINEAR_GAUSS_SEIDEL) then Some s (* continue *) else
  '(_, _, componentIndexBody1, componentIndexBody2) ← bodiesOf s jointIndex;
  q1 ← mConstrainedOrientations rb !! componentIndexBody1;
  q2 ← mConstrainedOrientations rb !! componentIndexBody2;
  (* Recompute the world inverse inertia tensors *)
  local1 ← mInverseInertiaTensorsLocal rb !! componentIndexBody1;
  let i1 := computeWorldInertiaTensorInverse (getMatrix q1) local1 in
  colI1 ← array_set (mI1 bs) i i1;
  local2 ← mInverseInertiaTensorsLocal rb !! componentIndexBody2;
  let i2 := computeWorldInertiaTensorInverse (getMatrix q2) local2 in
  colI2 ← array_set (mI2 bs) i i2;
  (* Compute the vector from body center to the anchor point in world-space *)
  anchor1 ← mLocalAnchorPointBody1 bs !! i;
  let r1World := q_rotate q1 anchor1 in
  colR1 ← array_set (mR1World bs) i r1World;
  anchor2 ← mLocalAnchorPointBody2 bs !! i;
  let r2World := q_rotate q2 anchor2 in
  colR2 ← array_set (mR2World bs) i r2World;
  (* Compute the corresponding skew-symmetric matrices *)
  let skewSymmetricMatrixU1 := computeSkewSymmetricMatrixForCrossProduct r1World in
  let skewSymmetricMatrixU2 := computeSkewSymmetricMatrixForCrossProduct r2World in
  (* Get the inverse mass and inverse inertia tensors of the bodies *)
  inverseMassBody1 ← mInverseMasses rb !! componentIndexBody1;
  inverseMassBody2 ← mInverseMasses rb !! componentIndexBody2;
  (* Recompute the inverse mass matrix K=J^TM^-1J of of the 3 translation constraints *)
  let inverseMassBodies := inverseMassBody1 + inverseMassBody2 in
  let massMatrix :=
    massMatrixExpr inverseMassBodies i1 i2 skewSymmetricMatrixU1 skewSymmetricMatrixU2 in
  colK0 ← array_set (mInverseMassMatrix bs) i Matrix3x3_zero;
  let bs0 := with_mR2World colR2 (with_mR1World colR1
               (with_mI2 colI2 (with_mI1 colI1 bs))) in
  let massMatrixDeterminant := getDeterminant massMatrix in
  if dabs massMatrixDeterminant >? MACHINE_EPSILON then
    dynamic ← eitherDynamic rb componentIndexBody1 componentIndexBody2;
    let inverseMassMatrix :=
      if dynamic : bool then getInverse massMatrix massMatrixDeterminant
      else Matrix3x3_zero in
    let colK := <[i := inverseMassMatrix]> colK0 in
    x1 ← mConstrainedPositions rb !! componentIndexBody1;
    x2 ← mConstrainedPositions rb !! componentIndexBody2;
    (* Compute the constraint error (value of the C(x) function) *)
    let constraintError := v3_sub (v3_sub (v3_add x2 r2World) x1) r1World in
    (* Compute the Lagrange multiplier lambda *)
    let lambda := m3_mulv inverseMassMatrix (v3_neg constraintError) in
    (* Compute the impulse of body 1 *)
    let linearImpulseBody1 := v3_neg lambda in
    let angularImpulseBody1 := cross lambda r1World in
    (* Compute the pseudo velocity of body 1 *)
    linearLock1 ← mLinearLockAxisFactors rb !! componentIndexBody1;
    let v1 := v3_mul (v3_scale inverseMassBody1 linearLock1) linearImpulseBody1 in
    angularLock1 ← mAngularLockAxisFactors rb !! componentIndexBody1;
    let w1 := v3_mul angularLock1 (m3_mulv i1 angularImpulseBody1) in
    (* Update the body center of mass and orientation of body 1 *)
    colX ← cell_add (mConstrainedPositions rb) componentIndexBody1 v1;
    colQ ← integrateOrientation (mConstrainedOrientations rb) componentIndexBody1 w1;
    (* Compute the impulse of body 2 *)
    let angularImpulseBody2 := v3_neg (cross lambda r2World) in
    (* Compute the pseudo velocity of body 2 *)
    linearLock2 ← mLinearLockAxisFactors rb !! componentIndexBody2;
    let v2 := v3_mul (v3_scale inverseMassBody2 linearLock2) lambda in
    angularLock2 ← mAngularLockAxisFactors rb !! componentIndexBody2;
    let w2 := v3_mul angularLock2 (m3_mulv i2 angularImpulseBody2) in
    (* Update the body position/orientation of body 2 *)
    colX ← cell_add colX componentIndexBody2 v2;
    colQ ← integrateOrientation colQ componentIndexBody2 w2;
    Some (with_bs (with_mInverseMassMatrix colK bs0)
            (with_rb (with_mConstrainedOrientations colQ
                        (with_mConstrainedPositions colX rb)) s))
  else
    Some (with_bs (with_mInverseMassMatrix colK0 bs0) s).

Definition solvePositionConstraint (s : System D) : option (System D) :=
  let nbEnabledJoints := getNbEnabledComponents (mBallAndSocketJointComponents s) in
  for_each solvePositionConstraint_joint (seq 0 nbEnabledJoints) s.

(** [n] passes of a solver, as the time stepper runs them. *)
Fixpoint iterate (n : nat) (pass : System D -> option (System D)) (s : System D)
    : option (System D) :=
  match n with
  | O => Some s
  | S n' => s' ← pass s; iterate n' pass s'
  end.
End Kernels.

Arguments massMatrixExpr : simpl never.
Arguments eitherDynamic : simpl never.
Arguments applyImpulse : simpl never.
Arguments cell_add : simpl never.
Arguments array_set : simpl never.
Arguments integrateOrientation : simpl never.
Arguments jointIndexOf : simpl never.
Arguments bodiesOf : simpl never.
Arguments getTransform : simpl never.
Arguments getIsEntityDisabled : simpl never.

(* ------------------------------------------------------------------------- *)
(** ** What the kernels read but never write, and well-formed stores *)

Section Shape.
Context {D : Type}.

(** The inputs of a step: everything no kernel assigns to. *)
Definition inputs (s : System D) :=
  let rb := mRigidBodyComponents s in
  let bs := mBallAndSocketJointComponents s in
  (mJointComponents s, mTransformComponents s, mTimeStep s, mIsWarmStartingActive s,
   (rb_mMapEntityToComponentIndex rb, rb_mDisabledStartIndex rb, mBodyTypes rb,
    mInverseMasses rb, mInverseInertiaTensorsLocal rb, mInverseInertiaTensorsWorld rb,
    mCentersOfMassWorld rb, mLinearLockAxisFactors rb, mAngularLockAxisFactors rb),
   (bs_mDisabledStartIndex bs, mJointEntities bs,
    mLocalAnchorPointBody1 bs, mLocalAnchorPointBody2 bs)).

(** The sizes of the columns the kernels assign to. *)
Definition rb_sizes (rb : RigidBodyComponents D) : list nat :=
  [length (mConstrainedLinearVelocities rb); length (mConstrainedAngularVelocities rb);
   length (mConstrainedPositions rb); length (mConstrainedOrientations rb)].
Definition bs_sizes (bs : BallAndSocketJointComponents D) : list nat :=
  [length (mR1World bs); length (mR2World bs); length (mI1 bs); length (mI2 bs);
   length (mBiasVector bs); length (mInverseMassMatrix bs); length (mImpulse bs)].

(** [frame s s']: [s'] differs from [s] at most in the contents of the
    assignable columns. *)
Definition frame (s s' : System D) : Prop :=
  inputs s' = inputs s
  ∧ rb_sizes (mRigidBodyComponents s') = rb_sizes (mRigidBodyComponents s)
  ∧ bs_sizes (mBallAndSocketJointComponents s') = bs_sizes (mBallAndSocketJointComponents s).

(** Row [i] of the ball-and-socket family resolves to a joint row and two
    enabled body rows with a transform each. *)
Definition joint_ok (s : System D) (i : nat) : Prop :=
  ∃ jointIndex body1Entity body2Entity c1 c2,
    jointIndexOf s i = Some jointIndex
    ∧ bodiesOf s jointIndex = Some (body1Entity, body2Entity, c1, c2)
    ∧ c1 < rb_mDisabledStartIndex (mRigidBodyComponents s)
    ∧ c2 < rb_mDisabledStartIndex (mRigidBodyComponents s)
    ∧ is_Some (getTransform (mTransformComponents s) body1Entity)
    ∧ is_Some (getTransform (mTransformComponents s) body2Entity)
    ∧ is_Some (mPositionCorrectionTechniques (mJointComponents s) !! jointIndex).

(** The store invariant of the spec (section 4.1): the enabled rows of a
    family exist in each of its columns, and every enabled joint refers to
    enabled bodies. *)
Definition wf_system (s : System D) : Prop :=
  let rb := mRigidBodyComponents s in
  let bs := mBallAndSocketJointComponents s in
  Forall (λ n, rb_mDisabledStartIndex rb ≤ n)
    ([length (mBodyTypes rb); length (mInverseMasses rb);
      length (mInverseInertiaTensorsLocal rb); length (mInverseInertiaTensorsWorld rb);
      length (mCentersOfMassWorld rb); length (mLinearLockAxisFactors rb);
      length (mAngularLockAxisFactors rb)] ++ rb_sizes rb)
  ∧ Forall (λ n, bs_mDisabledStartIndex bs ≤ n)
      ([length (mLocalAnchorPointBody1 bs); length (mLocalAnchorPointBody2 bs)]
         ++ bs_sizes bs)
  ∧ ∀ i, i < bs_mDisabledStartIndex bs → joint_ok s i.
End Shape.

(* ------------------------------------------------------------------------- *)
(** ** The pre-solver as the specification words it (section 4.2)

    [viewJoint] gathers what steps 1-3, 5 and 7 read for joint row [i];
    the [spec_*] functions are steps 3-8 as formulas.  [initBeforeSolve] is
    compared with them below. *)

Record JointView (D : Type) : Type := mkJointView {
  jv_jointIndex : nat;
  jv_body1 : N;  jv_body2 : N;
  jv_c1 : nat;  jv_c2 : nat;
  jv_type1 : BodyType;  jv_type2 : BodyType;
  jv_invMass1 : D;  jv_invMass2 : D;
  jv_I1 : Matrix3x3 D;  jv_I2 : Matrix3x3 D;
  jv_q1 : Quaternion D;  jv_q2 : Quaternion D;
  jv_x1 : Vector3 D;  jv_x2 : Vector3 D;
  jv_anchor1 : Vector3 D;  jv_anchor2 : Vector3 D;
  jv_technique : JointsPositionCorrectionTechnique;
}.
Arguments mkJointView {D} _ _ _ _ _ _ _ _ _ _ _ _ _ _ _ _ _ _.
Arguments jv_jointIndex {D} _.
Arguments jv_body1 {D} _.
Arguments jv_body2 {D} _.
Arguments jv_c1 {D} _.
Arguments jv_c2 {D} _.
Arguments jv_type1 {D} _.
Arguments jv_type2 {D} _.
Arguments jv_invMass1 {D} _.
Arguments jv_invMass2 {D} _.
Arguments jv_I1 {D} _.
Arguments jv_I2 {D} _.
Arguments jv_q1 {D} _.
Arguments jv_q2 {D} _.
Arguments jv_x1 {D} _.
Arguments jv_x2 {D} _.
Arguments jv_anchor1 {D} _.
Arguments jv_anchor2 {D} _.
Arguments jv_technique {D} _.

Section PreSolverSpec.
Context {D : Type} `{Decimal D}.
Local Open Scope dec_scope.

Definition viewJoint (s : System D) (i : nat) : option (JointView D) :=
  let rb := mRigidBodyComponents s in
  let bs := mBallAndSocketJointComponents s in
  jointIndex ← jointIndexOf s i;
  '(body1, body2, c1, c2) ← bodiesOf s jointIndex;
  type1 ← mBodyTypes rb !! c1;
  type2 ← mBodyTypes rb !! c2;
  invMass1 ← mInverseMasses rb !! c1;
  invMass2 ← mInverseMasses rb !! c2;
  I1 ← mInverseInertiaTensorsWorld rb !! c1;
  I2 ← mInverseInertiaTensorsWorld rb !! c2;
  t1 ← getTransform (mTransformComponents s) body1;
  t2 ← getTransform (mTransformComponents s) body2;
  x1 ← mCentersOfMassWorld rb !! c1;
  x2 ← mCentersOfMassWorld rb !! c2;
  anchor1 ← mLocalAnchorPointBody1 bs !! i;
  anchor2 ← mLocalAnchorPointBody2 bs !! i;
  technique ← mPositionCorrectionTechniques (mJointComponents s) !! jointIndex;
  Some (mkJointView jointIndex body1 body2 c1 c2 type1 type2 invMass1 invMass2
          I1 I2 (mOrientation t1) (mOrientation t2) x1 x2 anchor1 anchor2 technique).

(** Step 3: [r1World = q1 · localAnchorPointBody1]. *)
Definition spec_r1World (v : JointView D) : Vector3 D := q_rotate (jv_q1 v) (jv_anchor1 v).
Definition spec_r2World (v : JointView D) : Vector3 D := q_rotate (jv_q2 v) (jv_anchor2 v).

(** Steps 4-5: [K = diag(m⁻¹, m⁻¹, m⁻¹) + Û1·I1·Û1ᵀ + Û2·I2·Û2ᵀ]. *)
Definition effectiveMass (invMass1 invMass2 : D) (I1 I2 : Matrix3x3 D)
    (r1World r2World : Vector3 D) : Matrix3x3 D :=
  let m := invMass1 + invMass2 in
  let U1 := computeSkewSymmetricMatrixForCrossProduct r1World in
  let U2 := computeSkewSymmetricMatrixForCrossProduct r2World in
  m3_add (m3_add (Matrix3x3_of m dec_0 dec_0 dec_0 m dec_0 dec_0 dec_0 m)
                 (m3_mul (m3_mul U1 I1) (getTranspose U1)))
         (m3_mul (m3_mul U2 I2) (getTranspose U2)).
Definition spec_K (v : JointView D) : Matrix3x3 D :=
  effectiveMass (jv_invMass1 v) (jv_invMass2 v) (jv_I1 v) (jv_I2 v)
                (spec_r1World v) (spec_r2World v).

(** Step 6: [|det K| > ε_machine] and at least one body DYNAMIC. *)
Definition spec_guard (v : JointView D) : bool :=
  (dabs (getDeterminant (spec_K v)) >? MACHINE_EPSILON)
  && bool_decide (jv_type1 v = DYNAMIC ∨ jv_type2 v = DYNAMIC).
Definition spec_inverseMassMatrix (v : JointView D) : Matrix3x3 D :=
  if spec_guard v then getInverse (spec_K v) (getDeterminant (spec_K v))
  else Matrix3x3_zero.

(** Step 7: the Baumgarte bias [(β/dt) · (x2 + r2World − x1 − r1World)]. *)
Definition spec_biasVector (dt : D) (v : JointView D) : Vector3 D :=
  if decide (jv_technique v = BAUMGARTE_JOINTS)
  then v3_scale (BETA / dt)
         (v3_sub (v3_sub (v3_add (jv_x2 v) (spec_r2World v)) (jv_x1 v)) (spec_r1World v))
  else Vector3_zero.

(** Steps 2-8 on the columns of the joint family. *)
Definition spec_presolve_row (i : nat) (s : System D) (v : JointView D)
    (bs : BallAndSocketJointComponents D) : BallAndSocketJointComponents D :=
  with_mImpulse
    (if mIsWarmStartingActive s then mImpulse bs else <[i := Vector3_zero]> (mImpulse bs))
    (with_mBiasVector (<[i := spec_biasVector (mTimeStep s) v]> (mBiasVector bs))
       (with_mInverseMassMatrix (<[i := spec_inverseMassMatrix v]> (mInverseMassMatrix bs))
          (with_mR2World (<[i := spec_r2World v]> (mR2World bs))
             (with_mR1World (<[i := spec_r1World v]> (mR1World bs))
                (with_mI2 (<[i := jv_I2 v]> (mI2 bs))
                   (with_mI1 (<[i := jv_I1 v]> (mI1 bs)) bs)))))).

(** The seven derived fields of joint row [i]. *)
Definition joint_fields (s : System D) (i : nat) :=
  let bs := mBallAndSocketJointComponents s in
  (mR1World bs !! i, mR2World bs !! i, mI1 bs !! i, mI2 bs !! i,
   mInverseMassMatrix bs !! i, mBiasVector bs !! i, mImpulse bs !! i).

(** What the specification says the seven fields of a row are after the
    pre-solver, given the impulse [old] the row held before. *)
Definition spec_fields (s : System D) (v : JointView D) (old : option (Vector3 D)) :=
  (Some (spec_r1World v), Some (spec_r2World v), Some (jv_I1 v), Some (jv_I2 v),
   Some (spec_inverseMassMatrix v), Some (spec_biasVector (mTimeStep s) v),
   if mIsWarmStartingActive s then old else Some Vector3_zero).
End PreSolverSpec.

Arguments spec_r1World : simpl never.
Arguments spec_r2World : simpl never.
Arguments effectiveMass : simpl never.
Arguments spec_K : simpl never.
Arguments spec_guard : simpl never.
Arguments spec_inverseMassMatrix : simpl never.
Arguments spec_biasVector : simpl never.
Arguments viewJoint : simpl never.

(* ------------------------------------------------------------------------- *)
(** ** The velocity solver as the specification words it (sections 4.3, 4.4) *)

Record VelocityRow (D : Type) : Type := mkVelocityRow {
  vr_c1 : nat;  vr_c2 : nat;
  vr_v1 : Vector3 D;  vr_v2 : Vector3 D;
  vr_w1 : Vector3 D;  vr_w2 : Vector3 D;
  vr_I1 : Matrix3x3 D;  vr_I2 : Matrix3x3 D;
  vr_r1World : Vector3 D;  vr_r2World : Vector3 D;
  vr_inverseMassMatrix : Matrix3x3 D;
  vr_biasVector : Vector3 D;
  vr_impulse : Vector3 D;
  vr_invMass1 : D;  vr_linLock1 : Vector3 D;  vr_angLock1 : Vector3 D;
  vr_invMass2 : D;  vr_linLock2 : Vector3 D;  vr_angLock2 : Vector3 D;
}.
Arguments mkVelocityRow {D} _ _ _ _ _ _ _ _ _ _ _ _ _ _ _ _ _ _ _.
Arguments vr_c1 {D} _.
Arguments vr_c2 {D} _.
Arguments vr_v1 {D} _.
Arguments vr_v2 {D} _.
Arguments vr_w1 {D} _.
Arguments vr_w2 {D} _.
Arguments vr_I1 {D} _.
Arguments vr_I2 {D} _.
Arguments vr_r1World {D} _.
Arguments vr_r2World {D} _.
Arguments vr_inverseMassMatrix {D} _.
Arguments vr_biasVector {D} _.
Arguments vr_impulse {D} _.
Arguments vr_invMass1 {D} _.
Arguments vr_linLock1 {D} _.
Arguments vr_angLock1 {D} _.
Arguments vr_invMass2 {D} _.
Arguments vr_linLock2 {D} _.
Arguments vr_angLock2 {D} _.

Section VelocitySpec.
Context {D : Type} `{Decimal D}.
Local Open Scope dec_scope.

(** Everything one velocity update of joint row [i] depends on. *)
Definition readVelocityRow (s : System D) (i : nat) : option (VelocityRow D) :=
  let rb := mRigidBodyComponents s in
  let bs := mBallAndSocketJointComponents s in
  jointIndex ← jointIndexOf s i;
  '(_, _, c1, c2) ← bodiesOf s jointIndex;
  v1 ← mConstrainedLinearVelocities rb !! c1;
  v2 ← mConstrainedLinearVelocities rb !! c2;
  w1 ← mConstrainedAngularVelocities rb !! c1;
  w2 ← mConstrainedAngularVelocities rb !! c2;
  I1 ← mI1 bs !! i;
  I2 ← mI2 bs !! i;
  r1World ← mR1World bs !! i;
  r2World ← mR2World bs !! i;
  inverseMassMatrix ← mInverseMassMatrix bs !! i;
  biasVector ← mBiasVector bs !! i;
  impulse ← mImpulse bs !! i;
  invMass1 ← mInverseMasses rb !! c1;
  linLock1 ← mLinearLockAxisFactors rb !! c1;
  angLock1 ← mAngularLockAxisFactors rb !! c1;
  invMass2 ← mInverseMasses rb !! c2;
  linLock2 ← mLinearLockAxisFactors rb !! c2;
  angLock2 ← mAngularLockAxisFactors rb !! c2;
  Some (mkVelocityRow c1 c2 v1 v2 w1 w2 I1 I2 r1World r2World inverseMassMatrix
          biasVector impulse invMass1 linLock1 angLock1 invMass2 linLock2 angLock2).

(** 4.4 step 1: [Jv = v2 + w2 × r2World − v1 − w1 × r1World]. *)
Definition spec_Jv (r : VelocityRow D) : Vector3 D :=
  v3_sub (v3_sub (v3_add (vr_v2 r) (cross (vr_w2 r) (vr_r2World r))) (vr_v1 r))
         (cross (vr_w1 r) (vr_r1World r)).

(** 4.4 step 2: [Δλ = inverseMassMatrix · (−Jv − biasVector)]. *)
Definition spec_deltaLambda (r : VelocityRow D) : Vector3 D :=
  m3_mulv (vr_inverseMassMatrix r) (v3_sub (v3_neg (spec_Jv r)) (vr_biasVector r)).

(** 4.3: the four velocity increments an impulse [P] at the anchor causes. *)
Definition spec_dv1 (r : VelocityRow D) (P : Vector3 D) : Vector3 D :=
  v3_mul (v3_scale (vr_invMass1 r) (vr_linLock1 r)) (v3_neg P).
Definition spec_dw1 (r : VelocityRow D) (P : Vector3 D) : Vector3 D :=
  v3_mul (vr_angLock1 r) (m3_mulv (vr_I1 r) (cross P (vr_r1World r))).
Definition spec_dv2 (r : VelocityRow D) (P : Vector3 D) : Vector3 D :=
  v3_mul (v3_scale (vr_invMass2 r) (vr_linLock2 r)) P.
Definition spec_dw2 (r : VelocityRow D) (P : Vector3 D) : Vector3 D :=
  v3_mul (vr_angLock2 r) (m3_mulv (vr_I2 r) (v3_neg (cross P (vr_r2World r)))).

(** [col[c] += d], leaving a column without row [c] alone. *)
Definition bump (col : list (Vector3 D)) (c : nat) (d : Vector3 D) : list (Vector3 D) :=
  match col !! c with
  | Some v => <[c := v3_add v d]> col
  | None => col
  end.

(** 4.3: body 1 first, then body 2, on the two velocity columns. *)
Definition spec_applyImpulse (r : VelocityRow D) (P : Vector3 D)
    (rb : RigidBodyComponents D) : RigidBodyComponents D :=
  with_mConstrainedAngularVelocities
    (bump (bump (mConstrainedAngularVelocities rb) (vr_c1 r) (spec_dw1 r P))
          (vr_c2 r) (spec_dw2 r P))
    (with_mConstrainedLinearVelocities
       (bump (bump (mConstrainedLinearVelocities rb) (vr_c1 r) (spec_dv1 r P))
             (vr_c2 r) (spec_dv2 r P))
       rb).

(** 4.4 steps 3-4: accumulate [Δλ], with no clamping, and apply it. *)
Definition spec_velocityUpdate (i : nat) (r : VelocityRow D) (s : System D) : System D :=
  let bs := mBallAndSocketJointComponents s in
  with_bs (with_mImpulse (<[i := v3_add (vr_impulse r) (spec_deltaLambda r)]> (mImpulse bs)) bs)
          (with_rb (spec_applyImpulse r (spec_deltaLambda r) (mRigidBodyComponents s)) s).
End VelocitySpec.

Arguments spec_Jv : simpl never.
Arguments spec_deltaLambda : simpl never.
Arguments spec_dv1 : simpl never.
Arguments spec_dw1 : simpl never.
Arguments spec_dv2 : simpl never.
Arguments spec_dw2 : simpl never.
Arguments readVelocityRow : simpl never.

(* ------------------------------------------------------------------------- *)
(** ** The position solver's recomputation (section 4.5, steps 1-3) *)

Record PositionRow (D : Type) : Type := mkPositionRow {
  pr_c1 : nat;  pr_c2 : nat;
  pr_q1 : Quaternion D;  pr_q2 : Quaternion D;
  pr_local1 : Matrix3x3 D;  pr_local2 : Matrix3x3 D;
  pr_anchor1 : Vector3 D;  pr_anchor2 : Vector3 D;
  pr_invMass1 : D;  pr_invMass2 : D;
}.
Arguments mkPositionRow {D} _ _ _ _ _ _ _ _ _ _.
Arguments pr_c1 {D} _.
Arguments pr_c2 {D} _.
Arguments pr_q1 {D} _.
Arguments pr_q2 {D} _.
Arguments pr_local1 {D} _.
Arguments pr_local2 {D} _.
Arguments pr_anchor1 {D} _.
Arguments pr_anchor2 {D} _.
Arguments pr_invMass1 {D} _.
Arguments pr_invMass2 {D} _.

Section PositionSpec.
Context {D : Type} `{Decimal D}.
Local Open Scope dec_scope.

(** What steps 1-3 of section 4.5 read for joint row [i]; [None] as well
    when the joint does not use NON_LINEAR_GAUSS_SEIDEL. *)
Definition readPositionRow (s : System D) (i : nat) : option (PositionRow D) :=
  let rb := mRigidBodyComponents s in
  let bs := mBallAndSocketJointComponents s in
  jointIndex ← jointIndexOf s i;
  technique ← mPositionCorrectionTechniques (mJointComponents s) !! jointIndex;
  if decide (technique = NON_LINEAR_GAUSS_SEIDEL) then
    '(_, _, c1, c2) ← bodiesOf s jointIndex;
    q1 ← mConstrainedOrientations rb !! c1;
    q2 ← mConstrainedOrientations rb !! c2;
    local1 ← mInverseInertiaTensorsLocal rb !! c1;
    local2 ← mInverseInertiaTensorsLocal rb !! c2;
    anchor1 ← mLocalAnchorPointBody1 bs !! i;
    anchor2 ← mLocalAnchorPointBody2 bs !! i;
    invMass1 ← mInverseMasses rb !! c1;
    invMass2 ← mInverseMasses rb !! c2;
    Some (mkPositionRow c1 c2 q1 q2 local1 local2 anchor1 anchor2 invMass1 invMass2)
  else None.

(** Step 1: [I = R · I_local · Rᵀ]; step 2: [r = q · localAnchor]; step 3: K. *)
Definition pos_I1 (r : PositionRow D) : Matrix3x3 D :=
  computeWorldInertiaTensorInverse (getMatrix (pr_q1 r)) (pr_local1 r).
Definition pos_I2 (r : PositionRow D) : Matrix3x3 D :=
  computeWorldInertiaTensorInverse (getMatrix (pr_q2 r)) (pr_local2 r).
Definition pos_r1World (r : PositionRow D) : Vector3 D := q_rotate (pr_q1 r) (pr_anchor1 r).
Definition pos_r2World (r : PositionRow D) : Vector3 D := q_rotate (pr_q2 r) (pr_anchor2 r).
Definition pos_K (r : PositionRow D) : Matrix3x3 D :=
  effectiveMass (pr_invMass1 r) (pr_invMass2 r) (pos_I1 r) (pos_I2 r)
                (pos_r1World r) (pos_r2World r).
End PositionSpec.

(* ------------------------------------------------------------------------- *)
(** ** The vocabulary of the statements *)

Inductive Axis : Set := AxisX | AxisY | AxisZ.

Definition component {D : Type} (k : Axis) (v : Vector3 D) : D :=
  match k with AxisX => vx v | AxisY => vy v | AxisZ => vz v end.

(** The operations of the solver, and a schedule of them. *)
Inductive SolverOp : Set :=
  OpInitBeforeSolve | OpWarmstart | OpSolveVelocityConstraint | OpSolvePositionConstraint.

Section Vocabulary.
Context {D : Type} `{Decimal D}.

(** Both velocity columns are the same in [s] and [s']. *)
Definition same_velocities (s s' : System D) : Prop :=
  mConstrainedLinearVelocities (mRigidBodyComponents s')
  = mConstrainedLinearVelocities (mRigidBodyComponents s)
  ∧ mConstrainedAngularVelocities (mRigidBodyComponents s')
    = mConstrainedAngularVelocities (mRigidBodyComponents s).


(** One operation of the solver, and a schedule of them. *)
Definition run_op (op : SolverOp) (s : System D) : option (System D) :=
  match op with
  | OpInitBeforeSolve => initBeforeSolve s
  | OpWarmstart => warmstart s
  | OpSolveVelocityConstraint => solveVelocityConstraint s
  | OpSolvePositionConstraint => solvePositionConstraint s
  end.

Fixpoint run_ops (ops : list SolverOp) (s : System D) : option (System D) :=
  match ops with
  | [] => Some s
  | op :: ops' => s' ← run_op op s; run_ops ops' s'
  end.

End Vocabulary.

(* ------------------------------------------------------------------------- *)
(** ** Concrete stores: two bodies and one ball-and-socket joint

    The seed scenarios of the specification (section 8) are all of this
    shape: body entities [1] and [2] in rows [0] and [1], joint entity [7] in
    row [0] of both joint families, both bodies at the identity orientation. *)

Record BodyInit (D : Type) : Type := mkBodyInit {
  bi_type : BodyType;
  bi_inverseMass : D;
  bi_inverseInertia : Matrix3x3 D;
  bi_position : Vector3 D;
  bi_linearLock : Vector3 D;
  bi_angularLock : Vector3 D;
  bi_linearVelocity : Vector3 D;
  bi_angularVelocity : Vector3 D;
}.
Arguments mkBodyInit {D} _ _ _ _ _ _ _ _.
Arguments bi_type {D} _.
Arguments bi_inverseMass {D} _.
Arguments bi_inverseInertia {D} _.
Arguments bi_position {D} _.
Arguments bi_linearLock {D} _.
Arguments bi_angularLock {D} _.
Arguments bi_linearVelocity {D} _.
Arguments bi_angularVelocity {D} _.

Section Scenarios.
Context {D : Type} `{Decimal D}.
Local Open Scope dec_scope.

Definition Vector3_ones : Vector3 D := mkVector3 dec_1 dec_1 dec_1.
Definition Quaternion_identity : Quaternion D := mkQuaternion dec_0 dec_0 dec_0 dec_1.

Definition staticBody (position : Vector3 D) : BodyInit D :=
  mkBodyInit STATIC dec_0 Matrix3x3_zero position Vector3_ones Vector3_ones
             Vector3_zero Vector3_zero.
(** A body of mass 1 and unit inertia. *)
Definition dynamicBody (position linearLock linearVelocity : Vector3 D) : BodyInit D :=
  mkBodyInit DYNAMIC dec_1 Matrix3x3_identity position linearLock Vector3_ones
             linearVelocity Vector3_zero.

Definition twoBodies (b1 b2 : BodyInit D) (anchor1 anchor2 : Vector3 D)
    (technique : JointsPositionCorrectionTechnique) (warmStart : bool)
    (impulse : Vector3 D) (inverseMassMatrix : Matrix3x3 D) : System D :=
  mkSystem
    (mkRigidBodyComponents {[ 1%N := 0; 2%N := 1 ]} 2
       [bi_type b1; bi_type b2]
       [bi_inverseMass b1; bi_inverseMass b2]
       [bi_inverseInertia b1; bi_inverseInertia b2]
       [bi_inverseInertia b1; bi_inverseInertia b2]
       [bi_position b1; bi_position b2]
       [bi_linearLock b1; bi_linearLock b2]
       [bi_angularLock b1; bi_angularLock b2]
       [bi_linearVelocity b1; bi_linearVelocity b2]
       [bi_angularVelocity b1; bi_angularVelocity b2]
       [bi_position b1; bi_position b2]
       [Quaternion_identity; Quaternion_identity])
    (mkTransformComponents {[ 1%N := 0; 2%N := 1 ]}
       [mkTransform (bi_position b1) Quaternion_identity;
        mkTransform (bi_position b2) Quaternion_identity])
    (mkJointComponents {[ 7%N := 0 ]} [1%N] [2%N] [technique])
    (mkBallAndSocketJointComponents 1 [7%N] [anchor1] [anchor2]
       [Vector3_zero] [Vector3_zero] [Matrix3x3_zero] [Matrix3x3_zero]
       [Vector3_zero] [inverseMassMatrix] [impulse])
    (dec_1 / (dec_2 * dec_2 * dec_2 * dec_2))
    warmStart.

(** Scenarios 1 and 2: a static body at the origin, a dynamic body of mass 1
    hanging at (0,-1,0) with linear velocity [v2], anchors at the origin. *)
Definition pendulum (technique : JointsPositionCorrectionTechnique)
    (linearLock2 v2 : Vector3 D) : System D :=
  twoBodies (staticBody Vector3_zero)
            (dynamicBody (mkVector3 dec_0 (- dec_1) dec_0) linearLock2 v2)
            Vector3_zero (mkVector3 dec_0 dec_1 dec_0)
            technique true Vector3_zero Matrix3x3_zero.

(** Scenario 3: both bodies STATIC, anchors one unit apart. *)
Definition staticPair (technique : JointsPositionCorrectionTechnique) : System D :=
  twoBodies (staticBody Vector3_zero) (staticBody (mkVector3 dec_0 (- dec_1) dec_0))
            (mkVector3 dec_1 dec_0 dec_0) Vector3_zero
            technique true Vector3_zero Matrix3x3_zero.

(** Scenario 2 with the anchor of body 2 half a unit off, so that the
    position solver has an error to remove. *)
Definition stretchedPendulum (linearLock2 v2 : Vector3 D) : System D :=
  twoBodies (staticBody Vector3_zero)
            (dynamicBody (mkVector3 dec_0 (dneg dec_1) dec_0) linearLock2 v2)
            Vector3_zero (mkVector3 dec_0 dec_0_5 dec_0)
            NON_LINEAR_GAUSS_SEIDEL true Vector3_zero Matrix3x3_zero.
End Scenarios.

(* ------------------------------------------------------------------------- *)
(** ** The legacy [ConstraintSolver] ([src/engine/ConstraintSolver.h])

    Only the inline methods of the header are in [src/]: the members they
    touch are modelled, the matrices of the LCP problem ([J_sp], [B_sp], [b],
    [lambda], ...) that the out-of-line methods fill are left out.  A
    [Body*] or [Constraint*] is an address. *)

Module ConstraintSolver.

Record t (D : Type) : Type := mk {
  activeConstraints : list positive;      (* std::vector<Constraint*> *)
  nbIterationsLCP : N;                    (* uint *)
  penetrationFactor : D;                  (* double *)
  constraintBodies : gset positive;       (* std::set<Body*> *)
  bodyNumberMapping : gmap positive N;    (* std::map<Body*, uint> *)
  Vconstraint : list D;                   (* double[6*NB_MAX_BODIES] *)
}.
Arguments mk {D} _ _ _ _ _ _.
Arguments activeConstraints {D} _.
Arguments nbIterationsLCP {D} _.
Arguments penetrationFactor {D} _.
Arguments constraintBodies {D} _.
Arguments bodyNumberMapping {D} _.
Arguments Vconstraint {D} _.

Section Methods.
Context {D : Type}.

(** [constraintBodies.find(body) != constraintBodies.end()] *)
Definition isConstrainedBody (s : t D) (body : positive) : bool :=
  if decide (body ∈ constraintBodies s) then true else false.

(** [bodyNumberMapping[body]]: [std::map::operator[]] inserts a
    value-initialized entry for a key that is absent. *)
Definition bodyNumberMapping_at (s : t D) (body : positive) : N * t D :=
  match bodyNumberMapping s !! body with
  | Some n => (n, s)
  | None =>
      (0%N, mk (activeConstraints s) (nbIterationsLCP s) (penetrationFactor s)
               (constraintBodies s) (<[body := 0%N]> (bodyNumberMapping s))
               (Vconstraint s))
  end.

(** The value of an expression of type [uint] (32 bits): unsigned
    arithmetic wraps around. *)
Definition uint (k : N) : N := (k mod 2 ^ 32)%N.

(** The cells [indexBodyArray + offset], [+ offset + 1] and [+ offset + 2]
    of [Vconstraint], for [uint indexBodyArray = 6 * bodyNumberMapping[body]];
    the product and each subscript are computed in [uint], with wrap-around.
    [None] when the [assert] fails or a subscript is outside the array. *)
Definition constrainedVelocityAt (offset : N) (s : t D) (body : positive)
    : option (Vector3 D * t D) :=
  if isConstrainedBody s body then
    let '(n, s') := bodyNumberMapping_at s body in
    let indexBodyArray := uint (6 * n) in
    a ← Vconstraint s' !! N.to_nat (uint (indexBodyArray + offset));
    b ← Vconstraint s' !! N.to_nat (uint (indexBodyArray + (offset + 1)));
    c ← Vconstraint s' !! N.to_nat (uint (indexBodyArray + (offset + 2)));
    Some (mkVector3 a b c, s')
  else None.

Definition getConstrainedLinearVelocityOfBody (s : t D) (body : positive)
    : option (Vector3 D * t D) :=
  constrainedVelocityAt 0 s body.

Definition getConstrainedAngularVelocityOfBody (s : t D) (body : positive)
    : option (Vector3 D * t D) :=
  constrainedVelocityAt 3 s body.

Definition cleanup (s : t D) : t D :=
  mk [] (nbIterationsLCP s) (penetrationFactor s) ∅ ∅ (Vconstraint s).

Definition setPenetrationFactor (factor : D) (s : t D) : t D :=
  mk (activeConstraints s) (nbIterationsLCP s) factor
     (constraintBodies s) (bodyNumberMapping s) (Vconstraint s).

Definition setNbLCPIterations (nbIterations : N) (s : t D) : t D :=
  mk (activeConstraints s) nbIterations (penetrationFactor s)
     (constraintBodies s) (bodyNumberMapping s) (Vconstraint s).

(** The calls a client can make on a solver without re-initializing it
    ([solve], which calls the out-of-line [initialize], is the one that
    does). *)
Inductive Call : Type :=
  | CallCleanup
  | CallSetPenetrationFactor (factor : D)
  | CallSetNbLCPIterations (nbIterations : N)
  | CallIsConstrainedBody (body : positive)
  | CallGetConstrainedLinearVelocityOfBody (body : positive)
  | CallGetConstrainedAngularVelocityOfBody (body : positive).

(** The solver after a call; a failed [assert] aborts ([None]). *)
Definition call (c : Call) (s : t D) : option (t D) :=
  match c with
  | CallCleanup => Some (cleanup s)
  | CallSetPenetrationFactor factor => Some (setPenetrationFactor factor s)
  | CallSetNbLCPIterations n => Some (setNbLCPIterations n s)
  | CallIsConstrainedBody _ => Some s
  | CallGetConstrainedLinearVelocityOfBody body =>
      snd <$> getConstrainedLinearVelocityOfBody s body
  | CallGetConstrainedAngularVelocityOfBody body =>
      snd <$> getConstrainedAngularVelocityOfBody s body
  end.

Fixpoint calls (cs : list Call) (s : t D) : option (t D) :=
  match cs with
  | [] => Some s
  | c :: cs' => s' ← call c s; calls cs' s'
  end.
End Methods.

End ConstraintSolver.

(* ------------------------------------------------------------------------- *)
(** ** Further vocabulary: the constructor, attachment, what a pass keeps *)

Section FurtherVocabulary.
Context {D : Type} `{Decimal D}.

(** The constructor, lines 37-45: the four component families are taken by
    reference, [mTimeStep(0)], [mIsWarmStartingActive(true)]. *)
Definition SolveBallAndSocketJointSystem_new (rigidBodyComponents : RigidBodyComponents D)
    (transformComponents : TransformComponents D) (jointComponents : JointComponents)
    (ballAndSocketJointComponents : BallAndSocketJointComponents D) : System D :=
  mkSystem rigidBodyComponents transformComponents jointComponents
           ballAndSocketJointComponents dec_0 true.

(** Body row [b] is an end of an enabled joint. *)
Definition attached (s : System D) (b : nat) : Prop :=
  ∃ i jointIndex body1Entity body2Entity c1 c2,
    i < getNbEnabledComponents (mBallAndSocketJointComponents s)
    ∧ jointIndexOf s i = Some jointIndex
    ∧ bodiesOf s jointIndex = Some (body1Entity, body2Entity, c1, c2)
    ∧ (b = c1 ∨ b = c2).

(** The ends of joint row [i] are not body row [b]. *)
Definition not_an_end (s : System D) (i b : nat) : Prop :=
  ∀ jointIndex body1 body2 c1 c2,
    jointIndexOf s i = Some jointIndex →
    bodiesOf s jointIndex = Some (body1, body2, c1, c2) →
    b ≠ c1 ∧ b ≠ c2.

(** The four cells of body row [b] that the kernels assign to. *)
Definition body_cells (s : System D) (b : nat) :=
  let rb := mRigidBodyComponents s in
  (mConstrainedLinearVelocities rb !! b, mConstrainedAngularVelocities rb !! b,
   mConstrainedPositions rb !! b, mConstrainedOrientations rb !! b).

(** Constrained positions and orientations are the same in [s] and [s']. *)
Definition same_poses (s s' : System D) : Prop :=
  mConstrainedPositions (mRigidBodyComponents s')
  = mConstrainedPositions (mRigidBodyComponents s)
  ∧ mConstrainedOrientations (mRigidBodyComponents s')
    = mConstrainedOrientations (mRigidBodyComponents s).

(** The six cached columns the pre-solver derives, the impulse apart. *)
Definition joint_geometry (s : System D) :=
  let bs := mBallAndSocketJointComponents s in
  (mR1World bs, mR2World bs, mI1 bs, mI2 bs, mInverseMassMatrix bs, mBiasVector bs).

(** What a velocity pass keeps: poses, the cached geometry, and the
    impulses of the rows from [n] on. *)
Definition velocity_pass_keeps (n : nat) (s s' : System D) : Prop :=
  same_poses s s'
  ∧ joint_geometry s' = joint_geometry s
  ∧ ∀ j, n ≤ j →
      mImpulse (mBallAndSocketJointComponents s') !! j
      = mImpulse (mBallAndSocketJointComponents s) !! j.

(** What a position pass keeps besides the velocities: impulses and biases. *)
Definition position_pass_keeps (s s' : System D) : Prop :=
  mImpulse (mBallAndSocketJointComponents s') = mImpulse (mBallAndSocketJointComponents s)
  ∧ mBiasVector (mBallAndSocketJointComponents s')
    = mBiasVector (mBallAndSocketJointComponents s).

(** The row [readVelocityRow] reads once the four velocities and the
    impulse have been replaced. *)
Definition vr_with (r : VelocityRow D) (v1 v2 w1 w2 impulse : Vector3 D) : VelocityRow D :=
  mkVelocityRow (vr_c1 r) (vr_c2 r) v1 v2 w1 w2 (vr_I1 r) (vr_I2 r)
    (vr_r1World r) (vr_r2World r) (vr_inverseMassMatrix r) (vr_biasVector r) impulse
    (vr_invMass1 r) (vr_linLock1 r) (vr_angLock1 r)
    (vr_invMass2 r) (vr_linLock2 r) (vr_angLock2 r).

(** Every enabled joint skips the position solver: its correction
    technique is not NON_LINEAR_GAUSS_SEIDEL. *)
Definition no_position_correction (s : System D) : Prop :=
  ∀ i, i < getNbEnabledComponents (mBallAndSocketJointComponents s) →
    ∃ jointIndex technique,
      jointIndexOf s i = Some jointIndex
      ∧ mPositionCorrectionTechniques (mJointComponents s) !! jointIndex = Some technique
      ∧ technique ≠ NON_LINEAR_GAUSS_SEIDEL.

(** The store with the enabled part of the rigid-body family cut at [n]:
    the bodies in rows [n] and beyond are disabled (asleep). *)
Definition disableBodiesFrom (n : nat) (s : System D) : System D :=
  let rb := mRigidBodyComponents s in
  with_rb
    (mkRigidBodyComponents (rb_mMapEntityToComponentIndex rb) n
       (mBodyTypes rb) (mInverseMasses rb) (mInverseInertiaTensorsLocal rb)
       (mInverseInertiaTensorsWorld rb) (mCentersOfMassWorld rb)
       (mLinearLockAxisFactors rb) (mAngularLockAxisFactors rb)
       (mConstrainedLinearVelocities rb) (mConstrainedAngularVelocities rb)
       (mConstrainedPositions rb) (mConstrainedOrientations rb))
    s.

(** The pendulum of scenario 2 in the middle of a step: the hanging body
    moves at [v2], the joint row holds an accumulated [impulse] and the
    [inverseMassMatrix] given; the cached lever arms and inertia tensors are
    zero, so that the effective mass of the row is the identity. *)
Definition warmPendulum (v2 impulse : Vector3 D) (inverseMassMatrix : Matrix3x3 D)
    : System D :=
  twoBodies (staticBody Vector3_zero)
            (dynamicBody (mkVector3 dec_0 (dneg dec_1) dec_0) Vector3_ones v2)
            Vector3_zero (mkVector3 dec_0 dec_1 dec_0)
            BAUMGARTE_JOINTS true impulse inverseMassMatrix.

(** The store in which every joint has its first body at both ends. *)
Definition joinToItself (s : System D) : System D :=
  let jc := mJointComponents s in
  mkSystem (mRigidBodyComponents s) (mTransformComponents s)
    (mkJointComponents (jc_mMapEntityToComponentIndex jc) (mBody1Entities jc)
       (mBody1Entities jc) (mPositionCorrectionTechniques jc))
    (mBallAndSocketJointComponents s) (mTimeStep s) (mIsWarmStartingActive s).

(** The store with one more enabled body, of entity [e], in a new last row
    of the rigid-body and transform families (the families are assumed to
    hold enabled rows only, as those of [twoBodies] do). *)
Definition addBody (e : Entity) (b : BodyInit D) (s : System D) : System D :=
  let rb := mRigidBodyComponents s in
  let tc := mTransformComponents s in
  mkSystem
    (mkRigidBodyComponents
       (<[e := length (mBodyTypes rb)]> (rb_mMapEntityToComponentIndex rb))
       (S (rb_mDisabledStartIndex rb))
       (mBodyTypes rb ++ [bi_type b])
       (mInverseMasses rb ++ [bi_inverseMass b])
       (mInverseInertiaTensorsLocal rb ++ [bi_inverseInertia b])
       (mInverseInertiaTensorsWorld rb ++ [bi_inverseInertia b])
       (mCentersOfMassWorld rb ++ [bi_position b])
       (mLinearLockAxisFactors rb ++ [bi_linearLock b])
       (mAngularLockAxisFactors rb ++ [bi_angularLock b])
       (mConstrainedLinearVelocities rb ++ [bi_linearVelocity b])
       (mConstrainedAngularVelocities rb ++ [bi_angularVelocity b])
       (mConstrainedPositions rb ++ [bi_position b])
       (mConstrainedOrientations rb ++ [Quaternion_identity]))
    (mkTransformComponents
       (<[e := length (mTransforms tc)]> (tc_mMapEntityToComponentIndex tc))
       (mTransforms tc ++ [mkTransform (bi_position b) Quaternion_identity]))
    (mJointComponents s) (mBallAndSocketJointComponents s)
    (mTimeStep s) (mIsWarmStartingActive s).
End FurtherVocabulary.

(* ------------------------------------------------------------------------- *)
(** ** Further vocabulary of the legacy [ConstraintSolver] *)

Section SolverVocabulary.
Context {D : Type}.
Import ConstraintSolver.

(** The penetration factor a solver holding [factor] ends with after the
    calls [cs]: the argument of the last [setPenetrationFactor], if any. *)
Fixpoint finalPenetrationFactor (cs : list (Call (D := D))) (factor : D) : D :=
  match cs with
  | [] => factor
  | CallSetPenetrationFactor factor' :: cs' => finalPenetrationFactor cs' factor'
  | _ :: cs' => finalPenetrationFactor cs' factor
  end.

(** Likewise for the number of LCP iterations. *)
Fixpoint finalNbLCPIterations (cs : list (Call (D := D))) (nbIterations : N) : N :=
  match cs with
  | [] => nbIterations
  | CallSetNbLCPIterations nbIterations' :: cs' => finalNbLCPIterations cs' nbIterations'
  | _ :: cs' => finalNbLCPIterations cs' nbIterations
  end.

(** The solver after [bodyNumberMapping[body]] on a body without number. *)
Definition withBodyNumberZero (body : positive) (s : t D) : t D :=
  mk (activeConstraints s) (nbIterationsLCP s) (penetrationFactor s)
     (constraintBodies s) (<[body := 0%N]> (bodyNumberMapping s)) (Vconstraint s).
End SolverVocabulary.

(* ------------------------------------------------------------------------- *)
(** ** IEEE binary64: zeros, finite numbers, equality up to the sign of a zero

    The statements that depend on the arithmetic are made for the [double]
    build, on [float_decimal].  There [0 · x] is a zero only for a finite
    [x] (it is NaN for an infinity or NaN), and [x + 0] is [x] except that
    [-0 + +0] is [+0]: a cell the solver adds a zero to keeps its value, but
    a zero in it may change sign. *)

(** [+0] or [-0]. *)
Definition fzero (x : float) : bool :=
  match Prim2SF x with S754_zero _ => true | _ => false end.

(** Neither an infinity nor NaN. *)
Definition ffinite (x : float) : bool :=
  match Prim2SF x with S754_zero _ | S754_finite _ _ _ => true | _ => false end.

(** The same double, or two zeros. *)
Definition same_number (x y : float) : Prop :=
  x = y ∨ (fzero x = true ∧ fzero y = true).

(** [x · y = 1] in exact arithmetic: a finite double is [± m · 2^e]. *)
Definition exact_inverses (x y : float) : bool :=
  match Prim2SF x, Prim2SF y with
  | S754_finite sx mx ex, S754_finite sy my ey =>
      Bool.eqb sx sy && (ex + ey <=? 0)%Z && (Z.pos (mx * my) =? 2 ^ (- (ex + ey)))%Z
  | _, _ => false
  end.

Definition v3_all (p : float → bool) (v : Vector3 float) : bool :=
  p (vx v) && p (vy v) && p (vz v).
Definition m3_all (p : float → bool) (m : Matrix3x3 float) : bool :=
  v3_all p (row0 m) && v3_all p (row1 m) && v3_all p (row2 m).

Definition v3_same (a b : Vector3 float) : Prop :=
  same_number (vx a) (vx b) ∧ same_number (vy a) (vy b) ∧ same_number (vz a) (vz b).

(** Two columns of vectors that differ in the sign of zeros at most. *)
Definition col_same (col col' : list (Vector3 float)) : Prop := Forall2 v3_same col col'.

Section Doubles.
#[local] Existing Instance float_decimal.

(** [s'] is [s] but for the sign of zeros in the accumulated impulses and in
    the two velocity columns: putting these three columns of [s] back into
    [s'] gives [s]. *)
Definition same_up_to_zero_signs (s s' : System float) : Prop :=
  let rb := mRigidBodyComponents s in
  let rb' := mRigidBodyComponents s' in
  let bs := mBallAndSocketJointComponents s in
  let bs' := mBallAndSocketJointComponents s' in
  col_same (mImpulse bs) (mImpulse bs')
  ∧ col_same (mConstrainedLinearVelocities rb) (mConstrainedLinearVelocities rb')
  ∧ col_same (mConstrainedAngularVelocities rb) (mConstrainedAngularVelocities rb')
  ∧ with_bs (with_mImpulse (mImpulse bs) bs')
      (with_rb (with_mConstrainedAngularVelocities (mConstrainedAngularVelocities rb)
                  (with_mConstrainedLinearVelocities (mConstrainedLinearVelocities rb) rb'))
         s')
    = s.

(** 4.4 step 2: the vector [−Jv − biasVector] the [inverseMassMatrix] is
    multiplied by. *)
Definition spec_rhs (r : VelocityRow float) : Vector3 float :=
  v3_sub (v3_neg (spec_Jv r)) (vr_biasVector r).

(** Everything an impulse is multiplied by on its way into the four
    velocities of row [r] is finite. *)
Definition finite_factors (r : VelocityRow float) : bool :=
  v3_all ffinite (v3_scale (vr_invMass1 r) (vr_linLock1 r))
  && v3_all ffinite (v3_scale (vr_invMass2 r) (vr_linLock2 r))
  && v3_all ffinite (vr_angLock1 r) && v3_all ffinite (vr_angLock2 r)
  && m3_all ffinite (vr_I1 r) && m3_all ffinite (vr_I2 r)
  && v3_all ffinite (vr_r1World r) && v3_all ffinite (vr_r2World r).

(** Joint row [i] of [s] is inert and its update is computed on finite
    numbers: the [inverseMassMatrix] is a zero matrix, [−Jv − biasVector]
    and the factors of the impulse are finite. *)
Definition inert_and_finite (i : nat) (s : System float) : bool :=
  match readVelocityRow s i with
  | Some r =>
      m3_all fzero (vr_inverseMassMatrix r) && v3_all ffinite (spec_rhs r)
      && finite_factors r
  | None => false
  end.

(** The impulse [P] applied through row [r] is finite, and so are the two
    inverse masses and the two angular increments before they are masked by
    the angular lock factors. *)
Definition finite_impulse (P : Vector3 float) (r : VelocityRow float) : bool :=
  v3_all ffinite P
  && ffinite (vr_invMass1 r) && ffinite (vr_invMass2 r)
  && v3_all ffinite (m3_mulv (vr_I1 r) (cross P (vr_r1World r)))
  && v3_all ffinite (m3_mulv (vr_I2 r) (v3_neg (cross P (vr_r2World r)))).

(** The impulse [P r] applied at joint row [i] of [s], for the row [r]
    read there, is finite. *)
Definition finite_application (P : VelocityRow float → Vector3 float) (i : nat)
    (s : System float) : bool :=
  match readVelocityRow s i with
  | Some r => finite_impulse (P r) r
  | None => false
  end.
End Doubles.

(** [check i t] holds of every row [i] of [rows] on the store [t] that
    [for_each body rows s] hands to [body i]. *)
Fixpoint for_each_check {S : Type} (check : nat → S → bool)
    (body : nat → S → option S) (rows : list nat) (s : S) : bool :=
  match rows with
  | [] => true
  | i :: rows' =>
      check i s
      && match body i s with
         | Some s' => for_each_check check body rows' s'
         | None => true
         end
  end.

Section DoublesSchedules.
#[local] Existing Instance float_decimal.

(** Every impulse that a pass of [op] from [s] applies is finite: the
    accumulated impulse of each row for [warmstart], its [Δλ] for
    [solveVelocityConstraint]; the other two operations add nothing to a
    velocity. *)
Definition finite_pass (op : SolverOp) (s : System float) : bool :=
  let rows := seq 0 (getNbEnabledComponents (mBallAndSocketJointComponents s)) in
  match op with
  | OpWarmstart =>
      for_each_check (finite_application vr_impulse) warmstart_joint rows s
  | OpSolveVelocityConstraint =>
      for_each_check (finite_application spec_deltaLambda)
        solveVelocityConstraint_joint rows s
  | OpInitBeforeSolve | OpSolvePositionConstraint => true
  end.

(** Every impulse that the schedule [ops] from [s] applies is finite. *)
Fixpoint finite_run (ops : list SolverOp) (s : System float) : bool :=
  match ops with
  | [] => true
  | op :: ops' =>
      finite_pass op s
      && match run_op op s with
         | Some s' => finite_run ops' s'
         | None => true
         end
  end.

(** Every row of a velocity pass from [s] is inert and computed on finite
    numbers when its turn comes. *)
Definition inert_pass (s : System float) : bool :=
  for_each_check inert_and_finite solveVelocityConstraint_joint
    (seq 0 (getNbEnabledComponents (mBallAndSocketJointComponents s))) s.

(** Component [k] of row [b] is the same number in both columns. *)
Definition same_component (k : Axis) (b : nat) (col col' : list (Vector3 float)) : Prop :=
  match col !! b, col' !! b with
  | Some v, Some v' => same_number (component k v') (component k v)
  | None, None => True
  | _, _ => False
  end.

(** Body [b] keeps component [k] of a velocity whenever its lock factor for
    that velocity is a zero along [k]; the lock factors themselves are not
    written. *)
Definition locked_kept (b : nat) (k : Axis) (s s' : System float) : Prop :=
  let rb := mRigidBodyComponents s in
  let rb' := mRigidBodyComponents s' in
  mLinearLockAxisFactors rb' = mLinearLockAxisFactors rb
  ∧ mAngularLockAxisFactors rb' = mAngularLockAxisFactors rb
  ∧ (∀ lock, mLinearLockAxisFactors rb !! b = Some lock →
       fzero (component k lock) = true →
       same_component k b (mConstrainedLinearVelocities rb)
                          (mConstrainedLinearVelocities rb'))
  ∧ (∀ lock, mAngularLockAxisFactors rb !! b = Some lock →
       fzero (component k lock) = true →
       same_component k b (mConstrainedAngularVelocities rb)
                          (mConstrainedAngularVelocities rb')).
End DoublesSchedules.

(* ------------------------------------------------------------------------- *)
(** ** The orientations the position solver writes *)

Section OrientationWrites.
Context {D : Type} `{Decimal D}.

(** [q + Quaternion(0, w) * q * decimal(0.5)], the quaternion that
    [integrateOrientation] hands to [normalize]. *)
Definition firstOrderStep (q : Quaternion D) (w : Vector3 D) : Quaternion D :=
  q_add q (q_scale (q_mul (Quaternion_of dec_0 w) q) dec_0_5).


End OrientationWrites.

(* ------------------------------------------------------------------------- *)
(** ** The position correction as the specification words it (section 4.5,
       steps 4-6) *)

Record PositionBodies (D : Type) : Type := mkPositionBodies {
  pb_dynamic : bool;
  pb_x1 : Vector3 D;  pb_x2 : Vector3 D;
  pb_linLock1 : Vector3 D;  pb_angLock1 : Vector3 D;
  pb_linLock2 : Vector3 D;  pb_angLock2 : Vector3 D;
}.
Arguments mkPositionBodies {D} _ _ _ _ _ _ _.
Arguments pb_dynamic {D} _.
Arguments pb_x1 {D} _.
Arguments pb_x2 {D} _.
Arguments pb_linLock1 {D} _.
Arguments pb_angLock1 {D} _.
Arguments pb_linLock2 {D} _.
Arguments pb_angLock2 {D} _.

Section PositionCorrection.
Context {D : Type} `{Decimal D}.

(** What steps 4-6 read of the two bodies of row [r], once the test on the
    determinant has passed. *)
Definition readPositionBodies (s : System D) (r : PositionRow D)
    : option (PositionBodies D) :=
  let rb := mRigidBodyComponents s in
  dynamic ← eitherDynamic rb (pr_c1 r) (pr_c2 r);
  x1 ← mConstrainedPositions rb !! pr_c1 r;
  x2 ← mConstrainedPositions rb !! pr_c2 r;
  linLock1 ← mLinearLockAxisFactors rb !! pr_c1 r;
  angLock1 ← mAngularLockAxisFactors rb !! pr_c1 r;
  linLock2 ← mLinearLockAxisFactors rb !! pr_c2 r;
  angLock2 ← mAngularLockAxisFactors rb !! pr_c2 r;
  Some (mkPositionBodies dynamic x1 x2 linLock1 angLock1 linLock2 angLock2).

(** Step 4, past the test on the determinant: [K⁻¹] in cofactor form when a
    body is DYNAMIC, the zero matrix otherwise. *)
Definition pos_inverseMassMatrix (r : PositionRow D) (b : PositionBodies D) : Matrix3x3 D :=
  if pb_dynamic b then getInverse (pos_K r) (getDeterminant (pos_K r))
  else Matrix3x3_zero.

(** Step 5: [λ = inverseMassMatrix · (−(x2 + r2World − x1 − r1World))]. *)
Definition pos_lambda (r : PositionRow D) (b : PositionBodies D) : Vector3 D :=
  m3_mulv (pos_inverseMassMatrix r b)
    (v3_neg (v3_sub (v3_sub (v3_add (pb_x2 b) (pos_r2World r)) (pb_x1 b))
                    (pos_r1World r))).

(** Step 6: the pseudo-velocities of the two bodies. *)
Definition pos_v1 (r : PositionRow D) (b : PositionBodies D) : Vector3 D :=
  v3_mul (v3_scale (pr_invMass1 r) (pb_linLock1 b)) (v3_neg (pos_lambda r b)).
Definition pos_w1 (r : PositionRow D) (b : PositionBodies D) : Vector3 D :=
  v3_mul (pb_angLock1 b) (m3_mulv (pos_I1 r) (cross (pos_lambda r b) (pos_r1World r))).
Definition pos_v2 (r : PositionRow D) (b : PositionBodies D) : Vector3 D :=
  v3_mul (v3_scale (pr_invMass2 r) (pb_linLock2 b)) (pos_lambda r b).
Definition pos_w2 (r : PositionRow D) (b : PositionBodies D) : Vector3 D :=
  v3_mul (pb_angLock2 b)
    (m3_mulv (pos_I2 r) (v3_neg (cross (pos_lambda r b) (pos_r2World r)))).
End PositionCorrection.

Arguments readPositionBodies : simpl never.
Arguments pos_inverseMassMatrix : simpl never.
Arguments pos_lambda : simpl never.
Arguments pos_v1 : simpl never.
Arguments pos_w1 : simpl never.
Arguments pos_v2 : simpl never.
Arguments pos_w2 : simpl never.

(* ------------------------------------------------------------------------- *)
(** ** More stores: a second joint, and the stores the doubles misbehave on *)

Section MoreStores.
Context {D : Type} `{Decimal D}.

(** The store with one more enabled ball-and-socket joint, of entity [e],
    between the bodies [body1] and [body2], in a new last row of the joint
    and ball-and-socket families (both assumed to hold enabled rows only). *)
Definition addJoint (e body1 body2 : Entity) (anchor1 anchor2 : Vector3 D)
    (technique : JointsPositionCorrectionTechnique) (s : System D) : System D :=
  let jc := mJointComponents s in
  let bs := mBallAndSocketJointComponents s in
  mkSystem (mRigidBodyComponents s) (mTransformComponents s)
    (mkJointComponents
       (<[e := length (mBody1Entities jc)]> (jc_mMapEntityToComponentIndex jc))
       (mBody1Entities jc ++ [body1]) (mBody2Entities jc ++ [body2])
       (mPositionCorrectionTechniques jc ++ [technique]))
    (mkBallAndSocketJointComponents (S (bs_mDisabledStartIndex bs))
       (mJointEntities bs ++ [e])
       (mLocalAnchorPointBody1 bs ++ [anchor1]) (mLocalAnchorPointBody2 bs ++ [anchor2])
       (mR1World bs ++ [Vector3_zero]) (mR2World bs ++ [Vector3_zero])
       (mI1 bs ++ [Matrix3x3_zero]) (mI2 bs ++ [Matrix3x3_zero])
       (mBiasVector bs ++ [Vector3_zero]) (mInverseMassMatrix bs ++ [Matrix3x3_zero])
       (mImpulse bs ++ [Vector3_zero]))
    (mTimeStep s) (mIsWarmStartingActive s).
End MoreStores.

Section DoubleStores.
#[local] Existing Instance float_decimal.
Local Open Scope float_scope.

(** The largest finite double. *)
Definition DBL_MAX : float := 0x1.fffffffffffffp+1023.

(** The pendulum of scenario 2 with a hanging body of inverse mass 0.7
    (the double nearest to it). *)
Definition lightPendulum : System float :=
  twoBodies (staticBody Vector3_zero)
            (mkBodyInit DYNAMIC 0x1.6666666666666p-1 Matrix3x3_identity
               (mkVector3 0 (-1) 0) Vector3_ones Vector3_ones Vector3_zero Vector3_zero)
            Vector3_zero (mkVector3 0 1 0)
            BAUMGARTE_JOINTS true Vector3_zero Matrix3x3_zero.

(** Scenario 3 with the two static bodies given the linear velocities
    [(-DBL_MAX, 0, 0)] and [(DBL_MAX, 0, 0)]. *)
Definition fastStaticPair : System float :=
  twoBodies
    (mkBodyInit STATIC 0 Matrix3x3_zero Vector3_zero Vector3_ones Vector3_ones
       (mkVector3 (- DBL_MAX) 0 0) Vector3_zero)
    (mkBodyInit STATIC 0 Matrix3x3_zero (mkVector3 0 (-1) 0) Vector3_ones Vector3_ones
       (mkVector3 DBL_MAX 0 0) Vector3_zero)
    (mkVector3 1 0 0) Vector3_zero
    BAUMGARTE_JOINTS true Vector3_zero Matrix3x3_zero.

(** Scenario 3 with two KINEMATIC bodies: they move, the first one turns,
    and the joint holds an accumulated impulse. *)
Definition movingKinematicPair : System float :=
  twoBodies
    (mkBodyInit KINEMATIC 0 Matrix3x3_zero Vector3_zero Vector3_ones Vector3_ones
       (mkVector3 1 2 3) (mkVector3 0 0 1))
    (mkBodyInit KINEMATIC 0 Matrix3x3_zero (mkVector3 0 (-1) 0) Vector3_ones Vector3_ones
       (mkVector3 (-0.5) 0 4) Vector3_zero)
    (mkVector3 1 0 0) Vector3_zero
    BAUMGARTE_JOINTS true (mkVector3 0.25 0 0) Matrix3x3_zero.

(** Scenario 3 with the first body moving at [(-0, 0, 0)]. *)
Definition minusZeroStaticPair : System float :=
  twoBodies
    (mkBodyInit STATIC 0 Matrix3x3_zero Vector3_zero Vector3_ones Vector3_ones
       (mkVector3 (-0) 0 0) Vector3_zero)
    (staticBody (mkVector3 0 (-1) 0))
    Vector3_zero Vector3_zero
    BAUMGARTE_JOINTS true Vector3_zero Matrix3x3_zero.

(** Three bodies at the origin and two joints with anchors at the origin:
    a static body, a heavy dynamic one (inverse mass [2^-30], no inertia)
    joined to it, and a dynamic body of mass 1 moving at (1,0,0) joined to
    the heavy one.  The first joint has [det K = 2^-90]. *)
Definition heavyChain : System float :=
  addJoint 8 2 3 Vector3_zero Vector3_zero BAUMGARTE_JOINTS
    (addBody 3
       (mkBodyInit DYNAMIC 1 Matrix3x3_zero Vector3_zero Vector3_ones Vector3_ones
          (mkVector3 1 0 0) Vector3_zero)
       (twoBodies (staticBody Vector3_zero)
          (mkBodyInit DYNAMIC 0x1p-30 Matrix3x3_zero Vector3_zero Vector3_ones Vector3_ones
             Vector3_zero Vector3_zero)
          Vector3_zero Vector3_zero
          BAUMGARTE_JOINTS true Vector3_zero Matrix3x3_zero)).

(** The pendulum of scenario 6 (no linear motion along Y) with a hanging
    body of inverse mass 0.5 moving at [v2]. *)
Definition lockedPendulum (v2 : Vector3 float) : System float :=
  twoBodies (staticBody Vector3_zero)
            (mkBodyInit DYNAMIC 0.5 Matrix3x3_identity (mkVector3 0 (-1) 0)
               (mkVector3 1 0 1) Vector3_ones v2 Vector3_zero)
            Vector3_zero (mkVector3 0 1 0)
            BAUMGARTE_JOINTS true Vector3_zero Matrix3x3_zero.

(** Two dynamic bodies of mass 1 moving at 0.1 and 0.4 along X (the doubles
    nearest to them), with the effective mass [0.5 · identity] cached. *)
Definition slidingPair : System float :=
  twoBodies (dynamicBody Vector3_zero Vector3_ones (mkVector3 0x1.999999999999ap-4 0 0))
            (dynamicBody (mkVector3 0 (-1) 0) Vector3_ones
               (mkVector3 0x1.999999999999ap-2 0 0))
            Vector3_zero (mkVector3 0 1 0)
            BAUMGARTE_JOINTS true Vector3_zero
            (Matrix3x3_of 0.5 0 0 0 0.5 0 0 0 0.5).

(** Two dynamic bodies of mass 1 moving together at (1, 2, 3), with the
    effective mass [0.5 · identity] cached and an accumulated impulse. *)
Definition driftingPair : System float :=
  twoBodies (dynamicBody Vector3_zero Vector3_ones (mkVector3 1 2 3))
            (dynamicBody (mkVector3 0 (-1) 0) Vector3_ones (mkVector3 1 2 3))
            Vector3_zero (mkVector3 0 1 0)
            BAUMGARTE_JOINTS true (mkVector3 0.25 0 0)
            (Matrix3x3_of 0.5 0 0 0 0.5 0 0 0 0.5).

(** [slidingPair] with both ends of the joint on the first body, and the
    accumulated impulse 0.7 along X (the double nearest to it). *)
Definition selfJoinedBody : System float :=
  joinToItself
    (twoBodies (dynamicBody Vector3_zero Vector3_ones (mkVector3 0x1.999999999999ap-4 0 0))
               (dynamicBody (mkVector3 0 (-1) 0) Vector3_ones
                  (mkVector3 0x1.999999999999ap-2 0 0))
               Vector3_zero (mkVector3 0 1 0)
               BAUMGARTE_JOINTS true (mkVector3 0x1.6666666666666p-1 0 0)
               (Matrix3x3_of 0.5 0 0 0 0.5 0 0 0 0.5)).

(** The pendulum of scenario 2 under NON_LINEAR_GAUSS_SEIDEL, with the
    anchor of the hanging body at (0.5, 0.5, 0). *)
Definition twistedPendulum : System float :=
  twoBodies (staticBody Vector3_zero)
            (dynamicBody (mkVector3 0 (-1) 0) Vector3_ones Vector3_zero)
            Vector3_zero (mkVector3 0.5 0.5 0)
            NON_LINEAR_GAUSS_SEIDEL true Vector3_zero Matrix3x3_zero.

End DoubleStores.

(* ------------------------------------------------------------------------- *)
(** * Part II: lemmas and theorems *)

(* ------------------------------------------------------------------------- *)
(** ** Frames, loops and array cells *)

(** Rewrite with every equation of the context that applies to the goal. *)
Ltac rewrite_hyps :=
  repeat match goal with H : _ = _ |- _ => progress rewrite H end.

Section ShapeFacts.
Context {D : Type} `{Decimal D}.

Lemma frame_refl (s : System D) : frame s s.
Proof. by repeat split. Qed.

Lemma frame_trans (s1 s2 s3 : System D) : frame s1 s2 → frame s2 s3 → frame s1 s3.
Proof.
  intros (?&?&?) (?&?&?). repeat split; congruence.
Qed.

Lemma frame_nb (s s' : System D) :
  frame s s' →
  getNbEnabledComponents (mBallAndSocketJointComponents s')
  = getNbEnabledComponents (mBallAndSocketJointComponents s).
Proof. intros (Hi&_&_). unfold inputs in Hi. by simplify_eq. Qed.

Lemma frame_jointIndexOf (s s' : System D) i :
  frame s s' → jointIndexOf s' i = jointIndexOf s i.
Proof.
  intros (Hi&_&_). unfold inputs in Hi. simplify_eq.
  unfold jointIndexOf. by rewrite_hyps.
Qed.

Lemma frame_bodiesOf (s s' : System D) j :
  frame s s' → bodiesOf s' j = bodiesOf s j.
Proof.
  intros (Hi&_&_). unfold inputs in Hi. simplify_eq.
  unfold bodiesOf. by rewrite_hyps.
Qed.

Lemma frame_wf (s s' : System D) : frame s s' → wf_system s → wf_system s'.
Proof.
  intros Hf (Hrb&Hbs&Hj). pose proof Hf as (Hi&Hr&Hb).
  unfold wf_system, inputs, rb_sizes, bs_sizes in *. simplify_eq.
  split_and!.
  - by rewrite_hyps.
  - by rewrite_hyps.
  - intros i Hlt.
    destruct (Hj i) as (ji&b1&b2&c1&c2&?&?&?&?&?&?&?); [congruence|].
    exists ji, b1, b2, c1, c2.
    rewrite (frame_jointIndexOf _ _ _ Hf), (frame_bodiesOf _ _ _ Hf).
    split_and!; congruence.
Qed.

(** Loops: a relation every body step is in, and that is reflexive and
    transitive, holds of the whole loop. *)
Lemma for_each_rel {S : Type} (body : nat → S → option S) (Rel : S → S → Prop) rows :
  (∀ s, Rel s s) →
  (∀ s1 s2 s3, Rel s1 s2 → Rel s2 s3 → Rel s1 s3) →
  (∀ i s s', i ∈ rows → body i s = Some s' → Rel s s') →
  ∀ s s', for_each body rows s = Some s' → Rel s s'.
Proof.
  intros Hrefl Htrans. induction rows as [|i rows IH]; intros Hbody s s' Hrun; simpl in *.
  - by simplify_eq.
  - destruct (body i s) as [s1|] eqn:Hb; simplify_eq/=.
    eapply Htrans; [eapply Hbody; [left|done]|].
    apply IH; [|done]. intros. eapply Hbody; [by right|done].
Qed.

(** Loops: if every body step succeeds and keeps an invariant, so does the
    loop. *)
Lemma for_each_total {S : Type} (body : nat → S → option S) (Inv : S → Prop) rows :
  (∀ i s, i ∈ rows → Inv s → ∃ s', body i s = Some s' ∧ Inv s') →
  ∀ s, Inv s → ∃ s', for_each body rows s = Some s' ∧ Inv s'.
Proof.
  induction rows as [|i rows IH]; intros Hbody s Hs; simpl.
  - eauto.
  - destruct (Hbody i s) as (s1&Hb&H1); [left|done|]. rewrite Hb. simpl.
    apply IH; [|done]. intros. apply Hbody; [by right|done].
Qed.

(** Loops: a store every body step returns unchanged is returned by the
    loop. *)
Lemma for_each_fixed {S : Type} (body : nat → S → option S) rows (s : S) :
  (∀ i, i ∈ rows → body i s = Some s) → for_each body rows s = Some s.
Proof.
  induction rows as [|i rows IH]; intros Hbody; simpl; [done|].
  rewrite Hbody by left. simpl. apply IH. intros. apply Hbody. by right.
Qed.

Lemma iterate_rel (pass : System D → option (System D)) (Rel : System D → System D → Prop) n :
  (∀ s, Rel s s) →
  (∀ s1 s2 s3, Rel s1 s2 → Rel s2 s3 → Rel s1 s3) →
  (∀ s s', pass s = Some s' → Rel s s') →
  ∀ s s', iterate n pass s = Some s' → Rel s s'.
Proof.
  intros Hrefl Htrans Hpass. induction n as [|n IH]; intros s s' Hrun; simpl in *.
  - by simplify_eq.
  - destruct (pass s) as [s1|] eqn:Hb; simplify_eq/=. eauto.
Qed.


Lemma array_set_Some {A} (a : list A) i v :
  i < length a → array_set a i v = Some (<[i := v]> a).
Proof. intros. unfold array_set. by rewrite decide_True. Qed.

Lemma array_set_inv {A} (a a' : list A) i v :
  array_set a i v = Some a' → i < length a ∧ a' = <[i := v]> a.
Proof. unfold array_set. case_decide; naive_solver. Qed.

Lemma cell_add_inv (a a' : list (Vector3 D)) i d :
  cell_add a i d = Some a' → ∃ v, a !! i = Some v ∧ a' = <[i := v3_add v d]> a.
Proof. unfold cell_add. intros. simplify_option_eq. eauto. Qed.

Lemma cell_add_length (a a' : list (Vector3 D)) i d :
  cell_add a i d = Some a' → length a' = length a.
Proof. intros (v&_&->)%cell_add_inv. by rewrite length_insert. Qed.

Lemma cell_add_total (a : list (Vector3 D)) i d :
  i < length a → is_Some (cell_add a i d).
Proof.
  intros [v Hv]%lookup_lt_is_Some_2. unfold cell_add. rewrite Hv. simpl. eauto.
Qed.

Lemma integrateOrientation_length (a a' : list (Quaternion D)) c w :
  integrateOrientation a c w = Some a' → length a' = length a.
Proof.
  unfold integrateOrientation. intros. simplify_option_eq. by rewrite length_insert.
Qed.

Lemma integrateOrientation_total (a : list (Quaternion D)) c w :
  c < length a → is_Some (integrateOrientation a c w).
Proof.
  intros [v Hv]%lookup_lt_is_Some_2. unfold integrateOrientation.
  rewrite Hv. simpl. eauto.
Qed.
End ShapeFacts.

(* ------------------------------------------------------------------------- *)
(** ** Every kernel stays within its frame *)

(** Invert the successful run of a kernel body: one equation per read, and
    the written columns as explicit updates. *)
Ltac invert_writes :=
  repeat match goal with
    | H : array_set _ _ _ = Some _ |- _ => apply array_set_inv in H as [? ->]
    | H : cell_add _ _ _ = Some _ |- _ =>
        let v := fresh "v" in apply cell_add_inv in H as (v & ? & ->)
    | H : (if ?b then _ else _) = Some _ |- _ => destruct b eqn:?
    | H : Some _ = Some _ |- _ => injection H as <-
    | H : None = Some _ |- _ => discriminate H
    | H : mbind _ ?o = Some _ |- _ =>
        let E := fresh "E" in destruct o eqn:E; simpl in H
    | H : (let '(_, _) := ?p in _) = Some _ |- _ => destruct p
    end.

Section KernelFrames.
Context {D : Type} `{Decimal D}.

Lemma applyImpulse_frame P r1 r2 i1 i2 c1 c2 (rb rb' : RigidBodyComponents D) :
  applyImpulse P r1 r2 i1 i2 c1 c2 rb = Some rb' →
  ∀ s, frame (with_rb rb s) (with_rb rb' s)
       ∧ mConstrainedPositions rb' = mConstrainedPositions rb
       ∧ mConstrainedOrientations rb' = mConstrainedOrientations rb.
Proof.
  unfold applyImpulse. intros Hrun s. invert_writes.
  unfold frame, inputs, rb_sizes; simpl. by rewrite !length_insert.
Qed.

Lemma initBeforeSolve_joint_frame bf i (s s' : System D) :
  initBeforeSolve_joint bf i s = Some s' → frame s s'.
Proof.
  unfold initBeforeSolve_joint. intros Hrun. invert_writes;
    unfold frame, inputs, bs_sizes; simpl; by rewrite ?length_insert.
Qed.

Lemma warmstart_joint_frame i (s s' : System D) :
  warmstart_joint i s = Some s' → frame s s'.
Proof.
  unfold warmstart_joint. intros Hrun. invert_writes.
  match goal with Ha : applyImpulse _ _ _ _ _ _ _ _ = Some _ |- _ =>
    destruct (applyImpulse_frame _ _ _ _ _ _ _ _ _ Ha s) as (Hf&_) end.
  by destruct s.
Qed.

Lemma solveVelocityConstraint_joint_frame i (s s' : System D) :
  solveVelocityConstraint_joint i s = Some s' → frame s s'.
Proof.
  unfold solveVelocityConstraint_joint. intros Hrun. invert_writes.
  match goal with Ha : applyImpulse _ _ _ _ _ _ _ _ = Some _ |- _ =>
    destruct (applyImpulse_frame _ _ _ _ _ _ _ _ _ Ha s) as ((Hi&Hr&Hb)&_) end.
  unfold frame, inputs, bs_sizes in *; simpl in *. rewrite length_insert.
  by split_and!.
Qed.

Lemma solvePositionConstraint_joint_frame i (s s' : System D) :
  solvePositionConstraint_joint i s = Some s' → frame s s'.
Proof.
  unfold solvePositionConstraint_joint. intros Hrun. invert_writes;
    try apply frame_refl;
    repeat match goal with
      | Hq : integrateOrientation _ _ _ = Some _ |- _ =>
          apply integrateOrientation_length in Hq
      end;
    unfold frame, inputs, bs_sizes, rb_sizes; simpl;
    rewrite ?length_insert; split_and!; try done; congruence.
Qed.
End KernelFrames.

(* ------------------------------------------------------------------------- *)
(** ** On a well-formed store every kernel runs to completion *)

Section Totality.
Context {D : Type} `{Decimal D}.

Lemma bodiesOf_inv (s : System D) j b1 b2 c1 c2 :
  bodiesOf s j = Some (b1, b2, c1, c2) →
  mBody1Entities (mJointComponents s) !! j = Some b1
  ∧ mBody2Entities (mJointComponents s) !! j = Some b2
  ∧ rb_mMapEntityToComponentIndex (mRigidBodyComponents s) !! b1 = Some c1
  ∧ rb_mMapEntityToComponentIndex (mRigidBodyComponents s) !! b2 = Some c2.
Proof. unfold bodiesOf. intros. by simplify_option_eq. Qed.

Lemma getIsEntityDisabled_enabled (rb : RigidBodyComponents D) b c :
  rb_mMapEntityToComponentIndex rb !! b = Some c →
  c < rb_mDisabledStartIndex rb →
  getIsEntityDisabled rb b = Some false.
Proof.
  intros Hb Hc. unfold getIsEntityDisabled. rewrite Hb. simpl.
  rewrite bool_decide_eq_false_2; [done|lia].
Qed.

Lemma eitherDynamic_total (rb : RigidBodyComponents D) c1 c2 :
  c1 < length (mBodyTypes rb) → c2 < length (mBodyTypes rb) →
  is_Some (eitherDynamic rb c1 c2).
Proof.
  intros [t1 H1]%lookup_lt_is_Some_2 [t2 H2]%lookup_lt_is_Some_2.
  unfold eitherDynamic. rewrite H1. simpl. case_decide; [eauto|].
  rewrite H2. simpl. eauto.
Qed.

Lemma cell_add_run (a : list (Vector3 D)) i d :
  i < length a → ∃ a', cell_add a i d = Some a' ∧ length a' = length a.
Proof.
  intros [a' Ha]%(cell_add_total _ _ d). exists a'. split; [done|].
  by eapply cell_add_length.
Qed.

Lemma integrateOrientation_run (a : list (Quaternion D)) c w :
  c < length a → ∃ a', integrateOrientation a c w = Some a' ∧ length a' = length a.
Proof.
  intros [a' Ha]%(integrateOrientation_total _ _ w). exists a'. split; [done|].
  by eapply integrateOrientation_length.
Qed.

(** One step of symbolic execution of a kernel body whose reads are all in
    range. *)
Ltac run_step :=
  simpl;
  match goal with
  | |- ∃ s', Some ?s = Some s' => by exists s
  | |- ∃ s', (if ?b then _ else _) = Some s' => destruct b
  | |- context [array_set ?a ?i ?v] =>
      rewrite (array_set_Some a i v) by (rewrite ?length_insert; lia)
  | |- context [cell_add ?a ?i ?d] =>
      let E := fresh "E" in let L := fresh "L" in
      destruct (cell_add_run a i d) as (? & E & L); [lia | rewrite E]
  | |- context [integrateOrientation ?a ?i ?d] =>
      let E := fresh "E" in let L := fresh "L" in
      destruct (integrateOrientation_run a i d) as (? & E & L); [lia | rewrite E]
  | |- context [eitherDynamic ?rb ?c1 ?c2] =>
      let E := fresh "E" in
      destruct (eitherDynamic_total rb c1 c2) as [? E]; [lia | lia | rewrite E]
  | |- context [@lookup nat _ (list _) _ ?c ?l] =>
      let E := fresh "E" in
      destruct (lookup_lt_is_Some_2 l c) as [? E]; [lia | rewrite E]
  | |- context [if ?b then _ else _] => destruct b
  end.

(** Unpack [wf_system] for joint row [i]. *)
Ltac unpack_wf Hwf i Hlt :=
  let Hrb := fresh "Hrb" in let Hbs := fresh "Hbs" in let Hj := fresh "Hj" in
  destruct Hwf as (Hrb & Hbs & Hj);
  destruct (Hj i Hlt) as (?ji & ?b1 & ?b2 & ?c1 & ?c2 & ?Hji & ?Hbd & ?Hc1 & ?Hc2
                          & [? ?Ht1] & [? ?Ht2] & [? ?Htq]);
  simpl in Hrb, Hbs; unfold rb_sizes, bs_sizes in Hrb, Hbs; simpl in Hrb, Hbs;
  rewrite !Forall_cons in Hrb; rewrite !Forall_cons in Hbs;
  destruct_and!; unfold getNbEnabledComponents in *.

Lemma initBeforeSolve_joint_total bf i (s : System D) :
  wf_system s →
  i < getNbEnabledComponents (mBallAndSocketJointComponents s) →
  ∃ s', initBeforeSolve_joint bf i s = Some s'.
Proof.
  intros Hwf Hlt. unpack_wf Hwf i Hlt.
  unfold initBeforeSolve_joint. rewrite Hji. simpl. rewrite Hbd. simpl.
  apply bodiesOf_inv in Hbd as (_&_&Hm1&Hm2).
  rewrite (getIsEntityDisabled_enabled _ _ _ Hm1), (getIsEntityDisabled_enabled _ _ _ Hm2)
    by done.
  simpl. rewrite Ht1, Ht2, Htq. repeat run_step.
Qed.

Lemma warmstart_joint_total i (s : System D) :
  wf_system s →
  i < getNbEnabledComponents (mBallAndSocketJointComponents s) →
  ∃ s', warmstart_joint i s = Some s'.
Proof.
  intros Hwf Hlt. unpack_wf Hwf i Hlt.
  unfold warmstart_joint, applyImpulse. rewrite Hji. simpl. rewrite Hbd.
  repeat run_step.
Qed.

Lemma solveVelocityConstraint_joint_total i (s : System D) :
  wf_system s →
  i < getNbEnabledComponents (mBallAndSocketJointComponents s) →
  ∃ s', solveVelocityConstraint_joint i s = Some s'.
Proof.
  intros Hwf Hlt. unpack_wf Hwf i Hlt.
  unfold solveVelocityConstraint_joint, applyImpulse. rewrite Hji. simpl. rewrite Hbd.
  repeat run_step.
Qed.

Lemma solvePositionConstraint_joint_total i (s : System D) :
  wf_system s →
  i < getNbEnabledComponents (mBallAndSocketJointComponents s) →
  ∃ s', solvePositionConstraint_joint i s = Some s'.
Proof.
  intros Hwf Hlt. unpack_wf Hwf i Hlt.
  unfold solvePositionConstraint_joint. rewrite Hji. simpl. rewrite Htq. simpl.
  case_decide; [eauto|]. rewrite Hbd.
  repeat run_step.
Qed.

(** The whole passes. *)
Lemma pass_total (body : nat → System D → option (System D)) (s : System D) :
  (∀ i s s', body i s = Some s' → frame s s') →
  (∀ i s, wf_system s →
          i < getNbEnabledComponents (mBallAndSocketJointComponents s) →
          ∃ s', body i s = Some s') →
  wf_system s →
  ∃ s', for_each body
          (seq 0 (getNbEnabledComponents (mBallAndSocketJointComponents s))) s = Some s'
        ∧ frame s s' ∧ wf_system s'.
Proof.
  intros Hframe Htotal Hwf.
  apply (for_each_total body (λ s', frame s s' ∧ wf_system s')).
  - intros i s1 Hi [Hf1 Hwf1]. apply elem_of_seq in Hi.
    destruct (Htotal i s1 Hwf1) as [s2 H2]; [rewrite (frame_nb _ _ Hf1); lia|].
    exists s2. pose proof (Hframe _ _ _ H2). split; [done|].
    split; [by eapply frame_trans | by eapply frame_wf].
  - split; [apply frame_refl | done].
Qed.

Lemma initBeforeSolve_total (s : System D) :
  wf_system s → ∃ s', initBeforeSolve s = Some s' ∧ frame s s' ∧ wf_system s'.
Proof.
  apply pass_total; eauto using initBeforeSolve_joint_frame, initBeforeSolve_joint_total.
Qed.

Lemma warmstart_total (s : System D) :
  wf_system s → ∃ s', warmstart s = Some s' ∧ frame s s' ∧ wf_system s'.
Proof.
  apply pass_total; eauto using warmstart_joint_frame, warmstart_joint_total.
Qed.

Lemma solveVelocityConstraint_total (s : System D) :
  wf_system s → ∃ s', solveVelocityConstraint s = Some s' ∧ frame s s' ∧ wf_system s'.
Proof.
  apply pass_total;
    eauto using solveVelocityConstraint_joint_frame, solveVelocityConstraint_joint_total.
Qed.

Lemma solvePositionConstraint_total (s : System D) :
  wf_system s → ∃ s', solvePositionConstraint s = Some s' ∧ frame s s' ∧ wf_system s'.
Proof.
  apply pass_total;
    eauto using solvePositionConstraint_joint_frame, solvePositionConstraint_joint_total.
Qed.

Lemma pass_frame (body : nat → System D → option (System D)) rows (s s' : System D) :
  (∀ i s s', body i s = Some s' → frame s s') →
  for_each body rows s = Some s' → frame s s'.
Proof.
  intros Hframe. apply for_each_rel; eauto using frame_refl, frame_trans.
Qed.
End Totality.

(* ------------------------------------------------------------------------- *)
(** ** The pre-solver against its specification *)

Section PreSolverReads.
Context {D : Type} `{Decimal D}.
Local Open Scope dec_scope.

Lemma eitherDynamic_Some (rb : RigidBodyComponents D) c1 c2 t1 t2 :
  mBodyTypes rb !! c1 = Some t1 → mBodyTypes rb !! c2 = Some t2 →
  eitherDynamic rb c1 c2 = Some (bool_decide (t1 = DYNAMIC ∨ t2 = DYNAMIC)).
Proof.
  intros H1 H2. unfold eitherDynamic. rewrite H1. simpl. case_decide.
  - by rewrite bool_decide_eq_true_2; [|left].
  - rewrite H2. simpl. f_equal. apply bool_decide_ext. tauto.
Qed.

Lemma viewJoint_frame (s s' : System D) i :
  frame s s' → viewJoint s' i = viewJoint s i.
Proof.
  intros Hf. unfold viewJoint.
  rewrite (frame_jointIndexOf _ _ _ Hf).
  destruct (jointIndexOf s i) as [ji|]; [simpl|done].
  rewrite (frame_bodiesOf _ _ _ Hf).
  destruct Hf as (Hi&_&_). unfold inputs in Hi.
  injection Hi as HJ HT _ _ HM _ HB Hm _ Hw Hx _ _ _ _ H1 H2.
  by rewrite HJ, HT, HB, Hm, Hw, Hx, H1, H2.
Qed.

Lemma viewJoint_total (s : System D) i :
  wf_system s → i < getNbEnabledComponents (mBallAndSocketJointComponents s) →
  ∃ v, viewJoint s i = Some v
       ∧ jv_c1 v < rb_mDisabledStartIndex (mRigidBodyComponents s)
       ∧ jv_c2 v < rb_mDisabledStartIndex (mRigidBodyComponents s).
Proof.
  intros (Hrb & Hbs & Hj) Hlt.
  destruct (Hj i Hlt) as (ji & b1 & b2 & c1 & c2 & Hji & Hbd & Hc1 & Hc2
                          & [? Ht1] & [? Ht2] & [? Htq]).
  simpl in Hrb, Hbs. rewrite !Forall_cons in Hrb. rewrite !Forall_cons in Hbs.
  destruct_and!. unfold getNbEnabledComponents in *.
  unfold viewJoint. rewrite Hji. simpl. rewrite Hbd. simpl. rewrite Ht1, Ht2, Htq.
  repeat match goal with
    | |- context [@lookup nat _ (list _) _ ?c ?l] =>
        let E := fresh "E" in
        destruct (lookup_lt_is_Some_2 l c) as [? E]; [lia | rewrite E]; simpl
    end.
  eauto.
Qed.
End PreSolverReads.

Section PreSolverFacts.
Context {D : Type} `{Decimal D}.
Local Open Scope dec_scope.

Lemma effectiveMass_massMatrixExpr (m1 m2 : D) (I1 I2 : Matrix3x3 D) (r1 r2 : Vector3 D) :
  massMatrixExpr (m1 + m2) I1 I2
    (computeSkewSymmetricMatrixForCrossProduct r1)
    (computeSkewSymmetricMatrixForCrossProduct r2)
  = effectiveMass m1 m2 I1 I2 r1 r2.
Proof. reflexivity. Qed.

(** On a row that resolves, the loop body of [initBeforeSolve] assigns
    exactly what steps 2-8 of the specification say. *)
Lemma initBeforeSolve_joint_run i (s : System D) v :
  viewJoint s i = Some v →
  jv_c1 v < rb_mDisabledStartIndex (mRigidBodyComponents s) →
  jv_c2 v < rb_mDisabledStartIndex (mRigidBodyComponents s) →
  Forall (λ n, i < n) (bs_sizes (mBallAndSocketJointComponents s)) →
  initBeforeSolve_joint (BETA / mTimeStep s) i s
  = Some (with_bs (spec_presolve_row i s v (mBallAndSocketJointComponents s)) s).
Proof.
  intros Hv Hc1 Hc2 Hsz. unfold viewJoint in Hv. invert_writes. simpl in *.
  unfold bs_sizes in Hsz. rewrite !Forall_cons in Hsz. destruct_and!.
  match goal with Hb : bodiesOf _ _ = Some _ |- _ =>
    pose proof (bodiesOf_inv _ _ _ _ _ _ Hb) as (_&_&Hm1&Hm2) end.
  unfold initBeforeSolve_joint.
  rewrite_hyps. simpl. rewrite_hyps. simpl.
  rewrite (getIsEntityDisabled_enabled _ _ _ Hm1), (getIsEntityDisabled_enabled _ _ _ Hm2)
    by done.
  simpl. rewrite_hyps. simpl.
  repeat (rewrite array_set_Some by (rewrite ?length_insert; lia); simpl).
  rewrite_hyps. simpl.
  repeat (rewrite array_set_Some by (rewrite ?length_insert; lia); simpl).
  erewrite eitherDynamic_Some by done.
  rewrite effectiveMass_massMatrixExpr.
  unfold spec_presolve_row, spec_inverseMassMatrix, spec_guard, spec_biasVector,
    spec_K, spec_r1World, spec_r2World. simpl.
  set (K := effectiveMass _ _ _ _ _ _).
  destruct (dabs (getDeterminant K) >? MACHINE_EPSILON); simpl;
    [destruct (bool_decide _); simpl|];
    repeat (rewrite array_set_Some by (rewrite ?length_insert; lia); simpl);
    case_decide; simpl;
    repeat (rewrite array_set_Some by (rewrite ?length_insert; lia); simpl);
    destruct (mIsWarmStartingActive s); simpl;
    repeat (rewrite array_set_Some by (rewrite ?length_insert; lia); simpl);
    by rewrite ?list_insert_insert_eq.
Qed.
End PreSolverFacts.

Section PreSolverRows.
Context {D : Type} `{Decimal D}.
Local Open Scope dec_scope.

Lemma frame_params (s s' : System D) :
  frame s s' →
  mTimeStep s' = mTimeStep s ∧ mIsWarmStartingActive s' = mIsWarmStartingActive s.
Proof. intros (Hi&_&_). unfold inputs in Hi. by simplify_eq. Qed.

Lemma wf_row_sizes (s : System D) i :
  wf_system s → i < getNbEnabledComponents (mBallAndSocketJointComponents s) →
  Forall (λ n, i < n) (bs_sizes (mBallAndSocketJointComponents s)).
Proof.
  intros (_ & Hbs & _) Hlt. simpl in Hbs. rewrite !Forall_cons in Hbs.
  destruct Hbs as (_ & _ & Hbs). unfold getNbEnabledComponents in Hlt.
  eapply Forall_impl; [exact Hbs|]. simpl. intros. lia.
Qed.

(** The step of the loop, on any state reached from a well-formed [s]. *)
Lemma initBeforeSolve_joint_step (s s1 : System D) i :
  wf_system s → frame s s1 →
  i < getNbEnabledComponents (mBallAndSocketJointComponents s) →
  ∃ v, viewJoint s i = Some v
       ∧ initBeforeSolve_joint (BETA / mTimeStep s) i s1
         = Some (with_bs (spec_presolve_row i s v (mBallAndSocketJointComponents s1)) s1).
Proof.
  intros Hwf Hf Hlt.
  pose proof (frame_wf _ _ Hf Hwf) as Hwf1.
  pose proof (frame_nb _ _ Hf) as Hnb.
  destruct (viewJoint_total s1 i Hwf1) as (v & Hv & Hc1 & Hc2); [lia|].
  exists v. split; [by rewrite <- (viewJoint_frame _ _ _ Hf)|].
  destruct (frame_params _ _ Hf) as [Hdt Hwarm].
  rewrite <- Hdt.
  rewrite (initBeforeSolve_joint_run i s1 v Hv Hc1 Hc2); [|apply wf_row_sizes; [done|lia]].
  unfold spec_presolve_row. by rewrite Hdt, Hwarm.
Qed.

Lemma spec_presolve_row_fields_eq (s s1 : System D) v i :
  Forall (λ n, i < n) (bs_sizes (mBallAndSocketJointComponents s1)) →
  joint_fields (with_bs (spec_presolve_row i s v (mBallAndSocketJointComponents s1)) s1) i
  = spec_fields s v (mImpulse (mBallAndSocketJointComponents s1) !! i).
Proof.
  intros Hsz. unfold bs_sizes in Hsz. rewrite !Forall_cons in Hsz. destruct_and!.
  unfold joint_fields, spec_fields, spec_presolve_row. simpl.
  rewrite !list_lookup_insert_eq by done.
  destruct (mIsWarmStartingActive s); [done|].
  by rewrite list_lookup_insert_eq.
Qed.

Lemma spec_presolve_row_fields_ne (s s1 : System D) v i j :
  i ≠ j →
  joint_fields (with_bs (spec_presolve_row j s v (mBallAndSocketJointComponents s1)) s1) i
  = joint_fields s1 i.
Proof.
  intros Hne. unfold joint_fields, spec_presolve_row. simpl.
  rewrite !list_lookup_insert_ne by done.
  destruct (mIsWarmStartingActive s); [done|].
  by rewrite list_lookup_insert_ne.
Qed.

(** The rows after the loop has visited [rows]. *)
Lemma initBeforeSolve_rows (s : System D) rows :
  wf_system s →
  Forall (λ i, i < getNbEnabledComponents (mBallAndSocketJointComponents s)) rows →
  ∀ s1 s', frame s s1 →
    for_each (initBeforeSolve_joint (BETA / mTimeStep s)) rows s1 = Some s' →
    ∀ i, (i ∈ rows →
            ∃ v, viewJoint s i = Some v
                 ∧ joint_fields s' i
                   = spec_fields s v (mImpulse (mBallAndSocketJointComponents s1) !! i))
         ∧ (i ∉ rows → joint_fields s' i = joint_fields s1 i).
Proof.
  intros Hwf. induction rows as [|j rows IH]; intros Hrows s1 s' Hf Hrun i; simpl in Hrun.
  - simplify_eq. split; [by intros ?%elem_of_nil|done].
  - apply Forall_cons in Hrows as [Hj Hrows].
    destruct (initBeforeSolve_joint_step s s1 j Hwf Hf Hj) as (vj & Hvj & Hstep).
    rewrite Hstep in Hrun. simpl in Hrun.
    set (s2 := with_bs _ s1) in *.
    assert (frame s1 s2) as Hf12
      by (eapply initBeforeSolve_joint_frame; exact Hstep).
    assert (frame s s2) as Hf2 by (by eapply frame_trans).
    destruct (IH Hrows s2 s' Hf2 Hrun i) as [IHin IHout].
    assert (Forall (λ n, j < n) (bs_sizes (mBallAndSocketJointComponents s1))) as Hsz.
    { apply wf_row_sizes; [by eapply frame_wf|]. rewrite (frame_nb _ _ Hf). done. }
    split.
    + intros Hin. destruct (decide (i ∈ rows)) as [Hi|Hi].
      * destruct (IHin Hi) as (v & Hv & Hfields). exists v. split; [done|].
        rewrite Hfields. unfold spec_fields.
        destruct (mIsWarmStartingActive s) eqn:Hw; [|done].
        subst s2. unfold spec_presolve_row. simpl. by rewrite Hw.
      * apply elem_of_cons in Hin as [->|?]; [|done].
        exists vj. split; [done|]. rewrite (IHout Hi). subst s2.
        by apply spec_presolve_row_fields_eq.
    + intros Hout. apply not_elem_of_cons in Hout as [Hne Hout].
      rewrite (IHout Hout). subst s2. by apply spec_presolve_row_fields_ne.
Qed.

(** [initBeforeSolve] on a well-formed store: it returns, and row by row
    the result is what the specification prescribes. *)
Lemma initBeforeSolve_spec (s : System D) :
  wf_system s →
  ∃ s', initBeforeSolve s = Some s' ∧ frame s s' ∧ wf_system s'
    ∧ (∀ i, i < getNbEnabledComponents (mBallAndSocketJointComponents s) →
            ∃ v, viewJoint s i = Some v
                 ∧ joint_fields s' i
                   = spec_fields s v (mImpulse (mBallAndSocketJointComponents s) !! i))
    ∧ (∀ i, getNbEnabledComponents (mBallAndSocketJointComponents s) ≤ i →
            joint_fields s' i = joint_fields s i).
Proof.
  intros Hwf. destruct (initBeforeSolve_total s Hwf) as (s' & Hrun & Hf & Hwf').
  exists s'. split_and!; try done.
  - intros i Hlt. unfold initBeforeSolve in Hrun.
    eapply (initBeforeSolve_rows s _ Hwf); [|apply frame_refl|exact Hrun|].
    + apply Forall_forall. intros k Hk%elem_of_seq. lia.
    + apply elem_of_seq. lia.
  - intros i Hge. unfold initBeforeSolve in Hrun.
    eapply (initBeforeSolve_rows s _ Hwf); [|apply frame_refl|exact Hrun|].
    + apply Forall_forall. intros k Hk%elem_of_seq. lia.
    + intros Hk%elem_of_seq. lia.
Qed.
End PreSolverRows.

(* ------------------------------------------------------------------------- *)
(** ** The scenarios are well formed, and run on IEEE doubles *)

Section ScenarioFacts.
Context {D : Type} `{Decimal D}.

Lemma twoBodies_wf b1 b2 a1 a2 technique warm impulse K :
  wf_system (twoBodies b1 b2 a1 a2 technique warm impulse K).
Proof.
  unfold wf_system. simpl. split_and!.
  - repeat constructor.
  - repeat constructor.
  - intros i Hi. assert (i = 0) as -> by lia.
    exists 0, 1%N, 2%N, 0, 1. split_and!; try done; simpl; try lia; by eexists.
Qed.
End ScenarioFacts.

Section RunsOnDoubles.
#[local] Existing Instance float_decimal.

(** Scenario 2 on IEEE doubles: after the pre-solver, a warm start and ten
    velocity passes, the anchor of the falling body is at rest
    ([v2 + w2 × r2World = 0]) and the joint has accumulated the impulse that
    stopped it. *)
Example pendulum_velocity_solve_on_doubles :
  (s1 ← initBeforeSolve (pendulum BAUMGARTE_JOINTS Vector3_ones
                           (mkVector3 0.5 (-0.25) 0)%float);
   s2 ← warmstart s1;
   s3 ← iterate 10 solveVelocityConstraint s2;
   Some (mConstrainedLinearVelocities (mRigidBodyComponents s3),
         mConstrainedAngularVelocities (mRigidBodyComponents s3),
         mImpulse (mBallAndSocketJointComponents s3)))
  = Some ([mkVector3 0 0 0; mkVector3 0.25 0 0]%float,
          [mkVector3 0 0 0; mkVector3 0 0 0.25]%float,
          [mkVector3 (-0.25) 0.25 0]%float).
Proof. vm_compute. reflexivity. Qed.

(** Scenario 3 on IEEE doubles: between two static bodies the velocity
    update returns the store it was given, bit for bit. *)
Example staticPair_is_inert_on_doubles :
  solveVelocityConstraint_joint 0 (staticPair BAUMGARTE_JOINTS)
  = Some (staticPair BAUMGARTE_JOINTS).
Proof. vm_compute. reflexivity. Qed.

(** Scenario 6 on IEEE doubles: with linear lock factors (1,0,1) the falling
    body keeps the y component of its velocity through a whole step, while
    the x component is corrected. *)
Example locked_axis_on_doubles :
  (s' ← run_ops [OpInitBeforeSolve; OpWarmstart; OpSolveVelocityConstraint;
                 OpSolveVelocityConstraint; OpSolvePositionConstraint]
         (pendulum BAUMGARTE_JOINTS (mkVector3 1 0 1)%float
                   (mkVector3 0.5 (-0.25) 0)%float);
   mConstrainedLinearVelocities (mRigidBodyComponents s') !! 1)
  = Some (mkVector3 0.25 (-0.25) 0)%float.
Proof. vm_compute. reflexivity. Qed.
End RunsOnDoubles.

(* ------------------------------------------------------------------------- *)
(* ------------------------------------------------------------------------- *)
(** ** IEEE binary64: adding and multiplying zeros *)

Section DoubleArithmetic.
Local Open Scope float_scope.

Lemma fzero_mul_l z x : fzero z = true → ffinite x = true → fzero (z * x) = true.
Proof.
  unfold fzero, ffinite. rewrite mul_spec.
  destruct (Prim2SF z), (Prim2SF x); try done.
Qed.

Lemma fzero_mul_r z x : fzero z = true → ffinite x = true → fzero (x * z) = true.
Proof.
  unfold fzero, ffinite. rewrite mul_spec.
  destruct (Prim2SF z), (Prim2SF x); try done.
Qed.

Lemma fzero_add a b : fzero a = true → fzero b = true → fzero (a + b) = true.
Proof.
  unfold fzero. rewrite add_spec.
  destruct (Prim2SF a) as [sa| | |], (Prim2SF b) as [sb| | |]; try done.
  by destruct sa, sb.
Qed.

Lemma fzero_sub a b : fzero a = true → fzero b = true → fzero (a - b) = true.
Proof.
  unfold fzero. rewrite sub_spec.
  destruct (Prim2SF a) as [sa| | |], (Prim2SF b) as [sb| | |]; try done.
  by destruct sa, sb.
Qed.

Lemma fzero_opp a : fzero a = true → fzero (- a) = true.
Proof. unfold fzero. rewrite opp_spec. by destruct (Prim2SF a). Qed.

Lemma ffinite_opp a : ffinite a = true → ffinite (- a) = true.
Proof. unfold ffinite. rewrite opp_spec. by destruct (Prim2SF a). Qed.

(** [a + ±0] is [a], or a zero when [a] is one. *)
Lemma add_fzero a z : fzero z = true → same_number (a + z) a.
Proof.
  unfold same_number, fzero. intros Hz.
  destruct (Prim2SF z) as [sz| | |] eqn:Ez; try done.
  destruct (Prim2SF a) as [sa| | |] eqn:Ea.
  - right. rewrite add_spec, Ea, Ez. by destruct sa, sz.
  - left. apply Prim2SF_inj. by rewrite add_spec, Ea, Ez.
  - left. apply Prim2SF_inj. by rewrite add_spec, Ea, Ez.
  - left. apply Prim2SF_inj. by rewrite add_spec, Ea, Ez.
Qed.

Lemma same_number_refl a : same_number a a.
Proof. by left. Qed.

Lemma same_number_sym a b : same_number a b → same_number b a.
Proof. intros [->|[]]; [by left | by right]. Qed.

Lemma same_number_trans a b c : same_number a b → same_number b c → same_number a c.
Proof.
  intros [->|[Ha Hb]] [->|[Hb' Hc]]; try (by left); try (by right).
Qed.

(** [x · (−y) = −(x · y)]: rounding does not look at the sign. *)
Lemma mul_opp_r x y : x * (- y) = - (x * y).
Proof.
  apply Prim2SF_inj. rewrite opp_spec, !mul_spec, opp_spec.
  destruct (Prim2SF x) as [sx|sx| |sx mx ex], (Prim2SF y) as [sy|sy| |sy my ey];
    simpl; try done; try (by destruct sx, sy).
  unfold SpecFloat.binary_round_aux.
  destruct (shr_fexp prec emax (Z.pos (mx * my)) (ex + ey) loc_Exact) as [mrs' e'].
  destruct (shr_fexp prec emax _ e' loc_Exact) as [mrs'' e''].
  destruct (shr_m mrs''); simpl; [| destruct (_ <=? _)%Z; simpl |]; by destruct sx, sy.
Qed.
End DoubleArithmetic.

Section DoubleVectors.
#[local] Existing Instance float_decimal.

Lemma v3_all_spec p (v : Vector3 float) :
  v3_all p v = true ↔ p (vx v) = true ∧ p (vy v) = true ∧ p (vz v) = true.
Proof. unfold v3_all. rewrite !andb_true_iff. tauto. Qed.

Lemma m3_all_spec p (m : Matrix3x3 float) :
  m3_all p m = true
  ↔ v3_all p (row0 m) = true ∧ v3_all p (row1 m) = true ∧ v3_all p (row2 m) = true.
Proof. unfold m3_all. rewrite !andb_true_iff. tauto. Qed.

Lemma dot3_zero_l a b :
  v3_all fzero a = true → v3_all ffinite b = true → fzero (dot3 a b) = true.
Proof.
  rewrite !v3_all_spec. intros (? & ? & ?) (? & ? & ?).
  unfold dot3. cbv [dadd dmul float_decimal].
  repeat apply fzero_add; by apply fzero_mul_l.
Qed.

Lemma dot3_zero_r a b :
  v3_all ffinite a = true → v3_all fzero b = true → fzero (dot3 a b) = true.
Proof.
  rewrite !v3_all_spec. intros (? & ? & ?) (? & ? & ?).
  unfold dot3. cbv [dadd dmul float_decimal].
  repeat apply fzero_add; by apply fzero_mul_r.
Qed.

Lemma m3_mulv_zero_l M x :
  m3_all fzero M = true → v3_all ffinite x = true → v3_all fzero (m3_mulv M x) = true.
Proof.
  rewrite m3_all_spec. intros (? & ? & ?) ?.
  apply v3_all_spec. unfold m3_mulv. simpl. split_and!; by apply dot3_zero_l.
Qed.

Lemma m3_mulv_zero_r M x :
  m3_all ffinite M = true → v3_all fzero x = true → v3_all fzero (m3_mulv M x) = true.
Proof.
  rewrite m3_all_spec. intros (? & ? & ?) ?.
  apply v3_all_spec. unfold m3_mulv. simpl. split_and!; by apply dot3_zero_r.
Qed.

Lemma cross_zero_l z r :
  v3_all fzero z = true → v3_all ffinite r = true → v3_all fzero (cross z r) = true.
Proof.
  rewrite !v3_all_spec. intros (? & ? & ?) (? & ? & ?).
  unfold cross. cbv [dsub dmul float_decimal]. simpl.
  split_and!; apply fzero_sub; by apply fzero_mul_l.
Qed.

Lemma v3_neg_zero z : v3_all fzero z = true → v3_all fzero (v3_neg z) = true.
Proof.
  rewrite !v3_all_spec. intros (? & ? & ?).
  unfold v3_neg. cbv [dneg float_decimal]. simpl. split_and!; by apply fzero_opp.
Qed.

Lemma v3_neg_finite z : v3_all ffinite z = true → v3_all ffinite (v3_neg z) = true.
Proof.
  rewrite !v3_all_spec. intros (? & ? & ?).
  unfold v3_neg. cbv [dneg float_decimal]. simpl. split_and!; by apply ffinite_opp.
Qed.

Lemma v3_mul_zero_r a z :
  v3_all ffinite a = true → v3_all fzero z = true → v3_all fzero (v3_mul a z) = true.
Proof.
  rewrite !v3_all_spec. intros (? & ? & ?) (? & ? & ?).
  unfold v3_mul. cbv [dmul float_decimal]. simpl. split_and!; by apply fzero_mul_r.
Qed.

Lemma v3_same_refl v : v3_same v v.
Proof. repeat split; apply same_number_refl. Qed.

Lemma v3_same_trans a b c : v3_same a b → v3_same b c → v3_same a c.
Proof.
  intros (? & ? & ?) (? & ? & ?). repeat split; by eapply same_number_trans.
Qed.

Lemma v3_add_zero v z : v3_all fzero z = true → v3_same (v3_add v z) v.
Proof.
  rewrite v3_all_spec. intros (? & ? & ?).
  unfold v3_add. cbv [dadd float_decimal]. repeat split; simpl; by apply add_fzero.
Qed.

Lemma col_same_refl col : col_same col col.
Proof. apply Forall2_same_length_lookup_2; [done|]. intros ??? ? ?. simplify_eq. apply v3_same_refl. Qed.

Lemma col_same_trans a b c : col_same a b → col_same b c → col_same a c.
Proof.
  unfold col_same. intros Hab Hbc.
  eapply Forall2_trans; [|done..]. intros ???. apply v3_same_trans.
Qed.

Lemma v3_same_sym a b : v3_same a b → v3_same b a.
Proof. intros (? & ? & ?). repeat split; by apply same_number_sym. Qed.

(** Adding a zero vector to a cell gives the same column. *)
Lemma bump_zero col c z : v3_all fzero z = true → col_same col (bump col c z).
Proof.
  intros Hz. unfold bump.
  destruct (col !! c) as [v|] eqn:Hv; [|apply col_same_refl].
  apply Forall2_same_length_lookup_2; [by rewrite length_insert|].
  intros j a b Ha Hb.
  destruct (decide (j = c)) as [->|Hne].
  - rewrite list_lookup_insert_eq in Hb by (by eapply lookup_lt_Some).
    simplify_eq. apply v3_same_sym. by apply v3_add_zero.
  - rewrite list_lookup_insert_ne in Hb by done. simplify_eq. apply v3_same_refl.
Qed.

Lemma bump_bump_zero col c1 c2 z1 z2 :
  v3_all fzero z1 = true → v3_all fzero z2 = true →
  col_same col (bump (bump col c1 z1) c2 z2).
Proof.
  intros H1 H2. apply col_same_trans with (bump col c1 z1); by apply bump_zero.
Qed.
End DoubleVectors.

(* ------------------------------------------------------------------------- *)
(** ** The pre-solver's effective mass (claim C1) *)

Section InverseMassMatrix.
Context {D : Type} `{Decimal D}.
Local Open Scope dec_scope.

(** C1.  On a well-formed store, in every scalar arithmetic:
    [initBeforeSolve] returns, and for every enabled joint row [i] the
    [inverseMassMatrix] it leaves is [getInverse K (det K)] — the adjugate of
    [K = diag(m1⁻¹+m2⁻¹) + Û1·I1·Û1ᵀ + Û2·I2·Û2ᵀ] times [1 / det K], every
    operation computed in [decimal] — when the computed [|det K|] compares
    greater than [MACHINE_EPSILON] and one of the two bodies is DYNAMIC, and
    the zero matrix in every other case. *)
Theorem C1_inverseMassMatrix_after_initBeforeSolve (s : System D) (i : nat) :
  wf_system s →
  i < getNbEnabledComponents (mBallAndSocketJointComponents s) →
  ∃ s' v M,
    initBeforeSolve s = Some s'
    ∧ viewJoint s i = Some v
    ∧ mInverseMassMatrix (mBallAndSocketJointComponents s') !! i = Some M
    ∧ ((dabs (getDeterminant (spec_K v)) >? MACHINE_EPSILON) = true
       ∧ (jv_type1 v = DYNAMIC ∨ jv_type2 v = DYNAMIC) →
       M = getInverse (spec_K v) (getDeterminant (spec_K v)))
    ∧ (¬ ((dabs (getDeterminant (spec_K v)) >? MACHINE_EPSILON) = true
          ∧ (jv_type1 v = DYNAMIC ∨ jv_type2 v = DYNAMIC)) →
       M = Matrix3x3_zero).
Proof.
  intros Hwf Hlt.
  destruct (initBeforeSolve_spec s Hwf) as (s' & Hrun & _ & _ & Hrows & _).
  destruct (Hrows i Hlt) as (v & Hv & Hfields).
  exists s', v, (spec_inverseMassMatrix v).
  unfold joint_fields, spec_fields in Hfields.
  split_and!; [done | done | congruence | |].
  - intros [Hdet Hdyn]. unfold spec_inverseMassMatrix, spec_guard.
    by rewrite Hdet, bool_decide_eq_true_2.
  - intros Hguard. unfold spec_inverseMassMatrix, spec_guard.
    destruct (dabs (getDeterminant (spec_K v)) >? MACHINE_EPSILON) eqn:Hdet; [|done].
    case_bool_decide; [|done]. by destruct Hguard.
Qed.
End InverseMassMatrix.

Section InverseMassMatrixOnDoubles.
#[local] Existing Instance float_decimal.
Local Open Scope dec_scope.

(** C1 fails on doubles as it is stated: on the pendulum whose hanging body
    has inverse mass 0.7 (anchor one unit away, unit inertia), the computed
    [|det K|] is above [MACHINE_EPSILON] and the body is DYNAMIC, but the
    matrix that [initBeforeSolve] stores is not an inverse of [K] on either
    side: [K·M] and [M·K] have 1.0000000000000002 on the diagonal.  Nor can
    it be one: the first diagonal entries of [K] and of the stored matrix do
    not multiply to 1 in exact arithmetic either. *)
Lemma C1_counterexample :
  ∃ s' v M,
    initBeforeSolve lightPendulum = Some s'
    ∧ viewJoint lightPendulum 0 = Some v
    ∧ mInverseMassMatrix (mBallAndSocketJointComponents s') !! 0 = Some M
    ∧ (dabs (getDeterminant (spec_K v)) >? MACHINE_EPSILON) = true
    ∧ jv_type2 v = DYNAMIC
    ∧ m3_mul (spec_K v) M ≠ Matrix3x3_identity
    ∧ m3_mul M (spec_K v) ≠ Matrix3x3_identity
    ∧ exact_inverses (vx (row0 (spec_K v))) (vx (row0 M)) = false.
Proof.
  do 3 eexists.
  split; [vm_compute; reflexivity|].
  split; [vm_compute; reflexivity|].
  split; [vm_compute; reflexivity|].
  split; [vm_compute; reflexivity|].
  split; [reflexivity|].
  split_and!.
  - intros Heq. apply (f_equal (λ m, Prim2SF (vx (row0 m)))) in Heq.
    vm_compute in Heq. discriminate.
  - intros Heq. apply (f_equal (λ m, Prim2SF (vx (row0 m)))) in Heq.
    vm_compute in Heq. discriminate.
  - vm_compute. reflexivity.
Qed.

(** C1 at the pendulum of scenario 2, on doubles. *)
Lemma C1_witness :
  ∃ (s' : System float) (v : JointView float) (M : Matrix3x3 float),
    initBeforeSolve (pendulum BAUMGARTE_JOINTS Vector3_ones Vector3_zero) = Some s'
    ∧ viewJoint (pendulum BAUMGARTE_JOINTS Vector3_ones Vector3_zero) 0 = Some v
    ∧ mInverseMassMatrix (mBallAndSocketJointComponents s') !! 0 = Some M
    ∧ ((dabs (getDeterminant (spec_K v)) >? MACHINE_EPSILON) = true
       ∧ (jv_type1 v = DYNAMIC ∨ jv_type2 v = DYNAMIC) →
       M = getInverse (spec_K v) (getDeterminant (spec_K v)))
    ∧ (¬ ((dabs (getDeterminant (spec_K v)) >? MACHINE_EPSILON) = true
          ∧ (jv_type1 v = DYNAMIC ∨ jv_type2 v = DYNAMIC)) →
       M = Matrix3x3_zero).
Proof.
  apply (C1_inverseMassMatrix_after_initBeforeSolve
           (pendulum BAUMGARTE_JOINTS Vector3_ones Vector3_zero) 0).
  - apply twoBodies_wf.
  - unfold getNbEnabledComponents. cbn. lia.
Defined.
End InverseMassMatrixOnDoubles.

(* ------------------------------------------------------------------------- *)
(** ** The velocity update against its specification *)

Section VelocityFacts.
Context {D : Type} `{Decimal D}.

Lemma bump_lookup (col : list (Vector3 D)) c v d :
  col !! c = Some v → bump col c d = <[c := v3_add v d]> col.
Proof. intros Hc. unfold bump. by rewrite Hc. Qed.

Lemma bump_length (col : list (Vector3 D)) c d : length (bump col c d) = length col.
Proof. unfold bump. destruct (col !! c); [by rewrite length_insert|done]. Qed.

Lemma cell_add_bump (col : list (Vector3 D)) c d :
  c < length col → cell_add col c d = Some (bump col c d).
Proof.
  intros [v Hv]%lookup_lt_is_Some_2. unfold cell_add, bump. by rewrite Hv.
Qed.

(** The loop body of [solveVelocityConstraint] is, on every store, the
    update of sections 4.3-4.4 applied to what [readVelocityRow] reads. *)
Lemma solveVelocityConstraint_joint_spec i (s : System D) :
  solveVelocityConstraint_joint i s
  = r ← readVelocityRow s i; Some (spec_velocityUpdate i r s).
Proof.
  unfold solveVelocityConstraint_joint, readVelocityRow.
  destruct (jointIndexOf s i) as [ji|]; simpl; [|done].
  destruct (bodiesOf s ji) as [[[[b1 b2] c1] c2]|]; simpl; [|done].
  repeat match goal with
    | |- mbind _ (applyImpulse _ _ _ _ _ _ _ _) = _ => unfold applyImpulse
    | |- context [mbind _ (?l !! ?c)] =>
        lazymatch goal with
        | |- mbind _ (l !! c) = _ => idtac
        | |- mbind _ (mbind _ (l !! c)) = _ => idtac
        end;
        let E := fresh "E" in destruct (l !! c) eqn:E; simpl; [|done]
    | |- context [mbind _ (cell_add ?a ?c ?d)] =>
        lazymatch goal with
        | |- mbind _ (cell_add a c d) = _ => idtac
        | |- mbind _ (mbind _ (cell_add a c d)) = _ => idtac
        end;
        let E := fresh "E" in
        destruct (a !! c) eqn:E;
        [ rewrite (cell_add_bump a c d) by (by eapply lookup_lt_Some); simpl
        | first [ by unfold cell_add; rewrite E
                | exfalso; apply lookup_ge_None in E; rewrite ?bump_length in E;
                  repeat match goal with
                    | Hl : _ !! _ = Some _ |- _ => apply lookup_lt_Some in Hl
                    end; lia ] ]
    end.
  unfold spec_velocityUpdate, spec_applyImpulse. simpl.
  by erewrite (bump_lookup (mImpulse _)) by done.
Qed.

End VelocityFacts.

Section VelocityReads.
Context {D : Type} `{Decimal D}.

(** What a successful [readVelocityRow] says about the store. *)
Lemma readVelocityRow_lookups (s : System D) i r :
  readVelocityRow s i = Some r →
  let rb := mRigidBodyComponents s in
  let bs := mBallAndSocketJointComponents s in
  mConstrainedLinearVelocities rb !! vr_c1 r = Some (vr_v1 r)
  ∧ mConstrainedLinearVelocities rb !! vr_c2 r = Some (vr_v2 r)
  ∧ mConstrainedAngularVelocities rb !! vr_c1 r = Some (vr_w1 r)
  ∧ mConstrainedAngularVelocities rb !! vr_c2 r = Some (vr_w2 r)
  ∧ mInverseMassMatrix bs !! i = Some (vr_inverseMassMatrix r)
  ∧ mImpulse bs !! i = Some (vr_impulse r)
  ∧ mInverseMasses rb !! vr_c1 r = Some (vr_invMass1 r)
  ∧ mInverseMasses rb !! vr_c2 r = Some (vr_invMass2 r)
  ∧ mLinearLockAxisFactors rb !! vr_c1 r = Some (vr_linLock1 r)
  ∧ mLinearLockAxisFactors rb !! vr_c2 r = Some (vr_linLock2 r)
  ∧ mAngularLockAxisFactors rb !! vr_c1 r = Some (vr_angLock1 r)
  ∧ mAngularLockAxisFactors rb !! vr_c2 r = Some (vr_angLock2 r).
Proof.
  unfold readVelocityRow. intros Hr. invert_writes. simpl. by split_and!.
Qed.

Lemma applyImpulse_spec (r : VelocityRow D) P (rb : RigidBodyComponents D) :
  mConstrainedLinearVelocities rb !! vr_c1 r = Some (vr_v1 r) →
  mConstrainedLinearVelocities rb !! vr_c2 r = Some (vr_v2 r) →
  mConstrainedAngularVelocities rb !! vr_c1 r = Some (vr_w1 r) →
  mConstrainedAngularVelocities rb !! vr_c2 r = Some (vr_w2 r) →
  mInverseMasses rb !! vr_c1 r = Some (vr_invMass1 r) →
  mInverseMasses rb !! vr_c2 r = Some (vr_invMass2 r) →
  mLinearLockAxisFactors rb !! vr_c1 r = Some (vr_linLock1 r) →
  mLinearLockAxisFactors rb !! vr_c2 r = Some (vr_linLock2 r) →
  mAngularLockAxisFactors rb !! vr_c1 r = Some (vr_angLock1 r) →
  mAngularLockAxisFactors rb !! vr_c2 r = Some (vr_angLock2 r) →
  applyImpulse P (vr_r1World r) (vr_r2World r) (vr_I1 r) (vr_I2 r) (vr_c1 r) (vr_c2 r) rb
  = Some (spec_applyImpulse r P rb).
Proof.
  intros Hv1 Hv2 Hw1 Hw2 Hm1 Hm2 Hl1 Hl2 Ha1 Ha2.
  apply lookup_lt_Some in Hv1, Hv2, Hw1, Hw2.
  unfold applyImpulse. rewrite Hm1, Hl1. simpl.
  rewrite cell_add_bump by done. simpl. rewrite Ha1. simpl.
  rewrite cell_add_bump by done. simpl. rewrite Hm2, Hl2. simpl.
  rewrite cell_add_bump by (by rewrite bump_length). simpl. rewrite Ha2. simpl.
  rewrite cell_add_bump by (by rewrite bump_length). simpl.
  reflexivity.
Qed.

Lemma warmstart_joint_read i (s : System D) r :
  readVelocityRow s i = Some r →
  warmstart_joint i s
  = Some (with_rb (spec_applyImpulse r (vr_impulse r) (mRigidBodyComponents s)) s).
Proof.
  intros Hr. pose proof (readVelocityRow_lookups s i r Hr) as Hl. simpl in Hl.
  destruct Hl as (Hv1 & Hv2 & Hw1 & Hw2 & _ & _ & Hm1 & Hm2 & Hl1 & Hl2 & Ha1 & Ha2).
  pose proof (applyImpulse_spec r (vr_impulse r) _ Hv1 Hv2 Hw1 Hw2 Hm1 Hm2 Hl1 Hl2 Ha1 Ha2)
    as Happly.
  unfold readVelocityRow in Hr. invert_writes. simpl in *.
  unfold warmstart_joint. repeat (progress (rewrite_hyps; simpl)).
  reflexivity.
Qed.
End VelocityReads.

(* ------------------------------------------------------------------------- *)
(** ** One velocity update (claims C2, C3, C7) *)

Section VelocityUpdate.
Context {D : Type} `{Decimal D}.


End VelocityUpdate.

(* ------------------------------------------------------------------------- *)
(** ** Checked loops *)

Section CheckedLoops.
Context {S : Type}.

Lemma for_each_check_rel (check : nat → S → bool) (body : nat → S → option S)
    (Rel : S → S → Prop) rows :
  (∀ s, Rel s s) →
  (∀ s1 s2 s3, Rel s1 s2 → Rel s2 s3 → Rel s1 s3) →
  (∀ i s s', check i s = true → body i s = Some s' → Rel s s') →
  ∀ s s', for_each body rows s = Some s' →
          for_each_check check body rows s = true → Rel s s'.
Proof.
  intros Hrefl Htrans Hstep.
  induction rows as [|i rows IH]; intros s s' Hrun Hcheck; simpl in *.
  - by simplify_eq.
  - destruct (body i s) as [s1|] eqn:Hbody; simplify_eq/=.
    apply andb_true_iff in Hcheck as [Hi Hrest].
    eapply Htrans; [by eapply Hstep | by apply IH].
Qed.

Lemma for_each_check_total (check : nat → S → bool) (body : nat → S → option S) rows :
  (∀ i s, check i s = true → is_Some (body i s)) →
  ∀ s, for_each_check check body rows s = true → is_Some (for_each body rows s).
Proof.
  intros Hstep.
  induction rows as [|i rows IH]; intros s Hcheck; simpl in *; [by eexists|].
  apply andb_true_iff in Hcheck as [Hi Hrest].
  destruct (Hstep i s Hi) as [s1 Hs1]. rewrite Hs1 in Hrest |- *. simpl. by apply IH.
Qed.
End CheckedLoops.

(* ------------------------------------------------------------------------- *)
(** ** One velocity update on doubles: a zero [Δλ] (claim C3) *)

Section ZeroImpulse.
#[local] Existing Instance float_decimal.

Lemma same_up_to_zero_signs_refl s : same_up_to_zero_signs s s.
Proof.
  unfold same_up_to_zero_signs. split_and!; try apply col_same_refl.
  by destruct s as [[] ? ? [] ? ?].
Qed.

Lemma same_up_to_zero_signs_trans s1 s2 s3 :
  same_up_to_zero_signs s1 s2 → same_up_to_zero_signs s2 s3 →
  same_up_to_zero_signs s1 s3.
Proof.
  unfold same_up_to_zero_signs.
  intros (Hp1 & Hv1 & Hw1 & Heq1) (Hp2 & Hv2 & Hw2 & Heq2).
  split_and!; [by eapply col_same_trans..|].
  destruct s1 as [[] ? ? [] ? ?], s2 as [[] ? ? [] ? ?], s3 as [[] ? ? [] ? ?].
  cbv in Heq1, Heq2 |- *. by simplify_eq.
Qed.

Lemma finite_factors_spec r :
  finite_factors r = true →
  v3_all ffinite (v3_scale (vr_invMass1 r) (vr_linLock1 r)) = true
  ∧ v3_all ffinite (v3_scale (vr_invMass2 r) (vr_linLock2 r)) = true
  ∧ v3_all ffinite (vr_angLock1 r) = true ∧ v3_all ffinite (vr_angLock2 r) = true
  ∧ m3_all ffinite (vr_I1 r) = true ∧ m3_all ffinite (vr_I2 r) = true
  ∧ v3_all ffinite (vr_r1World r) = true ∧ v3_all ffinite (vr_r2World r) = true.
Proof. unfold finite_factors. rewrite !andb_true_iff. tauto. Qed.

(** A zero impulse through finite factors gives four zero increments. *)
Lemma zero_increments r P :
  v3_all fzero P = true → finite_factors r = true →
  v3_all fzero (spec_dv1 r P) = true ∧ v3_all fzero (spec_dw1 r P) = true
  ∧ v3_all fzero (spec_dv2 r P) = true ∧ v3_all fzero (spec_dw2 r P) = true.
Proof.
  intros HP (Hm1 & Hm2 & Ha1 & Ha2 & HI1 & HI2 & Hr1 & Hr2)%finite_factors_spec.
  unfold spec_dv1, spec_dw1, spec_dv2, spec_dw2. split_and!.
  - apply v3_mul_zero_r; [done|]. by apply v3_neg_zero.
  - apply v3_mul_zero_r; [done|]. apply m3_mulv_zero_r; [done|]. by apply cross_zero_l.
  - by apply v3_mul_zero_r.
  - apply v3_mul_zero_r; [done|]. apply m3_mulv_zero_r; [done|].
    apply v3_neg_zero. by apply cross_zero_l.
Qed.

(** The update of a row whose [Δλ] is a zero vector. *)
Lemma zero_deltaLambda_update i s r :
  readVelocityRow s i = Some r →
  v3_all fzero (spec_deltaLambda r) = true → finite_factors r = true →
  same_up_to_zero_signs s (spec_velocityUpdate i r s).
Proof.
  intros Hr HP Hf.
  destruct (zero_increments r _ HP Hf) as (Hdv1 & Hdw1 & Hdv2 & Hdw2).
  destruct (readVelocityRow_lookups s i r Hr) as (_ & _ & _ & _ & _ & Himp & _).
  simpl in Himp.
  unfold same_up_to_zero_signs. simpl. split_and!.
  - rewrite <- (bump_lookup _ _ _ _ Himp). by apply bump_zero.
  - by apply bump_bump_zero.
  - by apply bump_bump_zero.
  - by destruct s as [[] ? ? [] ? ?].
Qed.

Lemma inert_and_finite_step i s :
  inert_and_finite i s = true →
  ∃ r, readVelocityRow s i = Some r
       ∧ solveVelocityConstraint_joint i s = Some (spec_velocityUpdate i r s)
       ∧ v3_all fzero (spec_deltaLambda r) = true
       ∧ same_up_to_zero_signs s (spec_velocityUpdate i r s).
Proof.
  unfold inert_and_finite. destruct (readVelocityRow s i) as [r|] eqn:Hr; [|done].
  rewrite !andb_true_iff. intros [[HM Hrhs] Hf].
  assert (v3_all fzero (spec_deltaLambda r) = true) as HP
    by (by apply m3_mulv_zero_l).
  exists r. split_and!; [done | | done | by apply zero_deltaLambda_update].
  by rewrite solveVelocityConstraint_joint_spec, Hr.
Qed.

(** C3.  On doubles, for a joint row [i] that can be read and whose
    [inverseMassMatrix] is a zero matrix, when [−Jv − biasVector] and the
    factors the impulse goes through (the masked inverse masses, the angular
    lock factors, [I1], [I2], [r1World], [r2World]) are finite: every
    component of [Δλ] is a zero, the velocity update of that row returns, and
    it leaves the accumulated impulses and the two velocity columns as they
    were up to the sign of zeros, and everything else as it was.  Likewise a
    whole pass of [solveVelocityConstraint] all of whose rows are such when
    their turn comes. *)
Theorem C3_zero_inverseMassMatrix_row_is_inert (i : nat) (s : System float)
    (r : VelocityRow float) :
  readVelocityRow s i = Some r →
  m3_all fzero (vr_inverseMassMatrix r) = true →
  v3_all ffinite (spec_rhs r) = true →
  finite_factors r = true →
  v3_all fzero (spec_deltaLambda r) = true
  ∧ (∃ s', solveVelocityConstraint_joint i s = Some s' ∧ same_up_to_zero_signs s s')
  ∧ (inert_pass s = true →
     ∃ s', solveVelocityConstraint s = Some s' ∧ same_up_to_zero_signs s s').
Proof.
  intros Hr HM Hrhs Hf.
  destruct (inert_and_finite_step i s) as (r' & Hr' & Hrun & HP & Hsame).
  { unfold inert_and_finite. by rewrite Hr, HM, Hrhs, Hf. }
  assert (r' = r) as -> by congruence.
  split_and!; [done | by eauto |].
  intros Hpass. unfold inert_pass, solveVelocityConstraint in *.
  destruct (for_each_check_total inert_and_finite solveVelocityConstraint_joint
              (seq 0 (getNbEnabledComponents (mBallAndSocketJointComponents s)))) with s
    as [s' Hs']; [|done|].
  { intros j t (rj & _ & Hj & _)%inert_and_finite_step. by rewrite Hj. }
  exists s'. split; [done|].
  eapply (for_each_check_rel inert_and_finite solveVelocityConstraint_joint);
    [apply same_up_to_zero_signs_refl | apply same_up_to_zero_signs_trans | | done..].
  intros j t t' (rj & _ & Hj & _ & Hsamej)%inert_and_finite_step Hrunj.
  by simplify_eq.
Qed.
End ZeroImpulse.

Section ZeroImpulseOnStores.
#[local] Existing Instance float_decimal.
Local Open Scope float_scope.

(** C3 fails as it is stated, in three ways.  (1) Overflow: on two static
    bodies moving at [-DBL_MAX] and [DBL_MAX] the [inverseMassMatrix] is
    zero but [Jv] is infinite, [Δλ = 0 · ∞] is NaN, and the pass leaves NaN
    in the impulse and in the linear velocities of both bodies.  (2) The sign
    of a zero: a linear velocity [(-0, 0, 0)] comes back as [(+0, 0, 0)].
    (3) A shared body, in any arithmetic: in [heavyChain] the joint of row 0
    is inert after [initBeforeSolve] ([det K = 2^-90]), but the pass changes
    the linear velocity of its second body through the joint of row 1. *)
Lemma C3_counterexample :
  (∃ r s',
     readVelocityRow fastStaticPair 0 = Some r
     ∧ vr_inverseMassMatrix r = Matrix3x3_zero
     ∧ solveVelocityConstraint fastStaticPair = Some s'
     ∧ mImpulse (mBallAndSocketJointComponents s') = [mkVector3 nan nan nan]
     ∧ mConstrainedLinearVelocities (mRigidBodyComponents s')
       = [mkVector3 nan nan nan; mkVector3 nan nan nan])
  ∧ (∃ r s',
       readVelocityRow minusZeroStaticPair 0 = Some r
       ∧ vr_inverseMassMatrix r = Matrix3x3_zero
       ∧ solveVelocityConstraint minusZeroStaticPair = Some s'
       ∧ mConstrainedLinearVelocities (mRigidBodyComponents minusZeroStaticPair) !! vr_c1 r
         = Some (mkVector3 (-0) 0 0)
       ∧ mConstrainedLinearVelocities (mRigidBodyComponents s') !! vr_c1 r
         = Some (mkVector3 0 0 0))
  ∧ (∃ s0 r s' v,
       initBeforeSolve heavyChain = Some s0
       ∧ readVelocityRow s0 0 = Some r
       ∧ vr_inverseMassMatrix r = Matrix3x3_zero
       ∧ solveVelocityConstraint s0 = Some s'
       ∧ mConstrainedLinearVelocities (mRigidBodyComponents s0) !! vr_c2 r
         = Some Vector3_zero
       ∧ mConstrainedLinearVelocities (mRigidBodyComponents s') !! vr_c2 r = Some v
       ∧ fzero (vx v) = false).
Proof.
  split_and!.
  - do 2 eexists. split_and!; vm_compute; reflexivity.
  - do 2 eexists. split_and!; vm_compute; reflexivity.
  - do 4 eexists. split_and!; vm_compute; reflexivity.
Qed.

(** C3 on two KINEMATIC bodies that move, after [initBeforeSolve]: the bias
    and [Jv] are not zero, the row is inert. *)
Lemma C3_witness :
  ∃ s0 r,
    initBeforeSolve movingKinematicPair = Some s0
    ∧ readVelocityRow s0 0 = Some r
    ∧ spec_Jv r = mkVector3 (-1.5) (-3) 1
    ∧ vr_impulse r = mkVector3 0.25 0 0
    ∧ v3_all fzero (vr_biasVector r) = false
    ∧ v3_all fzero (spec_deltaLambda r) = true
    ∧ (∃ s', solveVelocityConstraint_joint 0 s0 = Some s' ∧ same_up_to_zero_signs s0 s')
    ∧ (∃ s', solveVelocityConstraint s0 = Some s' ∧ same_up_to_zero_signs s0 s').
Proof.
  do 2 eexists.
  split; [vm_compute; reflexivity|].
  split; [vm_compute; reflexivity|].
  split; [vm_compute; reflexivity|].
  split; [vm_compute; reflexivity|].
  split; [vm_compute; reflexivity|].
  match goal with
  | |- v3_all fzero (spec_deltaLambda ?r) = true ∧ (∃ s', _ ?i ?s = _ ∧ _) ∧ _ =>
      destruct (C3_zero_inverseMassMatrix_row_is_inert i s r)
        as (Hzero & Hrow & Hpass); [vm_compute; reflexivity..|]
  end.
  split_and!; [exact Hzero | exact Hrow |].
  apply Hpass. vm_compute. reflexivity.
Defined.
End ZeroImpulseOnStores.

(* ------------------------------------------------------------------------- *)
(** ** Opposite linear impulses (claim C7) *)

Section OppositeImpulses.
Context {D : Type} `{Decimal D}.

(** C7.  In every velocity update of a joint row that can be read, in every
    scalar arithmetic: the update returns; the linear impulse [P1] applied
    to body 1 is [−Δλ] and the one applied to body 2 is [P2 = +Δλ], so
    [P1 = −P2] exactly; the linear velocity column moves by the masked
    inverse mass times [P1] at body 1, then times [P2] at body 2.  Where
    the arithmetic has [x · (−y) = −(x · y)], as IEEE arithmetic has, and the
    two bodies have the same inverse mass and linear lock factors, the two
    velocity increments are exact negations of each other. *)
Theorem C7_linear_impulses_are_opposite (i : nat) (s : System D) (r : VelocityRow D) :
  readVelocityRow s i = Some r →
  ∃ s' P1 P2,
    solveVelocityConstraint_joint i s = Some s'
    ∧ P2 = spec_deltaLambda r
    ∧ P1 = v3_neg P2
    ∧ mConstrainedLinearVelocities (mRigidBodyComponents s')
      = bump (bump (mConstrainedLinearVelocities (mRigidBodyComponents s))
                   (vr_c1 r) (v3_mul (v3_scale (vr_invMass1 r) (vr_linLock1 r)) P1))
             (vr_c2 r) (v3_mul (v3_scale (vr_invMass2 r) (vr_linLock2 r)) P2)
    ∧ ((∀ x y : D, dmul x (dneg y) = dneg (dmul x y)) →
       vr_invMass1 r = vr_invMass2 r → vr_linLock1 r = vr_linLock2 r →
       v3_mul (v3_scale (vr_invMass1 r) (vr_linLock1 r)) P1
       = v3_neg (v3_mul (v3_scale (vr_invMass2 r) (vr_linLock2 r)) P2)).
Proof.
  intros Hr.
  exists (spec_velocityUpdate i r s), (v3_neg (spec_deltaLambda r)), (spec_deltaLambda r).
  split_and!; [|done..|].
  - by rewrite solveVelocityConstraint_joint_spec, Hr.
  - intros Hlaw -> ->. unfold v3_mul, v3_neg. simpl. by rewrite !Hlaw.
Qed.
End OppositeImpulses.

Section OppositeImpulsesOnDoubles.
#[local] Existing Instance float_decimal.
Local Open Scope float_scope.

(** C7 fails on doubles as it is stated: two dynamic bodies of mass 1 with
    unit lock factors, moving at 0.1 and 0.4 along X, both leave the update
    at 0.25; the two changes of linear momentum, [1 · (0.25 − 0.1)] and
    [1 · (0.25 − 0.4)], add up to [-2^-55] along X, not to zero. *)
Lemma C7_counterexample :
  ∃ r s' v1' v2',
    readVelocityRow slidingPair 0 = Some r
    ∧ vr_invMass1 r = 1 ∧ vr_invMass2 r = 1
    ∧ vr_linLock1 r = Vector3_ones ∧ vr_linLock2 r = Vector3_ones
    ∧ solveVelocityConstraint_joint 0 slidingPair = Some s'
    ∧ mConstrainedLinearVelocities (mRigidBodyComponents s') !! vr_c1 r = Some v1'
    ∧ mConstrainedLinearVelocities (mRigidBodyComponents s') !! vr_c2 r = Some v2'
    ∧ v3_add (v3_scale 1 (v3_sub v1' (vr_v1 r))) (v3_scale 1 (v3_sub v2' (vr_v2 r)))
      = mkVector3 (-0x1p-55) 0 0.
Proof. do 4 eexists. split_and!; vm_compute; reflexivity. Qed.

(** C7 at the same store: the two increments are exact negations. *)
Lemma C7_witness :
  ∃ r s' P1 P2,
    readVelocityRow slidingPair 0 = Some r
    ∧ solveVelocityConstraint_joint 0 slidingPair = Some s'
    ∧ P2 = spec_deltaLambda r
    ∧ P1 = v3_neg P2
    ∧ mConstrainedLinearVelocities (mRigidBodyComponents s')
      = bump (bump (mConstrainedLinearVelocities (mRigidBodyComponents slidingPair))
                   (vr_c1 r) (v3_mul (v3_scale (vr_invMass1 r) (vr_linLock1 r)) P1))
             (vr_c2 r) (v3_mul (v3_scale (vr_invMass2 r) (vr_linLock2 r)) P2)
    ∧ v3_mul (v3_scale (vr_invMass1 r) (vr_linLock1 r)) P1
      = v3_neg (v3_mul (v3_scale (vr_invMass2 r) (vr_linLock2 r)) P2).
Proof.
  assert (∃ r, readVelocityRow slidingPair 0 = Some r) as [r Hr]
    by (eexists; vm_compute; reflexivity).
  pose proof Hr as Hr'. vm_compute in Hr'. injection Hr' as <-.
  destruct (C7_linear_impulses_are_opposite 0 slidingPair _ Hr)
    as (s' & P1 & P2 & Hrun & HP2 & HP1 & Hcol & Hneg).
  eexists _, s', P1, P2. split_and!; [exact Hr | done..|].
  apply Hneg; [apply mul_opp_r | reflexivity | reflexivity].
Defined.
End OppositeImpulsesOnDoubles.

(* ------------------------------------------------------------------------- *)
(** ** The position solver and the velocity buffers (claim C5) *)

Section PositionFrame.
Context {D : Type} `{Decimal D}.

Lemma same_velocities_refl (s : System D) : same_velocities s s.
Proof. by split. Qed.

Lemma same_velocities_trans (s1 s2 s3 : System D) :
  same_velocities s1 s2 → same_velocities s2 s3 → same_velocities s1 s3.
Proof. intros [] []. split; congruence. Qed.

Lemma solvePositionConstraint_joint_same_velocities i (s s' : System D) :
  solvePositionConstraint_joint i s = Some s' → same_velocities s s'.
Proof.
  unfold solvePositionConstraint_joint. intros Hrun.
  invert_writes; by split.
Qed.

Lemma solvePositionConstraint_same_velocities (s s' : System D) :
  solvePositionConstraint s = Some s' → same_velocities s s'.
Proof.
  unfold solvePositionConstraint.
  apply for_each_rel; [apply same_velocities_refl | apply same_velocities_trans|].
  intros i t t' _. apply solvePositionConstraint_joint_same_velocities.
Qed.


(** C5.  Whatever the number [n] of position-solver iterations, the two
    velocity columns of the rigid-body store are, for every body, the ones
    the iterations started from. *)
Theorem C5_solvePositionConstraint_keeps_velocities (n : nat) (s s' : System D) :
  iterate n solvePositionConstraint s = Some s' →
  mConstrainedLinearVelocities (mRigidBodyComponents s')
  = mConstrainedLinearVelocities (mRigidBodyComponents s)
  ∧ mConstrainedAngularVelocities (mRigidBodyComponents s')
    = mConstrainedAngularVelocities (mRigidBodyComponents s).
Proof.
  revert s s'. apply (iterate_rel solvePositionConstraint same_velocities);
    [apply same_velocities_refl | apply same_velocities_trans|].
  apply solvePositionConstraint_same_velocities.
Qed.

End PositionFrame.

Section PositionFrameWitness.
#[local] Existing Instance float_decimal.

(** C5 on IEEE doubles: five iterations on the stretched pendulum move
    body 2 and keep both velocity columns. *)
Lemma C5_witness :
  ∃ s' : System float,
    iterate 5 solvePositionConstraint
      (stretchedPendulum Vector3_ones (mkVector3 0.5 (-0.25) 0)%float) = Some s'
    ∧ mConstrainedPositions (mRigidBodyComponents s')
      ≠ mConstrainedPositions (mRigidBodyComponents
          (stretchedPendulum Vector3_ones (mkVector3 0.5 (-0.25) 0)%float))
    ∧ mConstrainedLinearVelocities (mRigidBodyComponents s')
      = [Vector3_zero; (mkVector3 0.5 (-0.25) 0)%float]
    ∧ mConstrainedAngularVelocities (mRigidBodyComponents s')
      = [Vector3_zero; Vector3_zero].
Proof.
  destruct (iterate 5 solvePositionConstraint
              (stretchedPendulum Vector3_ones (mkVector3 0.5 (-0.25) 0)%float))
    as [s'|] eqn:Hrun; [|vm_compute in Hrun; discriminate].
  exists s'. split; [reflexivity|].
  split; [vm_compute in Hrun; injection Hrun as <-; vm_compute; discriminate|].
  exact (C5_solvePositionConstraint_keeps_velocities 5 _ _ Hrun).
Defined.
End PositionFrameWitness.

(* ------------------------------------------------------------------------- *)
(* ------------------------------------------------------------------------- *)
(** ** The orientations the position solver writes (claim C6) *)

Section NormalizedOrientations.
Context {D : Type} `{Decimal D}.
Local Open Scope dec_scope.

Lemma integrateOrientation_inv (a a' : list (Quaternion D)) c w :
  integrateOrientation a c w = Some a' →
  ∃ q, a !! c = Some q ∧ a' = <[c := normalize (firstOrderStep q w)]> a.
Proof.
  unfold integrateOrientation. intros Hrun.
  destruct (a !! c) as [q|] eqn:Hq; simplify_eq/=. eauto.
Qed.





End NormalizedOrientations.

Section NormalizedOrientationsOnDoubles.
#[local] Existing Instance float_decimal.
Local Open Scope float_scope.


End NormalizedOrientationsOnDoubles.

(* ------------------------------------------------------------------------- *)
(** ** Locked axes (claim C4) *)

Section Schedule.
Context {D : Type} `{Decimal D}.

Lemma run_op_total op (s : System D) :
  wf_system s → ∃ s', run_op op s = Some s' ∧ wf_system s'.
Proof.
  intros Hwf. destruct op; simpl.
  - destruct (initBeforeSolve_total s Hwf) as (s' & ? & _ & ?). eauto.
  - destruct (warmstart_total s Hwf) as (s' & ? & _ & ?). eauto.
  - destruct (solveVelocityConstraint_total s Hwf) as (s' & ? & _ & ?). eauto.
  - destruct (solvePositionConstraint_total s Hwf) as (s' & ? & _ & ?). eauto.
Qed.

Lemma run_ops_total ops (s : System D) :
  wf_system s → ∃ s', run_ops ops s = Some s' ∧ wf_system s'.
Proof.
  revert s. induction ops as [|op ops IH]; intros s Hwf; simpl; [eauto|].
  destruct (run_op_total op s Hwf) as (s1 & -> & Hwf1). simpl. eauto.
Qed.

Lemma run_op_frame op (s s' : System D) : run_op op s = Some s' → frame s s'.
Proof.
  destruct op; simpl; apply pass_frame;
    eauto using initBeforeSolve_joint_frame, warmstart_joint_frame,
      solveVelocityConstraint_joint_frame, solvePositionConstraint_joint_frame.
Qed.

Lemma initBeforeSolve_joint_bodies bf i (s s' : System D) :
  initBeforeSolve_joint bf i s = Some s' →
  mRigidBodyComponents s' = mRigidBodyComponents s.
Proof. unfold initBeforeSolve_joint. intros Hrun. by invert_writes. Qed.
End Schedule.

Section LockedAxes.
#[local] Existing Instance float_decimal.

Lemma same_component_refl k b col : same_component k b col col.
Proof. unfold same_component. destruct (col !! b); [apply same_number_refl|done]. Qed.

Lemma same_component_trans k b col1 col2 col3 :
  same_component k b col1 col2 → same_component k b col2 col3 →
  same_component k b col1 col3.
Proof.
  unfold same_component.
  destruct (col1 !! b), (col2 !! b), (col3 !! b); try done.
  intros H12 H23. by eapply same_number_trans.
Qed.

(** [col[c] += d] keeps component [k] of row [b] when [b] is another row or
    component [k] of [d] is a zero. *)
Lemma bump_same_component k b col c d :
  (b = c → fzero (component k d) = true) →
  same_component k b col (bump col c d).
Proof.
  intros Hd. unfold same_component, bump.
  destruct (col !! c) as [v|] eqn:Hv; [|apply same_component_refl].
  destruct (decide (b = c)) as [->|Hne].
  - rewrite Hv, list_lookup_insert_eq by (by eapply lookup_lt_Some).
    specialize (Hd eq_refl).
    destruct k, v, d; unfold v3_add; cbv [dadd float_decimal]; simpl in *;
      by apply add_fzero.
  - rewrite list_lookup_insert_ne by done.
    destruct (col !! b); [apply same_number_refl|done].
Qed.

Lemma bump_bump_same_component k b col c1 c2 d1 d2 :
  (b = c1 → fzero (component k d1) = true) →
  (b = c2 → fzero (component k d2) = true) →
  same_component k b col (bump (bump col c1 d1) c2 d2).
Proof.
  intros H1 H2. apply same_component_trans with (bump col c1 d1);
    by apply bump_same_component.
Qed.

Lemma component_v3_all p k v : v3_all p v = true → p (component k v) = true.
Proof. intros (? & ? & ?)%v3_all_spec. by destruct k. Qed.

(** The masked linear increment along a locked axis is a zero. *)
Lemma locked_linear_increment k (m : float) (lock P : Vector3 float) :
  fzero (component k lock) = true → ffinite m = true → v3_all ffinite P = true →
  fzero (component k (v3_mul (v3_scale m lock) P)) = true.
Proof.
  intros Hl Hm HP. apply (component_v3_all _ k) in HP.
  destruct k, lock, P; unfold v3_mul, v3_scale; cbv [dmul float_decimal]; simpl in *;
    apply fzero_mul_l; try done; by apply fzero_mul_r.
Qed.

(** The masked angular increment along a locked axis is a zero. *)
Lemma locked_angular_increment k (lock X : Vector3 float) :
  fzero (component k lock) = true → v3_all ffinite X = true →
  fzero (component k (v3_mul lock X)) = true.
Proof.
  intros Hl HX. apply (component_v3_all _ k) in HX.
  destruct k, lock, X; unfold v3_mul; cbv [dmul float_decimal]; simpl in *;
    by apply fzero_mul_l.
Qed.

Lemma finite_impulse_spec P r :
  finite_impulse P r = true →
  v3_all ffinite P = true
  ∧ ffinite (vr_invMass1 r) = true ∧ ffinite (vr_invMass2 r) = true
  ∧ v3_all ffinite (m3_mulv (vr_I1 r) (cross P (vr_r1World r))) = true
  ∧ v3_all ffinite (m3_mulv (vr_I2 r) (v3_neg (cross P (vr_r2World r)))) = true.
Proof. unfold finite_impulse. rewrite !andb_true_iff. tauto. Qed.

Lemma locked_kept_refl b k s : locked_kept b k s s.
Proof. unfold locked_kept. split_and!; try done; intros; apply same_component_refl. Qed.

Lemma locked_kept_trans b k s1 s2 s3 :
  locked_kept b k s1 s2 → locked_kept b k s2 s3 → locked_kept b k s1 s3.
Proof.
  unfold locked_kept. intros (Hl1 & Ha1 & Hv1 & Hw1) (Hl2 & Ha2 & Hv2 & Hw2).
  split_and!; [congruence | congruence | |].
  - intros lock Hlock Hk. eapply same_component_trans; [by eapply Hv1|].
    eapply Hv2; [|done]. by rewrite Hl1.
  - intros lock Hlock Hk. eapply same_component_trans; [by eapply Hw1|].
    eapply Hw2; [|done]. by rewrite Ha1.
Qed.

(** Same velocity columns and lock factors: every locked component is kept. *)
Lemma locked_kept_same b k s s' :
  mRigidBodyComponents s' = mRigidBodyComponents s → locked_kept b k s s'.
Proof.
  intros Hrb. unfold locked_kept. rewrite Hrb.
  split_and!; try done; intros; apply same_component_refl.
Qed.

(** Applying a finite impulse through row [r] keeps every locked component. *)
Lemma spec_applyImpulse_locked b k i s s' r P :
  readVelocityRow s i = Some r →
  finite_impulse P r = true →
  mRigidBodyComponents s' = spec_applyImpulse r P (mRigidBodyComponents s) →
  locked_kept b k s s'.
Proof.
  intros Hr (HP & Hm1 & Hm2 & HX1 & HX2)%finite_impulse_spec Hrb.
  destruct (readVelocityRow_lookups s i r Hr)
    as (_ & _ & _ & _ & _ & _ & _ & _ & Hl1 & Hl2 & Ha1 & Ha2).
  simpl in *. unfold locked_kept. rewrite Hrb. simpl. split_and!; [done..| |].
  - intros lock Hlock Hk. apply bump_bump_same_component.
    + intros ->. unfold spec_dv1. assert (lock = vr_linLock1 r) as -> by congruence.
      apply locked_linear_increment; [done..|]. by apply v3_neg_finite.
    + intros ->. unfold spec_dv2. assert (lock = vr_linLock2 r) as -> by congruence.
      by apply locked_linear_increment.
  - intros lock Hlock Hk. apply bump_bump_same_component.
    + intros ->. unfold spec_dw1. assert (lock = vr_angLock1 r) as -> by congruence.
      by apply locked_angular_increment.
    + intros ->. unfold spec_dw2. assert (lock = vr_angLock2 r) as -> by congruence.
      by apply locked_angular_increment.
Qed.

Lemma warmstart_joint_locked b k i s s' :
  finite_application vr_impulse i s = true →
  warmstart_joint i s = Some s' → locked_kept b k s s'.
Proof.
  unfold finite_application.
  destruct (readVelocityRow s i) as [r|] eqn:Hr; [|done]. intros Hfin Hrun.
  rewrite (warmstart_joint_read i s r Hr) in Hrun. simplify_eq.
  by eapply spec_applyImpulse_locked.
Qed.

Lemma solveVelocityConstraint_joint_locked b k i s s' :
  finite_application spec_deltaLambda i s = true →
  solveVelocityConstraint_joint i s = Some s' → locked_kept b k s s'.
Proof.
  unfold finite_application.
  destruct (readVelocityRow s i) as [r|] eqn:Hr; [|done]. intros Hfin Hrun.
  rewrite solveVelocityConstraint_joint_spec, Hr in Hrun. simplify_eq/=.
  by eapply spec_applyImpulse_locked.
Qed.

Lemma frame_locked_kept b k s s' :
  frame s s' → same_velocities s s' → locked_kept b k s s'.
Proof.
  intros (Hi & _ & _) [Hv Hw]. unfold inputs in Hi.
  injection Hi as _ _ _ _ _ _ _ _ _ _ _ Hl Ha _ _ _ _.
  unfold locked_kept. rewrite Hv, Hw.
  split_and!; try done; intros; apply same_component_refl.
Qed.

Lemma run_op_locked b k op s s' :
  run_op op s = Some s' → finite_pass op s = true → locked_kept b k s s'.
Proof.
  destruct op; simpl; intros Hrun Hfin.
  - unfold initBeforeSolve in Hrun. revert Hrun.
    apply (for_each_rel _ (locked_kept b k));
      [apply locked_kept_refl | apply locked_kept_trans|].
    intros i t t' _ Ht. apply locked_kept_same.
    by eapply initBeforeSolve_joint_bodies.
  - unfold warmstart in Hrun. unfold finite_pass in Hfin.
    eapply (for_each_check_rel _ warmstart_joint);
      [apply locked_kept_refl | apply locked_kept_trans | | done..].
    intros i t t'. apply warmstart_joint_locked.
  - unfold solveVelocityConstraint in Hrun. unfold finite_pass in Hfin.
    eapply (for_each_check_rel _ solveVelocityConstraint_joint);
      [apply locked_kept_refl | apply locked_kept_trans | | done..].
    intros i t t'. apply solveVelocityConstraint_joint_locked.
  - apply frame_locked_kept.
    + by apply (run_op_frame OpSolvePositionConstraint).
    + by apply solvePositionConstraint_same_velocities.
Qed.

Lemma run_ops_locked b k ops s s' :
  run_ops ops s = Some s' → finite_run ops s = true → locked_kept b k s s'.
Proof.
  revert s. induction ops as [|op ops IH]; intros s Hrun Hfin; simpl in *.
  - simplify_eq. apply locked_kept_refl.
  - destruct (run_op op s) as [s1|] eqn:Hop; simplify_eq/=.
    apply andb_true_iff in Hfin as [Hpass Hrest].
    eapply locked_kept_trans; [by eapply run_op_locked | by apply IH].
Qed.

(** C4.  On doubles, over every schedule of the four operations that
    returns and in which every impulse applied to the velocities is finite
    (the accumulated impulse at each [warmstart] update, [Δλ] at each
    velocity update, together with the two inverse masses and the two
    angular increments before masking): for every body row [b] and axis [k]
    whose linear lock factor is a zero, component [k] of the constrained
    linear velocity of [b] is the number it was, up to the sign of a zero;
    likewise for the angular lock factor and the constrained angular
    velocity.  [initBeforeSolve] and [solvePositionConstraint] write no
    velocity at all: the pseudo-velocities of the position solver go into
    positions and orientations. *)
Theorem C4_locked_components_are_never_modified
    (ops : list SolverOp) (s s' : System float) (b : nat) (k : Axis) :
  run_ops ops s = Some s' →
  finite_run ops s = true →
  (∀ lock v,
     mLinearLockAxisFactors (mRigidBodyComponents s) !! b = Some lock →
     fzero (component k lock) = true →
     mConstrainedLinearVelocities (mRigidBodyComponents s) !! b = Some v →
     ∃ v', mConstrainedLinearVelocities (mRigidBodyComponents s') !! b = Some v'
           ∧ same_number (component k v') (component k v))
  ∧ (∀ lock w,
       mAngularLockAxisFactors (mRigidBodyComponents s) !! b = Some lock →
       fzero (component k lock) = true →
       mConstrainedAngularVelocities (mRigidBodyComponents s) !! b = Some w →
       ∃ w', mConstrainedAngularVelocities (mRigidBodyComponents s') !! b = Some w'
             ∧ same_number (component k w') (component k w)).
Proof.
  intros Hrun Hfin.
  destruct (run_ops_locked b k ops s s' Hrun Hfin) as (_ & _ & Hv & Hw).
  split.
  - intros lock v Hlock Hk Hb. specialize (Hv lock Hlock Hk).
    unfold same_component in Hv. rewrite Hb in Hv.
    destruct (mConstrainedLinearVelocities (mRigidBodyComponents s') !! b) as [v'|];
      [|done].
    by exists v'.
  - intros lock w Hlock Hk Hb. specialize (Hw lock Hlock Hk).
    unfold same_component in Hw. rewrite Hb in Hw.
    destruct (mConstrainedAngularVelocities (mRigidBodyComponents s') !! b) as [w'|];
      [|done].
    by exists w'.
Qed.
End LockedAxes.

Section LockedAxesOnDoubles.
#[local] Existing Instance float_decimal.
Local Open Scope float_scope.

(** C4 fails on doubles as it is stated.  (1) Overflow: the hanging body of
    [lockedPendulum] cannot move along Y (linear lock factors (1,0,1)); given
    the velocity [(0, DBL_MAX, 0)], the first velocity update computes an
    infinite [Δλ] along Y, the masked increment [0 · ∞] is NaN, and the
    locked component comes back as NaN.  (2) The sign of a zero: given the
    velocity [(0.5, -0, 0)] and finite impulses throughout, the locked
    component comes back as [+0]. *)
Lemma C4_counterexample :
  (∃ s',
     mLinearLockAxisFactors (mRigidBodyComponents (lockedPendulum (mkVector3 0 DBL_MAX 0)))
       !! 1%nat = Some (mkVector3 1 0 1)
     ∧ run_ops [OpInitBeforeSolve; OpSolveVelocityConstraint]
         (lockedPendulum (mkVector3 0 DBL_MAX 0)) = Some s'
     ∧ mConstrainedLinearVelocities (mRigidBodyComponents s') !! 1%nat
       = Some (mkVector3 0 nan 0))
  ∧ (∃ s' vx',
       run_ops [OpInitBeforeSolve; OpSolveVelocityConstraint]
         (lockedPendulum (mkVector3 0.5 (-0) 0)) = Some s'
       ∧ finite_run [OpInitBeforeSolve; OpSolveVelocityConstraint]
           (lockedPendulum (mkVector3 0.5 (-0) 0)) = true
       ∧ mConstrainedLinearVelocities (mRigidBodyComponents s') !! 1%nat
         = Some (mkVector3 vx' 0 0)
       ∧ Prim2SF 0 = S754_zero false ∧ Prim2SF (-0) = S754_zero true).
Proof.
  split.
  - eexists. split_and!; vm_compute; reflexivity.
  - do 2 eexists. split_and!; vm_compute; reflexivity.
Qed.

(** C4 at scenario 6: the hanging body has linear lock factors (1,0,1) and
    falls at 1/4; after a pre-solve, a warm start, two velocity passes and a
    position pass the Y component of its linear velocity is still -1/4. *)
Lemma C4_witness :
  ∃ (s' : System float) (v' : Vector3 float),
    run_ops [OpInitBeforeSolve; OpWarmstart; OpSolveVelocityConstraint;
             OpSolveVelocityConstraint; OpSolvePositionConstraint]
      (pendulum BAUMGARTE_JOINTS (mkVector3 1 0 1) (mkVector3 0.5 (-0.25) 0))
    = Some s'
    ∧ mConstrainedLinearVelocities (mRigidBodyComponents s') !! 1%nat = Some v'
    ∧ component AxisY v' = -0.25.
Proof.
  destruct (run_ops_total
              [OpInitBeforeSolve; OpWarmstart; OpSolveVelocityConstraint;
               OpSolveVelocityConstraint; OpSolvePositionConstraint]
              (pendulum BAUMGARTE_JOINTS (mkVector3 1 0 1) (mkVector3 0.5 (-0.25) 0)))
    as (s' & Hrun & _); [apply twoBodies_wf|].
  destruct (C4_locked_components_are_never_modified _ _ _ 1 AxisY Hrun)
    as [Hlinear _]; [vm_compute; reflexivity|].
  destruct (Hlinear (mkVector3 1 0 1) (mkVector3 0.5 (-0.25) 0))
    as (v' & Hv' & Hy); [reflexivity | vm_compute; reflexivity | reflexivity |].
  exists s', v'. split_and!; [exact Hrun | exact Hv' |].
  destruct Hy as [Hy|[_ Hzero]]; [exact Hy | vm_compute in Hzero; discriminate].
Defined.
End LockedAxesOnDoubles.

(* ------------------------------------------------------------------------- *)
(** ** The pre-solver is idempotent (claim C8) *)

Section Idempotence.
Context {D : Type} `{Decimal D}.

(** Writing to a row the fields it already holds changes nothing. *)
Lemma spec_presolve_row_fixed (s s' : System D) v i :
  joint_fields s' i
  = spec_fields s v (mImpulse (mBallAndSocketJointComponents s) !! i) →
  mTimeStep s' = mTimeStep s →
  mIsWarmStartingActive s' = mIsWarmStartingActive s →
  with_bs (spec_presolve_row i s' v (mBallAndSocketJointComponents s')) s' = s'.
Proof.
  unfold joint_fields, spec_fields, spec_presolve_row. intros Hfields Hdt Hwarm.
  rewrite Hdt, Hwarm. simplify_eq.
  destruct (mIsWarmStartingActive s);
    repeat match goal with
      | Hx : ?l !! i = Some ?x |- _ => rewrite (list_insert_id l i x Hx); clear Hx
      end;
    by destruct s' as [? ? ? [] ? ?].
Qed.

Lemma initBeforeSolve_idempotent (s s' : System D) :
  wf_system s → initBeforeSolve s = Some s' → initBeforeSolve s' = Some s'.
Proof.
  intros Hwf Hrun.
  destruct (initBeforeSolve_spec s Hwf) as (s1 & Hrun1 & Hf & Hwf' & Hrows & _).
  assert (s1 = s') as -> by congruence.
  destruct (frame_params _ _ Hf) as [Hdt Hwarm].
  unfold initBeforeSolve. apply for_each_fixed. intros i Hi%elem_of_seq.
  rewrite (frame_nb _ _ Hf) in Hi.
  destruct (Hrows i) as (v & Hv & Hfields); [lia|].
  destruct (initBeforeSolve_joint_step s' s' i Hwf' (frame_refl s'))
    as (v' & Hv' & ->); [rewrite (frame_nb _ _ Hf); lia|].
  rewrite (viewJoint_frame _ _ _ Hf) in Hv'. simplify_eq.
  f_equal. by eapply spec_presolve_row_fixed.
Qed.

(** C8.  On a well-formed store [initBeforeSolve] returns, and running it
    twice in a row (same time step, same warm-start flag, nothing changed in
    between) returns the very store one run returns: every joint field
    ([r1World], [r2World], [I1], [I2], [inverseMassMatrix], [biasVector],
    [impulse]), and everything else, is identical, on whatever arithmetic. *)
Theorem C8_initBeforeSolve_is_idempotent (s : System D) :
  wf_system s →
  ∃ s1, initBeforeSolve s = Some s1
        ∧ (initBeforeSolve s ≫= initBeforeSolve) = Some s1.
Proof.
  intros Hwf. destruct (initBeforeSolve_total s Hwf) as (s1 & Hrun & _).
  exists s1. split; [done|]. rewrite Hrun. simpl.
  by eapply initBeforeSolve_idempotent.
Qed.
End Idempotence.

Section IdempotenceWitness.
#[local] Existing Instance float_decimal.

(** C8 on IEEE doubles, at the stretched pendulum: the first run changes
    the store, the second one does not. *)
Lemma C8_witness :
  ∃ s1 : System float,
    initBeforeSolve (stretchedPendulum Vector3_ones Vector3_zero) = Some s1
    ∧ (initBeforeSolve (stretchedPendulum Vector3_ones Vector3_zero) ≫= initBeforeSolve)
      = Some s1
    ∧ s1 ≠ stretchedPendulum Vector3_ones Vector3_zero.
Proof.
  destruct (C8_initBeforeSolve_is_idempotent
              (stretchedPendulum Vector3_ones Vector3_zero)
              (twoBodies_wf _ _ _ _ _ _ _ _)) as (s1 & Hrun & Htwice).
  exists s1. split_and!; [exact Hrun | exact Htwice |].
  vm_compute in Hrun. injection Hrun as <-. vm_compute. discriminate.
Defined.
End IdempotenceWitness.

(* ------------------------------------------------------------------------- *)
(** ** The singular branch of the position solver (claim C9) *)

Section SingularBranch.
Context {D : Type} `{Decimal D}.
Local Open Scope dec_scope.

(** C9.  For a joint row [i] that uses NON_LINEAR_GAUSS_SEIDEL, the loop body
    of [solvePositionConstraint] overwrites the cached [I1], [I2], [r1World],
    [r2World] of the row with the values recomputed from the constrained
    orientations, whatever the determinant; and when the test
    [|det K| > MACHINE_EPSILON] fails it leaves [inverseMassMatrix] zeroed
    and the whole rigid-body store (positions and orientations included, no
    normalization) as it was. *)
Theorem C9_singular_branch_still_writes_the_joint_row
    (i : nat) (s s' : System D) (r : PositionRow D) :
  solvePositionConstraint_joint i s = Some s' →
  readPositionRow s i = Some r →
  let bs := mBallAndSocketJointComponents s in
  let bs' := mBallAndSocketJointComponents s' in
  mI1 bs' = <[i := pos_I1 r]> (mI1 bs)
  ∧ mI2 bs' = <[i := pos_I2 r]> (mI2 bs)
  ∧ mR1World bs' = <[i := pos_r1World r]> (mR1World bs)
  ∧ mR2World bs' = <[i := pos_r2World r]> (mR2World bs)
  ∧ ((dabs (getDeterminant (pos_K r)) >? MACHINE_EPSILON) = false →
     mInverseMassMatrix bs' = <[i := Matrix3x3_zero]> (mInverseMassMatrix bs)
     ∧ mRigidBodyComponents s' = mRigidBodyComponents s).
Proof.
  unfold readPositionRow. intros Hrun Hr.
  destruct (jointIndexOf s i) as [ji|] eqn:Hji; simpl in Hr; [|done].
  destruct (_ !! ji) as [technique|] eqn:Ht; simpl in Hr; [|done].
  case_decide as Hnlgs; [|done]. invert_writes.
  revert Hrun. unfold solvePositionConstraint_joint.
  rewrite Hji. simpl. rewrite Ht. simpl.
  rewrite decide_False by (by intros ?).
  rewrite_hyps. simpl. rewrite_hyps. simpl.
  rewrite effectiveMass_massMatrixExpr.
  unfold pos_K, pos_I1, pos_I2, pos_r1World, pos_r2World. simpl.
  intros Hrun. invert_writes; simpl; by split_and!.
Qed.
End SingularBranch.

Section SingularBranchWitness.
#[local] Existing Instance float_decimal.

(** C9 on IEEE doubles, at the static pair of scenario 3: K is the zero
    matrix, the bodies are not touched, and the cached [r1World] of the joint
    changes from (0,0,0) to (1,0,0). *)
Lemma C9_witness :
  ∃ (s' : System float) (r : PositionRow float),
    solvePositionConstraint_joint 0 (staticPair NON_LINEAR_GAUSS_SEIDEL) = Some s'
    ∧ readPositionRow (staticPair NON_LINEAR_GAUSS_SEIDEL) 0 = Some r
    ∧ (dabs (getDeterminant (pos_K r)) >? MACHINE_EPSILON)%dec = false
    ∧ mRigidBodyComponents s' = mRigidBodyComponents (staticPair NON_LINEAR_GAUSS_SEIDEL)
    ∧ mInverseMassMatrix (mBallAndSocketJointComponents s') = [Matrix3x3_zero]
    ∧ mR1World (mBallAndSocketJointComponents (staticPair NON_LINEAR_GAUSS_SEIDEL))
      = [mkVector3 0 0 0]%float
    ∧ mR1World (mBallAndSocketJointComponents s') = [mkVector3 1 0 0]%float.
Proof.
  destruct (solvePositionConstraint_joint 0 (staticPair NON_LINEAR_GAUSS_SEIDEL))
    as [s'|] eqn:Hrun; [|vm_compute in Hrun; discriminate].
  destruct (readPositionRow (staticPair NON_LINEAR_GAUSS_SEIDEL) 0)
    as [r|] eqn:Hr; [|vm_compute in Hr; discriminate].
  exists s', r.
  destruct (C9_singular_branch_still_writes_the_joint_row 0 _ s' r Hrun Hr)
    as (_ & _ & HR1 & _ & Hsing).
  assert ((dabs (getDeterminant (pos_K r)) >? MACHINE_EPSILON)%dec = false) as Hdet.
  { vm_compute in Hr. injection Hr as <-. vm_compute. reflexivity. }
  destruct (Hsing Hdet) as [HK Hrb].
  split_and!; [reflexivity | reflexivity | exact Hdet | exact Hrb | | reflexivity |].
  - rewrite HK. reflexivity.
  - rewrite HR1. vm_compute in Hr. injection Hr as <-. vm_compute. reflexivity.
Defined.
End SingularBranchWitness.

(* ------------------------------------------------------------------------- *)
(** ** The legacy [ConstraintSolver] after [cleanup] (claim C10) *)

Section ConstraintSolverFacts.
Context {D : Type}.
Import ConstraintSolver.

Lemma call_keeps_constraintBodies_empty c (s s' : ConstraintSolver.t D) :
  call c s = Some s' → constraintBodies s = ∅ → constraintBodies s' = ∅.
Proof.
  destruct c; simpl; intros Hcall Hempty; simplify_eq; try done.
  - unfold getConstrainedLinearVelocityOfBody, constrainedVelocityAt,
      isConstrainedBody in Hcall.
    rewrite Hempty in Hcall. rewrite decide_False in Hcall by set_solver. done.
  - unfold getConstrainedAngularVelocityOfBody, constrainedVelocityAt,
      isConstrainedBody in Hcall.
    rewrite Hempty in Hcall. rewrite decide_False in Hcall by set_solver. done.
Qed.

Lemma calls_keep_constraintBodies_empty cs (s s' : ConstraintSolver.t D) :
  calls cs s = Some s' → constraintBodies s = ∅ → constraintBodies s' = ∅.
Proof.
  revert s. induction cs as [|c cs IH]; intros s Hrun Hempty; simpl in Hrun.
  - by simplify_eq.
  - destruct (call c s) as [s1|] eqn:Hc; simplify_eq/=.
    eapply IH; [done|]. by eapply call_keeps_constraintBodies_empty.
Qed.

(** C10.  After [cleanup()], and after any further calls that do not
    re-initialize the solver, [isConstrainedBody(b)] is false for every body
    [b], so the [assert] of [getConstrainedLinearVelocityOfBody] and of
    [getConstrainedAngularVelocityOfBody] fails for every body; [cleanup]
    also empties [bodyNumberMapping] and [activeConstraints]. *)
Theorem C10_no_constrained_body_after_cleanup (s : ConstraintSolver.t D) :
  constraintBodies (cleanup s) = ∅
  ∧ bodyNumberMapping (cleanup s) = ∅
  ∧ activeConstraints (cleanup s) = []
  ∧ ∀ cs s', calls cs (cleanup s) = Some s' →
      ∀ body,
        isConstrainedBody s' body = false
        ∧ getConstrainedLinearVelocityOfBody s' body = None
        ∧ getConstrainedAngularVelocityOfBody s' body = None.
Proof.
  split_and!; [done..|]. intros cs s' Hrun body.
  assert (constraintBodies s' = ∅) as Hempty
    by (by eapply calls_keep_constraintBodies_empty).
  assert (isConstrainedBody s' body = false) as Hfalse.
  { unfold isConstrainedBody. rewrite Hempty. by rewrite decide_False by set_solver. }
  unfold getConstrainedLinearVelocityOfBody, getConstrainedAngularVelocityOfBody,
    constrainedVelocityAt.
  by rewrite Hfalse.
Qed.

(** Before [cleanup] a constrained body is found and its velocity read. *)
Example constrained_body_before_cleanup :
  let s := mk [5%positive] 10%N 0%float {[ 3%positive ]} {[ 3%positive := 1%N ]}
              [0; 0; 0; 0; 0; 0; 1; 2; 3; 4; 5; 6]%float in
  isConstrainedBody s 3 = true
  ∧ fst <$> getConstrainedLinearVelocityOfBody s 3 = Some (mkVector3 1 2 3)%float
  ∧ fst <$> getConstrainedAngularVelocityOfBody s 3 = Some (mkVector3 4 5 6)%float
  ∧ isConstrainedBody (cleanup s) 3 = false
  ∧ getConstrainedLinearVelocityOfBody (cleanup s) 3 = None.
Proof. vm_compute. by split_and!. Qed.

End ConstraintSolverFacts.

(* ------------------------------------------------------------------------- *)
(** * Further properties of the kernels and of the legacy solver *)

(* ------------------------------------------------------------------------- *)
(** ** More on the pre-solver: what it caches, resets, keeps and asserts *)

Section PreSolverMore.
Context {D : Type} `{Decimal D}.
Local Open Scope dec_scope.

Lemma initBeforeSolve_joint_other_rows bf i j (s s' : System D) :
  initBeforeSolve_joint bf j s = Some s' → i ≠ j →
  joint_fields s' i = joint_fields s i.
Proof.
  unfold initBeforeSolve_joint. intros Hrun Hne.
  invert_writes; unfold joint_fields; simpl;
    by rewrite ?list_lookup_insert_ne by done.
Qed.

Lemma initBeforeSolve_joint_inputs bf i (s s' : System D) :
  initBeforeSolve_joint bf i s = Some s' →
  mRigidBodyComponents s' = mRigidBodyComponents s
  ∧ mTransformComponents s' = mTransformComponents s
  ∧ mJointComponents s' = mJointComponents s
  ∧ mLocalAnchorPointBody1 (mBallAndSocketJointComponents s')
    = mLocalAnchorPointBody1 (mBallAndSocketJointComponents s)
  ∧ mLocalAnchorPointBody2 (mBallAndSocketJointComponents s')
    = mLocalAnchorPointBody2 (mBallAndSocketJointComponents s).
Proof. unfold initBeforeSolve_joint. intros Hrun. by invert_writes. Qed.

(** The loop body fails on a row one of whose bodies is disabled. *)
Lemma initBeforeSolve_joint_asserts bf i (s : System D) jointIndex body1 body2 c1 c2 :
  jointIndexOf s i = Some jointIndex →
  bodiesOf s jointIndex = Some (body1, body2, c1, c2) →
  rb_mDisabledStartIndex (mRigidBodyComponents s) ≤ c1
  ∨ rb_mDisabledStartIndex (mRigidBodyComponents s) ≤ c2 →
  initBeforeSolve_joint bf i s = None.
Proof.
  intros Hji Hbd Hdis. unfold initBeforeSolve_joint.
  rewrite Hji. simpl. rewrite Hbd. simpl.
  apply bodiesOf_inv in Hbd as (_ & _ & Hm1 & Hm2).
  unfold getIsEntityDisabled. rewrite Hm1, Hm2. simpl.
  destruct Hdis.
  - by rewrite (bool_decide_eq_true_2 (_ ≤ c1)).
  - rewrite (bool_decide_eq_true_2 (_ ≤ c2)) by done. by rewrite orb_true_r.
Qed.

(** A loop one of whose rows fails on every store of the frame fails. *)
Lemma for_each_fails (body : nat → System D → option (System D)) rows i (s : System D) :
  (∀ j t t', body j t = Some t' → frame t t') →
  (∀ t, frame s t → body i t = None) →
  i ∈ rows →
  ∀ t, frame s t → for_each body rows t = None.
Proof.
  intros Hframe Hfail. induction rows as [|j rows IH]; intros Hin t Ht; simpl.
  - by apply elem_of_nil in Hin.
  - destruct (body j t) as [t'|] eqn:Hb; simpl; [|done].
    apply elem_of_cons in Hin as [<-|Hin].
    + by rewrite Hfail in Hb.
    + apply IH; [done|]. eapply frame_trans; [done|]. by eapply Hframe.
Qed.

(** X1.  After [initBeforeSolve] on a well-formed store, every enabled joint row
    [i] caches the world inverse inertia tensors of its two bodies, the two
    anchors rotated by the orientations of the bodies' transforms, and a bias
    that is [(BETA / mTimeStep) · (x2 + r2World − x1 − r1World)] for a
    BAUMGARTE_JOINTS joint and the zero vector for any other joint. *)
Theorem initBeforeSolve_caches_inertia_anchors_and_bias (s : System D) (i : nat) :
  wf_system s →
  i < getNbEnabledComponents (mBallAndSocketJointComponents s) →
  ∃ s' v,
    initBeforeSolve s = Some s'
    ∧ viewJoint s i = Some v
    ∧ mI1 (mBallAndSocketJointComponents s') !! i = Some (jv_I1 v)
    ∧ mI2 (mBallAndSocketJointComponents s') !! i = Some (jv_I2 v)
    ∧ mR1World (mBallAndSocketJointComponents s') !! i
      = Some (q_rotate (jv_q1 v) (jv_anchor1 v))
    ∧ mR2World (mBallAndSocketJointComponents s') !! i
      = Some (q_rotate (jv_q2 v) (jv_anchor2 v))
    ∧ mBiasVector (mBallAndSocketJointComponents s') !! i
      = Some (if decide (jv_technique v = BAUMGARTE_JOINTS)
              then v3_scale (BETA / mTimeStep s)
                     (v3_sub (v3_sub (v3_add (jv_x2 v) (q_rotate (jv_q2 v) (jv_anchor2 v)))
                                     (jv_x1 v))
                             (q_rotate (jv_q1 v) (jv_anchor1 v)))
              else Vector3_zero).
Proof.
  intros Hwf Hlt.
  destruct (initBeforeSolve_spec s Hwf) as (s' & Hrun & _ & _ & Hrows & _).
  destruct (Hrows i Hlt) as (v & Hv & Hfields).
  exists s', v. unfold joint_fields, spec_fields in Hfields.
  injection Hfields as HR1 HR2 HI1 HI2 _ HB _.
  split_and!; done.
Qed.

(** X2.  [initBeforeSolve] on a well-formed store: with warm starting active the
    impulse column is returned as it was; with warm starting off the impulse
    of every enabled row is zero and that of every other row is kept. *)
Theorem initBeforeSolve_resets_impulses_unless_warm_starting (s : System D) :
  wf_system s →
  ∃ s',
    initBeforeSolve s = Some s'
    ∧ (mIsWarmStartingActive s = true →
       mImpulse (mBallAndSocketJointComponents s') = mImpulse (mBallAndSocketJointComponents s))
    ∧ (mIsWarmStartingActive s = false →
       ∀ i, (i < getNbEnabledComponents (mBallAndSocketJointComponents s) →
             mImpulse (mBallAndSocketJointComponents s') !! i = Some Vector3_zero)
            ∧ (getNbEnabledComponents (mBallAndSocketJointComponents s) ≤ i →
               mImpulse (mBallAndSocketJointComponents s') !! i
               = mImpulse (mBallAndSocketJointComponents s) !! i)).
Proof.
  intros Hwf.
  destruct (initBeforeSolve_spec s Hwf) as (s' & Hrun & _ & _ & Hrows & Hrest).
  exists s'. split; [done|]. split.
  - intros Hwarm. apply list_eq. intros i.
    destruct (decide (i < getNbEnabledComponents (mBallAndSocketJointComponents s)))
      as [Hlt|Hge].
    + destruct (Hrows i Hlt) as (v & _ & Hfields).
      unfold joint_fields, spec_fields in Hfields. rewrite Hwarm in Hfields.
      by injection Hfields.
    + specialize (Hrest i ltac:(lia)). unfold joint_fields in Hrest.
      by injection Hrest.
  - intros Hcold i. split.
    + intros Hlt. destruct (Hrows i Hlt) as (v & _ & Hfields).
      unfold joint_fields, spec_fields in Hfields. rewrite Hcold in Hfields.
      by injection Hfields.
    + intros Hge. specialize (Hrest i Hge). unfold joint_fields in Hrest.
      by injection Hrest.
Qed.

(** X3.  A system fresh from the constructor warm-starts: on a well-formed store
    its [initBeforeSolve] returns and keeps every accumulated impulse. *)
Theorem new_system_keeps_impulses rb tc jc (bs : BallAndSocketJointComponents D) :
  wf_system (SolveBallAndSocketJointSystem_new rb tc jc bs) →
  ∃ s', initBeforeSolve (SolveBallAndSocketJointSystem_new rb tc jc bs) = Some s'
        ∧ mImpulse (mBallAndSocketJointComponents s') = mImpulse bs.
Proof.
  intros Hwf.
  destruct (initBeforeSolve_spec _ Hwf) as (s' & Hrun & _ & _ & Hrows & Hrest).
  exists s'. split; [done|]. apply list_eq. intros i.
  destruct (decide (i < getNbEnabledComponents bs)) as [Hlt|Hge].
  - destruct (Hrows i Hlt) as (v & _ & Hfields).
    unfold joint_fields, spec_fields in Hfields. simpl in Hfields.
    by injection Hfields.
  - specialize (Hrest i ltac:(simpl; lia)). unfold joint_fields in Hrest.
    by injection Hrest.
Qed.

(** X4.  Whenever [initBeforeSolve] returns, the rigid-body, transform and joint
    families and the local anchors are the ones it was given, and so are all
    seven derived fields of every joint row that is not enabled. *)
Theorem initBeforeSolve_writes_enabled_joint_rows_only (s s' : System D) :
  initBeforeSolve s = Some s' →
  mRigidBodyComponents s' = mRigidBodyComponents s
  ∧ mTransformComponents s' = mTransformComponents s
  ∧ mJointComponents s' = mJointComponents s
  ∧ mLocalAnchorPointBody1 (mBallAndSocketJointComponents s')
    = mLocalAnchorPointBody1 (mBallAndSocketJointComponents s)
  ∧ mLocalAnchorPointBody2 (mBallAndSocketJointComponents s')
    = mLocalAnchorPointBody2 (mBallAndSocketJointComponents s)
  ∧ ∀ i, getNbEnabledComponents (mBallAndSocketJointComponents s) ≤ i →
      joint_fields s' i = joint_fields s i.
Proof.
  unfold initBeforeSolve.
  set (n := getNbEnabledComponents (mBallAndSocketJointComponents s)).
  generalize (BETA / mTimeStep s). intros bf. revert s'.
  apply (for_each_rel (initBeforeSolve_joint bf)
           (λ t t', mRigidBodyComponents t' = mRigidBodyComponents t
                    ∧ mTransformComponents t' = mTransformComponents t
                    ∧ mJointComponents t' = mJointComponents t
                    ∧ mLocalAnchorPointBody1 (mBallAndSocketJointComponents t')
                      = mLocalAnchorPointBody1 (mBallAndSocketJointComponents t)
                    ∧ mLocalAnchorPointBody2 (mBallAndSocketJointComponents t')
                      = mLocalAnchorPointBody2 (mBallAndSocketJointComponents t)
                    ∧ ∀ i, n ≤ i → joint_fields t' i = joint_fields t i)).
  - intros t. by split_and!.
  - intros t1 t2 t3 (?&?&?&?&?&H12) (?&?&?&?&?&H23).
    split_and!; try congruence. intros i Hi. rewrite H23, H12; done.
  - intros j t t' Hj%elem_of_seq Hstep.
    destruct (initBeforeSolve_joint_inputs _ _ _ _ Hstep) as (?&?&?&?&?).
    split_and!; try done. intros i Hi.
    eapply initBeforeSolve_joint_other_rows; [done|lia].
Qed.

(** X5.  An enabled joint one of whose bodies is disabled trips the [assert] of
    [initBeforeSolve]: the pass does not return. *)
Theorem initBeforeSolve_asserts_enabled_bodies (s : System D) (i : nat)
    jointIndex body1 body2 c1 c2 :
  i < getNbEnabledComponents (mBallAndSocketJointComponents s) →
  jointIndexOf s i = Some jointIndex →
  bodiesOf s jointIndex = Some (body1, body2, c1, c2) →
  rb_mDisabledStartIndex (mRigidBodyComponents s) ≤ c1
  ∨ rb_mDisabledStartIndex (mRigidBodyComponents s) ≤ c2 →
  initBeforeSolve s = None.
Proof.
  intros Hlt Hji Hbd Hdis. unfold initBeforeSolve.
  apply (for_each_fails _ _ i s).
  - intros j t t'. apply initBeforeSolve_joint_frame.
  - intros t Hf. eapply (initBeforeSolve_joint_asserts _ i t jointIndex body1 body2 c1 c2).
    + by rewrite (frame_jointIndexOf _ _ _ Hf).
    + by rewrite (frame_bodiesOf _ _ _ Hf).
    + destruct Hf as (Hi & _ & _). unfold inputs in Hi.
      injection Hi as _ _ _ _ _ Hstart _ _ _ _ _ _ _ _ _ _ _. by rewrite Hstart.
  - apply elem_of_seq. lia.
  - apply frame_refl.
Qed.
End PreSolverMore.

Section PreSolverMoreWitnesses.
#[local] Existing Instance float_decimal.

(** On IEEE doubles, at the pendulum of scenario 2 with its anchor half a
    unit off: the bias is [(0.2 / (1/16)) · (0, -1/2, 0)]. *)
Lemma initBeforeSolve_caches_inertia_anchors_and_bias_witness :
  ∃ s' : System float,
    initBeforeSolve (twoBodies (staticBody Vector3_zero)
                       (dynamicBody (mkVector3 0 (-1) 0)%float Vector3_ones Vector3_zero)
                       Vector3_zero (mkVector3 0 0.5 0)%float
                       BAUMGARTE_JOINTS true Vector3_zero Matrix3x3_zero) = Some s'
    ∧ mR2World (mBallAndSocketJointComponents s') !! 0 = Some (mkVector3 0 0.5 0)%float
    ∧ mBiasVector (mBallAndSocketJointComponents s') !! 0
      = Some (mkVector3 0 (-0x1.999999999999ap+0) 0)%float.
Proof.
  destruct (initBeforeSolve_caches_inertia_anchors_and_bias
              (twoBodies (staticBody Vector3_zero)
                 (dynamicBody (mkVector3 0 (-1) 0)%float Vector3_ones Vector3_zero)
                 Vector3_zero (mkVector3 0 0.5 0)%float
                 BAUMGARTE_JOINTS true Vector3_zero Matrix3x3_zero) 0)
    as (s' & v & Hrun & Hv & _ & _ & _ & HR2 & HB);
    [apply twoBodies_wf | vm_compute; lia |].
  exists s'. split; [exact Hrun|].
  vm_compute in Hv. injection Hv as <-.
  split; [rewrite HR2 | rewrite HB]; vm_compute; reflexivity.
Defined.

(** On IEEE doubles: with warm starting off the stored impulse (1,2,3) of
    the pendulum is reset. *)
Lemma initBeforeSolve_resets_impulses_unless_warm_starting_witness :
  ∃ s' : System float,
    initBeforeSolve (twoBodies (staticBody Vector3_zero)
                       (dynamicBody (mkVector3 0 (-1) 0)%float Vector3_ones Vector3_zero)
                       Vector3_zero (mkVector3 0 1 0)%float
                       BAUMGARTE_JOINTS false (mkVector3 1 2 3)%float Matrix3x3_zero)
    = Some s'
    ∧ mImpulse (mBallAndSocketJointComponents s') !! 0 = Some Vector3_zero.
Proof.
  destruct (initBeforeSolve_resets_impulses_unless_warm_starting
              (twoBodies (staticBody Vector3_zero)
                 (dynamicBody (mkVector3 0 (-1) 0)%float Vector3_ones Vector3_zero)
                 Vector3_zero (mkVector3 0 1 0)%float
                 BAUMGARTE_JOINTS false (mkVector3 1 2 3)%float Matrix3x3_zero))
    as (s' & Hrun & _ & Hcold); [apply twoBodies_wf|].
  exists s'. split; [exact Hrun|].
  apply (Hcold eq_refl 0). vm_compute. lia.
Defined.

(** On IEEE doubles: a system built by the constructor over the families
    of the pendulum, with a stored impulse (1,2,3), keeps that impulse. *)
Lemma new_system_keeps_impulses_witness :
  let s := twoBodies (staticBody Vector3_zero)
             (dynamicBody (mkVector3 0 (-1) 0)%float Vector3_ones Vector3_zero)
             Vector3_zero (mkVector3 0 1 0)%float
             NON_LINEAR_GAUSS_SEIDEL false (mkVector3 1 2 3)%float Matrix3x3_zero in
  ∃ s' : System float,
    initBeforeSolve
      (SolveBallAndSocketJointSystem_new (mRigidBodyComponents s) (mTransformComponents s)
         (mJointComponents s) (mBallAndSocketJointComponents s)) = Some s'
    ∧ mImpulse (mBallAndSocketJointComponents s') = [mkVector3 1 2 3]%float.
Proof.
  intros s.
  destruct (new_system_keeps_impulses (mRigidBodyComponents s) (mTransformComponents s)
              (mJointComponents s) (mBallAndSocketJointComponents s))
    as (s' & Hrun & Himp).
  - unfold wf_system. simpl. split_and!; [repeat constructor..|].
    intros i Hi. assert (i = 0) as -> by lia.
    exists 0, 1%N, 2%N, 0, 1. split_and!; try done; simpl; try lia; by eexists.
  - exists s'. split; [exact Hrun | exact Himp].
Defined.

(** On IEEE doubles, at the stretched pendulum. *)
Lemma initBeforeSolve_writes_enabled_joint_rows_only_witness :
  ∃ s' : System float,
    initBeforeSolve (stretchedPendulum Vector3_ones Vector3_zero) = Some s'
    ∧ mRigidBodyComponents s'
      = mRigidBodyComponents (stretchedPendulum Vector3_ones Vector3_zero).
Proof.
  destruct (initBeforeSolve (stretchedPendulum Vector3_ones Vector3_zero))
    as [s'|] eqn:Hrun; [|vm_compute in Hrun; discriminate].
  exists s'. split; [reflexivity|].
  by destruct (initBeforeSolve_writes_enabled_joint_rows_only _ _ Hrun) as (? & _).
Defined.

(** On IEEE doubles: the pendulum whose hanging body (row 1) is disabled. *)
Lemma initBeforeSolve_asserts_enabled_bodies_witness :
  initBeforeSolve
    (disableBodiesFrom 1 (pendulum BAUMGARTE_JOINTS Vector3_ones Vector3_zero))
  = None.
Proof.
  apply (initBeforeSolve_asserts_enabled_bodies
           (disableBodiesFrom 1 (pendulum BAUMGARTE_JOINTS Vector3_ones Vector3_zero))
           0 0 1%N 2%N 0 1).
  - vm_compute. lia.
  - reflexivity.
  - reflexivity.
  - right. vm_compute. lia.
Defined.
End PreSolverMoreWitnesses.

(* ------------------------------------------------------------------------- *)
(** ** The warm start, and what the velocity passes keep *)

Section WarmStart.
Context {D : Type} `{Decimal D}.

Lemma warmstart_joint_keeps i (s s' : System D) :
  warmstart_joint i s = Some s' →
  mBallAndSocketJointComponents s' = mBallAndSocketJointComponents s ∧ same_poses s s'.
Proof.
  unfold warmstart_joint. intros Hrun. invert_writes.
  match goal with Ha : applyImpulse _ _ _ _ _ _ _ _ = Some _ |- _ =>
    destruct (applyImpulse_frame _ _ _ _ _ _ _ _ _ Ha s) as (_ & Hx & Hq) end.
  by split.
Qed.

Lemma solveVelocityConstraint_joint_keeps n i (s s' : System D) :
  i < n → solveVelocityConstraint_joint i s = Some s' → velocity_pass_keeps n s s'.
Proof.
  unfold solveVelocityConstraint_joint. intros Hlt Hrun. invert_writes.
  match goal with Ha : applyImpulse _ _ _ _ _ _ _ _ = Some _ |- _ =>
    destruct (applyImpulse_frame _ _ _ _ _ _ _ _ _ Ha s) as (_ & Hx & Hq) end.
  split_and!; [by split | done |].
  intros j Hj. simpl. rewrite list_lookup_insert_ne; [done|lia].
Qed.

Lemma velocity_pass_keeps_refl n (s : System D) : velocity_pass_keeps n s s.
Proof. by repeat split. Qed.

Lemma velocity_pass_keeps_trans n (s1 s2 s3 : System D) :
  velocity_pass_keeps n s1 s2 → velocity_pass_keeps n s2 s3 → velocity_pass_keeps n s1 s3.
Proof.
  intros ([] & Hg1 & Hp1) ([] & Hg2 & Hp2).
  split_and!; [split; congruence | congruence |].
  intros j Hj. rewrite Hp2, Hp1; done.
Qed.


(** X7.  Whenever a [warmstart] pass returns, the whole ball-and-socket family
    (accumulated impulses included) and the constrained positions and
    orientations are the ones it was given. *)
Theorem warmstart_writes_velocities_only (s s' : System D) :
  warmstart s = Some s' →
  mBallAndSocketJointComponents s' = mBallAndSocketJointComponents s
  ∧ mConstrainedPositions (mRigidBodyComponents s')
    = mConstrainedPositions (mRigidBodyComponents s)
  ∧ mConstrainedOrientations (mRigidBodyComponents s')
    = mConstrainedOrientations (mRigidBodyComponents s).
Proof.
  unfold warmstart. revert s'.
  apply (for_each_rel warmstart_joint
           (λ t t', mBallAndSocketJointComponents t' = mBallAndSocketJointComponents t
                    ∧ mConstrainedPositions (mRigidBodyComponents t')
                      = mConstrainedPositions (mRigidBodyComponents t)
                    ∧ mConstrainedOrientations (mRigidBodyComponents t')
                      = mConstrainedOrientations (mRigidBodyComponents t))).
  - done.
  - intros t1 t2 t3 (?&?&?) (?&?&?). split_and!; congruence.
  - intros i t t' _ Hstep.
    by destruct (warmstart_joint_keeps i t t' Hstep) as (? & ? & ?).
Qed.

(** X8.  Whatever the number of [solveVelocityConstraint] passes, when they
    return: the constrained positions and orientations, the cached [r1World],
    [r2World], [I1], [I2], [inverseMassMatrix] and [biasVector] columns, and
    the impulse of every joint row that is not enabled, are the ones the
    passes started from. *)
Theorem solveVelocityConstraint_writes_velocities_and_enabled_impulses_only
    (n : nat) (s s' : System D) :
  iterate n solveVelocityConstraint s = Some s' →
  same_poses s s'
  ∧ joint_geometry s' = joint_geometry s
  ∧ ∀ j, getNbEnabledComponents (mBallAndSocketJointComponents s) ≤ j →
      mImpulse (mBallAndSocketJointComponents s') !! j
      = mImpulse (mBallAndSocketJointComponents s) !! j.
Proof.
  intros Hrun.
  set (nb := getNbEnabledComponents (mBallAndSocketJointComponents s)).
  assert (∀ t t', iterate n solveVelocityConstraint t = Some t' →
                  frame s t → frame s t' ∧ velocity_pass_keeps nb t t') as Hall.
  { apply (iterate_rel solveVelocityConstraint
             (λ t t', frame s t → frame s t' ∧ velocity_pass_keeps nb t t')).
    - intros t Hf. split; [done | apply velocity_pass_keeps_refl].
    - intros t1 t2 t3 H12 H23 Hf1.
      destruct (H12 Hf1) as [Hf2 Hk12]. destruct (H23 Hf2) as [Hf3 Hk23].
      split; [done|]. by eapply velocity_pass_keeps_trans.
    - intros t t' Hpass Hf.
      assert (frame t t') as Hf' by
        (eapply pass_frame; [apply solveVelocityConstraint_joint_frame | exact Hpass]).
      split; [by eapply frame_trans|].
      revert Hpass. unfold solveVelocityConstraint. rewrite (frame_nb _ _ Hf). fold nb.
      clear Hf'. revert t'.
      apply (for_each_rel solveVelocityConstraint_joint (velocity_pass_keeps nb));
        [apply velocity_pass_keeps_refl | apply velocity_pass_keeps_trans |].
      intros i u u' Hi%elem_of_seq. apply solveVelocityConstraint_joint_keeps. lia. }
  destruct (Hall s s' Hrun (frame_refl s)) as [_ Hk]. exact Hk.
Qed.
End WarmStart.

Section WarmStartWitnesses.
#[local] Existing Instance float_decimal.


(** On IEEE doubles: the warm start of the same pendulum keeps the joint
    family and the poses. *)
Lemma warmstart_writes_velocities_only_witness :
  ∃ s' : System float,
    warmstart (warmPendulum Vector3_zero (mkVector3 1 0 0)%float Matrix3x3_zero) = Some s'
    ∧ mBallAndSocketJointComponents s'
      = mBallAndSocketJointComponents (warmPendulum Vector3_zero (mkVector3 1 0 0)%float Matrix3x3_zero)
    ∧ mConstrainedLinearVelocities (mRigidBodyComponents s')
      ≠ mConstrainedLinearVelocities
          (mRigidBodyComponents (warmPendulum Vector3_zero (mkVector3 1 0 0)%float Matrix3x3_zero)).
Proof.
  destruct (warmstart (warmPendulum Vector3_zero (mkVector3 1 0 0)%float Matrix3x3_zero))
    as [s'|] eqn:Hrun; [|vm_compute in Hrun; discriminate].
  exists s'. split; [reflexivity|]. split.
  - by destruct (warmstart_writes_velocities_only _ _ Hrun) as (? & _).
  - vm_compute in Hrun. injection Hrun as <-. vm_compute. discriminate.
Defined.

(** On IEEE doubles: three velocity passes on the pendulum falling at
    (1/2, -1/4, 0) change its velocity and keep poses and cached geometry. *)
Lemma solveVelocityConstraint_writes_velocities_and_enabled_impulses_only_witness :
  ∃ s' : System float,
    iterate 3 solveVelocityConstraint
      (twoBodies (staticBody Vector3_zero)
         (dynamicBody (mkVector3 0 (-1) 0)%float Vector3_ones (mkVector3 0.5 (-0.25) 0)%float)
         Vector3_zero (mkVector3 0 1 0)%float
         BAUMGARTE_JOINTS true Vector3_zero Matrix3x3_identity) = Some s'
    ∧ same_poses
        (twoBodies (staticBody Vector3_zero)
           (dynamicBody (mkVector3 0 (-1) 0)%float Vector3_ones
              (mkVector3 0.5 (-0.25) 0)%float)
           Vector3_zero (mkVector3 0 1 0)%float
           BAUMGARTE_JOINTS true Vector3_zero Matrix3x3_identity) s'
    ∧ mImpulse (mBallAndSocketJointComponents s') ≠ [Vector3_zero].
Proof.
  destruct (iterate 3 solveVelocityConstraint
              (twoBodies (staticBody Vector3_zero)
                 (dynamicBody (mkVector3 0 (-1) 0)%float Vector3_ones
                    (mkVector3 0.5 (-0.25) 0)%float)
                 Vector3_zero (mkVector3 0 1 0)%float
                 BAUMGARTE_JOINTS true Vector3_zero Matrix3x3_identity))
    as [s'|] eqn:Hrun; [|vm_compute in Hrun; discriminate].
  exists s'. split; [reflexivity|]. split.
  - by destruct (solveVelocityConstraint_writes_velocities_and_enabled_impulses_only
                   3 _ _ Hrun) as (? & _).
  - vm_compute in Hrun. injection Hrun as <-. vm_compute. discriminate.
Defined.
End WarmStartWitnesses.

(* ------------------------------------------------------------------------- *)
(** ** Bodies no enabled joint is attached to *)

Section Unattached.
Context {D : Type} `{Decimal D}.

Lemma applyImpulse_other_rows P r1 r2 i1 i2 c1 c2 (rb rb' : RigidBodyComponents D) b :
  applyImpulse P r1 r2 i1 i2 c1 c2 rb = Some rb' → b ≠ c1 → b ≠ c2 →
  mConstrainedLinearVelocities rb' !! b = mConstrainedLinearVelocities rb !! b
  ∧ mConstrainedAngularVelocities rb' !! b = mConstrainedAngularVelocities rb !! b
  ∧ mConstrainedPositions rb' = mConstrainedPositions rb
  ∧ mConstrainedOrientations rb' = mConstrainedOrientations rb.
Proof.
  unfold applyImpulse. intros Hrun H1 H2. invert_writes. simpl.
  by rewrite !list_lookup_insert_ne by done.
Qed.

Lemma integrateOrientation_other_rows (a a' : list (Quaternion D)) c w b :
  integrateOrientation a c w = Some a' → b ≠ c → a' !! b = a !! b.
Proof.
  unfold integrateOrientation. intros Hrun Hne.
  destruct (a !! c); simplify_eq/=. by rewrite list_lookup_insert_ne.
Qed.

Lemma warmstart_joint_other_bodies i (t t' : System D) b :
  warmstart_joint i t = Some t' → not_an_end t i b → body_cells t' b = body_cells t b.
Proof.
  unfold warmstart_joint. intros Hrun Hends. invert_writes.
  match goal with
  | Hji : jointIndexOf _ _ = Some _, Hbd : bodiesOf _ _ = Some _ |- _ =>
      destruct (Hends _ _ _ _ _ Hji Hbd) as [Hend1 Hend2]
  end.
  match goal with Ha : applyImpulse _ _ _ _ _ _ _ _ = Some _ |- _ =>
    destruct (applyImpulse_other_rows _ _ _ _ _ _ _ _ _ b Ha Hend1 Hend2) as (Hv & Hw & Hx & Hq)
  end.
  unfold body_cells. simpl. by rewrite Hv, Hw, Hx, Hq.
Qed.

Lemma solveVelocityConstraint_joint_other_bodies i (t t' : System D) b :
  solveVelocityConstraint_joint i t = Some t' → not_an_end t i b →
  body_cells t' b = body_cells t b.
Proof.
  unfold solveVelocityConstraint_joint. intros Hrun Hends. invert_writes.
  match goal with
  | Hji : jointIndexOf _ _ = Some _, Hbd : bodiesOf _ _ = Some _ |- _ =>
      destruct (Hends _ _ _ _ _ Hji Hbd) as [Hend1 Hend2]
  end.
  match goal with Ha : applyImpulse _ _ _ _ _ _ _ _ = Some _ |- _ =>
    destruct (applyImpulse_other_rows _ _ _ _ _ _ _ _ _ b Ha Hend1 Hend2) as (Hv & Hw & Hx & Hq)
  end.
  unfold body_cells. simpl. by rewrite Hv, Hw, Hx, Hq.
Qed.

Lemma solvePositionConstraint_joint_other_bodies i (t t' : System D) b :
  solvePositionConstraint_joint i t = Some t' → not_an_end t i b →
  body_cells t' b = body_cells t b.
Proof.
  unfold solvePositionConstraint_joint. intros Hrun Hends. invert_writes; try done.
  match goal with
  | Hji : jointIndexOf _ _ = Some _, Hbd : bodiesOf _ _ = Some _ |- _ =>
      destruct (Hends _ _ _ _ _ Hji Hbd) as [Hend1 Hend2]
  end.
  repeat match goal with
    | Hq : integrateOrientation _ _ _ = Some _ |- _ =>
        apply (integrateOrientation_other_rows _ _ _ _ b) in Hq; [|done]
    end.
  unfold body_cells. simpl. rewrite !list_lookup_insert_ne by done. by rewrite_hyps.
Qed.

(** A pass over the enabled rows keeps the cells of an unattached body. *)
Lemma pass_other_bodies (body : nat → System D → option (System D)) (s : System D) b :
  (∀ i t t', body i t = Some t' → frame t t') →
  (∀ i t t', body i t = Some t' → not_an_end t i b → body_cells t' b = body_cells t b) →
  ¬ attached s b →
  ∀ rows, Forall (λ i, i < getNbEnabledComponents (mBallAndSocketJointComponents s)) rows →
  ∀ t t', frame s t → for_each body rows t = Some t' →
    body_cells t' b = body_cells t b.
Proof.
  intros Hframe Hbody Hb rows.
  induction rows as [|i rows IH]; intros Hrows t t' Hf Hrun; simpl in Hrun.
  - by simplify_eq.
  - apply Forall_cons in Hrows as [Hi Hrows].
    destruct (body i t) as [t1|] eqn:Hstep; simplify_eq/=.
    rewrite (IH Hrows t1 t'); [| eapply frame_trans; [done | by eapply Hframe] | done].
    apply (Hbody i t t1 Hstep).
    intros ji b1 b2 c1 c2 Hji Hbd.
    rewrite (frame_jointIndexOf _ _ _ Hf) in Hji. rewrite (frame_bodiesOf _ _ _ Hf) in Hbd.
    split; intros ->; apply Hb; exists i, ji, b1, b2, c1, c2; split_and!; auto.
Qed.

Lemma run_op_other_bodies op (s t t' : System D) b :
  ¬ attached s b → frame s t → run_op op t = Some t' → body_cells t' b = body_cells t b.
Proof.
  intros Hb Hf. pose proof (frame_nb _ _ Hf) as Hnb.
  assert (Forall (λ i, i < getNbEnabledComponents (mBallAndSocketJointComponents s))
                 (seq 0 (getNbEnabledComponents (mBallAndSocketJointComponents t)))) as Hrows.
  { apply Forall_forall. intros k Hk%elem_of_seq. lia. }
  destruct op; simpl.
  - unfold initBeforeSolve. intros Hrun.
    eapply (pass_other_bodies _ s b); [..|exact Hrun]; try done.
    + intros. by eapply initBeforeSolve_joint_frame.
    + intros i u u' Hstep _. apply initBeforeSolve_joint_bodies in Hstep.
      unfold body_cells. by rewrite Hstep.
  - unfold warmstart. intros Hrun.
    eapply (pass_other_bodies _ s b); [..|exact Hrun]; try done.
    + intros. by eapply warmstart_joint_frame.
    + intros. by eapply warmstart_joint_other_bodies.
  - unfold solveVelocityConstraint. intros Hrun.
    eapply (pass_other_bodies _ s b); [..|exact Hrun]; try done.
    + intros. by eapply solveVelocityConstraint_joint_frame.
    + intros. by eapply solveVelocityConstraint_joint_other_bodies.
  - unfold solvePositionConstraint. intros Hrun.
    eapply (pass_other_bodies _ s b); [..|exact Hrun]; try done.
    + intros. by eapply solvePositionConstraint_joint_frame.
    + intros. by eapply solvePositionConstraint_joint_other_bodies.
Qed.

(** X9.  Every schedule of [initBeforeSolve], [warmstart],
    [solveVelocityConstraint] and [solvePositionConstraint] passes leaves a
    body row that is not an end of any enabled joint with the constrained
    linear and angular velocity, position and orientation it had. *)
Theorem unattached_bodies_are_never_modified (ops : list SolverOp) (s s' : System D)
    (b : nat) :
  run_ops ops s = Some s' →
  ¬ attached s b →
  body_cells s' b = body_cells s b.
Proof.
  intros Hrun Hb.
  enough (∀ t, frame s t → run_ops ops t = Some s' → body_cells s' b = body_cells t b)
    as Hall by (apply Hall; [apply frame_refl | done]).
  clear Hrun. induction ops as [|op ops IH]; intros t Hf Hrun; simpl in Hrun.
  - by simplify_eq.
  - destruct (run_op op t) as [t1|] eqn:Hop; simplify_eq/=.
    rewrite (IH t1); [| eapply frame_trans; [done | by eapply run_op_frame] | done].
    by eapply run_op_other_bodies.
Qed.
End Unattached.

Section UnattachedWitness.
#[local] Existing Instance float_decimal.

(** On IEEE doubles: a third body, of entity 3 and moving at (1,2,3), next
    to the pendulum of scenario 2; a whole step moves the hanging body and
    leaves the third one alone. *)
Lemma unattached_bodies_are_never_modified_witness :
  ∃ s' : System float,
    run_ops [OpInitBeforeSolve; OpWarmstart; OpSolveVelocityConstraint;
             OpSolvePositionConstraint]
      (addBody 3 (dynamicBody (mkVector3 5 5 5)%float Vector3_ones (mkVector3 1 2 3)%float)
         (pendulum NON_LINEAR_GAUSS_SEIDEL Vector3_ones (mkVector3 0.5 (-0.25) 0)%float))
    = Some s'
    ∧ body_cells s' 2
      = (Some (mkVector3 1 2 3)%float, Some Vector3_zero,
         Some (mkVector3 5 5 5)%float, Some Quaternion_identity)
    ∧ body_cells s' 1
      ≠ body_cells
          (addBody 3 (dynamicBody (mkVector3 5 5 5)%float Vector3_ones
                        (mkVector3 1 2 3)%float)
             (pendulum NON_LINEAR_GAUSS_SEIDEL Vector3_ones
                (mkVector3 0.5 (-0.25) 0)%float)) 1.
Proof.
  destruct (run_ops [OpInitBeforeSolve; OpWarmstart; OpSolveVelocityConstraint;
                     OpSolvePositionConstraint]
              (addBody 3 (dynamicBody (mkVector3 5 5 5)%float Vector3_ones
                            (mkVector3 1 2 3)%float)
                 (pendulum NON_LINEAR_GAUSS_SEIDEL Vector3_ones
                    (mkVector3 0.5 (-0.25) 0)%float)))
    as [s'|] eqn:Hrun; [|vm_compute in Hrun; discriminate].
  exists s'. split; [reflexivity|]. split.
  - rewrite (unattached_bodies_are_never_modified _ _ _ 2 Hrun); [reflexivity|].
    intros (i & ji & b1 & b2 & c1 & c2 & Hi & Hji & Hbd & Hor).
    assert (i = 0) as -> by (vm_compute in Hi; lia).
    vm_compute in Hji. injection Hji as <-.
    vm_compute in Hbd. injection Hbd as <- <- <- <-. lia.
  - vm_compute in Hrun. injection Hrun as <-. vm_compute. discriminate.
Defined.
End UnattachedWitness.

(* ------------------------------------------------------------------------- *)
(** ** What one velocity update achieves *)

Section SelfJoint.
Context {D : Type} `{Decimal D}.

(** Two [+=] on the one cell [c]. *)
Lemma bump_bump_same (col : list (Vector3 D)) c d1 d2 v :
  col !! c = Some v →
  bump (bump col c d1) c d2 = <[c := v3_add (v3_add v d1) d2]> col.
Proof.
  intros Hv. rewrite (bump_lookup _ _ _ _ Hv).
  erewrite bump_lookup by (apply list_lookup_insert_eq; by eapply lookup_lt_Some).
  apply list_insert_insert_eq.
Qed.

(** X13.  A joint whose two ends are the same body row: the references [v1]
    and [v2] (and [w1], [w2]) alias one cell, and the warm start and the
    velocity update both add to it the increment of body 1 and then the
    increment of body 2, [v ← (v + m⁻¹·lock ⊙ (−P)) + m⁻¹·lock ⊙ P] and
    [w ← (w + angLock ⊙ (I1·(P × r1World))) + angLock ⊙ (I2·(−(P × r2World)))],
    with [P] the accumulated impulse for the warm start and [Δλ] for the
    velocity update. *)
Theorem self_joint_adds_both_increments_to_one_cell (i : nat) (s : System D)
    (r : VelocityRow D) :
  readVelocityRow s i = Some r →
  vr_c1 r = vr_c2 r →
  let c := vr_c1 r in
  let v := mConstrainedLinearVelocities (mRigidBodyComponents s) in
  let w := mConstrainedAngularVelocities (mRigidBodyComponents s) in
  ∃ s1 s2,
    warmstart_joint i s = Some s1
    ∧ solveVelocityConstraint_joint i s = Some s2
    ∧ mConstrainedLinearVelocities (mRigidBodyComponents s1)
      = <[c := v3_add (v3_add (vr_v1 r) (spec_dv1 r (vr_impulse r)))
                      (spec_dv2 r (vr_impulse r))]> v
    ∧ mConstrainedAngularVelocities (mRigidBodyComponents s1)
      = <[c := v3_add (v3_add (vr_w1 r) (spec_dw1 r (vr_impulse r)))
                      (spec_dw2 r (vr_impulse r))]> w
    ∧ mConstrainedLinearVelocities (mRigidBodyComponents s2)
      = <[c := v3_add (v3_add (vr_v1 r) (spec_dv1 r (spec_deltaLambda r)))
                      (spec_dv2 r (spec_deltaLambda r))]> v
    ∧ mConstrainedAngularVelocities (mRigidBodyComponents s2)
      = <[c := v3_add (v3_add (vr_w1 r) (spec_dw1 r (spec_deltaLambda r)))
                      (spec_dw2 r (spec_deltaLambda r))]> w.
Proof.
  intros Hr Heq. simpl.
  pose proof (readVelocityRow_lookups s i r Hr) as Hl. simpl in Hl.
  destruct Hl as (Hv1 & _ & Hw1 & _).
  eexists _, _.
  split; [by apply warmstart_joint_read|].
  split; [by rewrite solveVelocityConstraint_joint_spec, Hr|].
  simpl. rewrite <- Heq.
  by rewrite !(bump_bump_same _ _ _ _ _ Hv1), !(bump_bump_same _ _ _ _ _ Hw1).
Qed.
End SelfJoint.

Section VelocityUpdateOnDoubles.
#[local] Existing Instance float_decimal.
Local Open Scope float_scope.

(** X10.  On doubles, a joint row whose constraint velocity already is the
    target — [−Jv − biasVector] computes to a zero vector — with a finite
    [inverseMassMatrix] and finite factors on the way of the impulse: every
    component of [Δλ] is a zero, the velocity update of the row returns, and
    it leaves the accumulated impulses and the two velocity columns as they
    were up to the sign of zeros, and everything else as it was, whatever the
    lock factors. *)
Theorem satisfied_velocity_constraint_is_left_alone (i : nat) (s : System float)
    (r : VelocityRow float) :
  readVelocityRow s i = Some r →
  v3_all fzero (spec_rhs r) = true →
  m3_all ffinite (vr_inverseMassMatrix r) = true →
  finite_factors r = true →
  v3_all fzero (spec_deltaLambda r) = true
  ∧ ∃ s', solveVelocityConstraint_joint i s = Some s' ∧ same_up_to_zero_signs s s'.
Proof.
  intros Hr Hrhs HM Hf.
  assert (v3_all fzero (spec_deltaLambda r) = true) as HP
    by (by apply m3_mulv_zero_r).
  split; [done|]. exists (spec_velocityUpdate i r s).
  split; [by rewrite solveVelocityConstraint_joint_spec, Hr|].
  by apply zero_deltaLambda_update.
Qed.

(** Two bodies moving together: the constraint is satisfied, [Δλ] is a zero
    vector although the cached effective mass is not zero. *)
Lemma satisfied_velocity_constraint_is_left_alone_witness :
  ∃ r,
    readVelocityRow driftingPair 0 = Some r
    ∧ vr_v1 r = mkVector3 1 2 3
    ∧ v3_all fzero (spec_deltaLambda r) = true
    ∧ ∃ s', solveVelocityConstraint_joint 0 driftingPair = Some s'
            ∧ same_up_to_zero_signs driftingPair s'.
Proof.
  eexists. split; [vm_compute; reflexivity|]. split; [reflexivity|].
  apply satisfied_velocity_constraint_is_left_alone; vm_compute; reflexivity.
Defined.

(** A body of mass 1 joined to itself, moving at 0.1 along X, with the
    accumulated impulse 0.7: the warm start adds [-0.7] and then [0.7] to
    the one cell, and on doubles leaves 0.099999999999999978 there. *)
Lemma self_joint_adds_both_increments_to_one_cell_witness :
  ∃ r s1 s2,
    readVelocityRow selfJoinedBody 0 = Some r
    ∧ warmstart_joint 0 selfJoinedBody = Some s1
    ∧ solveVelocityConstraint_joint 0 selfJoinedBody = Some s2
    ∧ mConstrainedLinearVelocities (mRigidBodyComponents s1)
      = <[vr_c1 r := v3_add (v3_add (vr_v1 r) (spec_dv1 r (vr_impulse r)))
                            (spec_dv2 r (vr_impulse r))]>
          (mConstrainedLinearVelocities (mRigidBodyComponents selfJoinedBody))
    ∧ mConstrainedLinearVelocities (mRigidBodyComponents selfJoinedBody) !! 0%nat
      = Some (mkVector3 0x1.999999999999ap-4 0 0)
    ∧ mConstrainedLinearVelocities (mRigidBodyComponents s1) !! 0%nat
      = Some (mkVector3 0x1.9999999999998p-4 0 0).
Proof.
  assert (∃ r, readVelocityRow selfJoinedBody 0 = Some r) as [r Hr]
    by (eexists; vm_compute; reflexivity).
  pose proof Hr as Hr'. vm_compute in Hr'. injection Hr' as <-.
  destruct (self_joint_adds_both_increments_to_one_cell 0 selfJoinedBody _ Hr eq_refl)
    as (s1 & s2 & Hs1 & Hs2 & Hlin & _).
  eexists _, s1, s2. split_and!; [exact Hr | exact Hs1 | exact Hs2 | exact Hlin | reflexivity |].
  rewrite Hlin. vm_compute. reflexivity.
Defined.
End VelocityUpdateOnDoubles.

(* ------------------------------------------------------------------------- *)
(** ** More on the position solver *)

Section PositionMore.
Context {D : Type} `{Decimal D}.

Lemma solvePositionConstraint_joint_skips i (s : System D) jointIndex technique :
  jointIndexOf s i = Some jointIndex →
  mPositionCorrectionTechniques (mJointComponents s) !! jointIndex = Some technique →
  technique ≠ NON_LINEAR_GAUSS_SEIDEL →
  solvePositionConstraint_joint i s = Some s.
Proof.
  intros Hji Ht Hne. unfold solvePositionConstraint_joint.
  rewrite Hji. simpl. rewrite Ht. simpl. by rewrite decide_True.
Qed.

Lemma solvePositionConstraint_joint_keeps i (s s' : System D) :
  solvePositionConstraint_joint i s = Some s' → position_pass_keeps s s'.
Proof.
  unfold solvePositionConstraint_joint. intros Hrun. invert_writes; by split.
Qed.

(** X15.  When no enabled joint uses NON_LINEAR_GAUSS_SEIDEL, any number of
    [solvePositionConstraint] passes returns the store it was given: not even
    the cached fields of a joint are recomputed. *)
Theorem solvePositionConstraint_skips_other_techniques (n : nat) (s : System D) :
  no_position_correction s →
  iterate n solvePositionConstraint s = Some s.
Proof.
  intros Hskip.
  assert (solvePositionConstraint s = Some s) as Hpass.
  { unfold solvePositionConstraint. apply for_each_fixed.
    intros i Hi%elem_of_seq. destruct (Hskip i) as (ji & t & Hji & Ht & Hne); [lia|].
    by eapply solvePositionConstraint_joint_skips. }
  induction n as [|n IH]; simpl; [done|]. by rewrite Hpass.
Qed.

(** X16.  Whatever the number of [solvePositionConstraint] passes, when they
    return, the accumulated impulse and the bias of every joint are the ones
    the passes started from. *)
Theorem solvePositionConstraint_keeps_impulses_and_biases (n : nat) (s s' : System D) :
  iterate n solvePositionConstraint s = Some s' →
  mImpulse (mBallAndSocketJointComponents s') = mImpulse (mBallAndSocketJointComponents s)
  ∧ mBiasVector (mBallAndSocketJointComponents s')
    = mBiasVector (mBallAndSocketJointComponents s).
Proof.
  revert s s'. apply (iterate_rel solvePositionConstraint position_pass_keeps).
  - by split.
  - intros t1 t2 t3 [] []. split; congruence.
  - intros t t'. unfold solvePositionConstraint.
    apply for_each_rel.
    + by split.
    + intros t1 t2 t3 [] []. split; congruence.
    + intros i u u' _. apply solvePositionConstraint_joint_keeps.
Qed.
End PositionMore.

Section PositionMoreWitnesses.
#[local] Existing Instance float_decimal.

(** On IEEE doubles: the stretched pendulum with a BAUMGARTE_JOINTS joint
    is returned by four position passes. *)
Lemma solvePositionConstraint_skips_other_techniques_witness :
  iterate 4 solvePositionConstraint
    (twoBodies (staticBody Vector3_zero)
       (dynamicBody (mkVector3 0 (-1) 0)%float Vector3_ones Vector3_zero)
       Vector3_zero (mkVector3 0 0.5 0)%float
       BAUMGARTE_JOINTS true Vector3_zero Matrix3x3_zero)
  = Some (twoBodies (staticBody Vector3_zero)
            (dynamicBody (mkVector3 0 (-1) 0)%float Vector3_ones Vector3_zero)
            Vector3_zero (mkVector3 0 0.5 0)%float
            BAUMGARTE_JOINTS true Vector3_zero Matrix3x3_zero).
Proof.
  apply solvePositionConstraint_skips_other_techniques.
  intros i Hi. assert (i = 0) as -> by (vm_compute in Hi; lia).
  exists 0, BAUMGARTE_JOINTS. split_and!; [reflexivity | reflexivity | discriminate].
Defined.

(** On IEEE doubles: three position passes move the stretched pendulum
    with a stored impulse (1,2,3), and keep that impulse. *)
Lemma solvePositionConstraint_keeps_impulses_and_biases_witness :
  ∃ s' : System float,
    iterate 3 solvePositionConstraint
      (twoBodies (staticBody Vector3_zero)
         (dynamicBody (mkVector3 0 (-1) 0)%float Vector3_ones Vector3_zero)
         Vector3_zero (mkVector3 0 0.5 0)%float
         NON_LINEAR_GAUSS_SEIDEL true (mkVector3 1 2 3)%float Matrix3x3_zero) = Some s'
    ∧ mImpulse (mBallAndSocketJointComponents s') = [mkVector3 1 2 3]%float
    ∧ mConstrainedPositions (mRigidBodyComponents s')
      ≠ [Vector3_zero; mkVector3 0 (-1) 0]%float.
Proof.
  destruct (iterate 3 solvePositionConstraint
              (twoBodies (staticBody Vector3_zero)
                 (dynamicBody (mkVector3 0 (-1) 0)%float Vector3_ones Vector3_zero)
                 Vector3_zero (mkVector3 0 0.5 0)%float
                 NON_LINEAR_GAUSS_SEIDEL true (mkVector3 1 2 3)%float Matrix3x3_zero))
    as [s'|] eqn:Hrun; [|vm_compute in Hrun; discriminate].
  exists s'. split; [reflexivity|]. split.
  - by destruct (solvePositionConstraint_keeps_impulses_and_biases 3 _ _ Hrun) as [? _].
  - vm_compute in Hrun. injection Hrun as <-. vm_compute. discriminate.
Defined.
End PositionMoreWitnesses.

Section PositionUpdate.
Context {D : Type} `{Decimal D}.
Local Open Scope dec_scope.

(** The loop body of [solvePositionConstraint] past the test on the
    determinant, against steps 4-6 of section 4.5. *)
Lemma solvePositionConstraint_joint_correction
    (i : nat) (s s' : System D) (r : PositionRow D) :
  solvePositionConstraint_joint i s = Some s' →
  readPositionRow s i = Some r →
  (dabs (getDeterminant (pos_K r)) >? MACHINE_EPSILON) = true →
  let rb := mRigidBodyComponents s in
  let rb' := mRigidBodyComponents s' in
  ∃ b q2,
    readPositionBodies s r = Some b
    ∧ mInverseMassMatrix (mBallAndSocketJointComponents s')
      = <[i := pos_inverseMassMatrix r b]>
          (mInverseMassMatrix (mBallAndSocketJointComponents s))
    ∧ mConstrainedPositions rb'
      = bump (bump (mConstrainedPositions rb) (pr_c1 r) (pos_v1 r b))
             (pr_c2 r) (pos_v2 r b)
    ∧ <[pr_c1 r := normalize (firstOrderStep (pr_q1 r) (pos_w1 r b))]>
        (mConstrainedOrientations rb) !! pr_c2 r = Some q2
    ∧ mConstrainedOrientations rb'
      = <[pr_c2 r := normalize (firstOrderStep q2 (pos_w2 r b))]>
          (<[pr_c1 r := normalize (firstOrderStep (pr_q1 r) (pos_w1 r b))]>
             (mConstrainedOrientations rb)).
Proof.
  unfold readPositionRow. intros Hrun Hr.
  destruct (jointIndexOf s i) as [ji|] eqn:Hji; simpl in Hr; [|done].
  destruct (_ !! ji) as [technique|] eqn:Ht; simpl in Hr; [|done].
  case_decide as Hnlgs; [|done]. invert_writes.
  revert Hrun. unfold solvePositionConstraint_joint.
  rewrite Hji. simpl. rewrite Ht. simpl.
  rewrite decide_False by (by intros ?).
  rewrite_hyps. simpl. rewrite_hyps. simpl.
  rewrite effectiveMass_massMatrixExpr.
  unfold readPositionBodies, pos_v1, pos_w1, pos_v2, pos_w2, pos_lambda,
    pos_inverseMassMatrix, pos_K, pos_I1, pos_I2, pos_r1World, pos_r2World. simpl.
  intros Hrun Hdet. rewrite Hdet in Hrun. invert_writes. simpl.
  repeat match goal with
    | Hq : integrateOrientation _ _ _ = Some _ |- _ =>
        apply integrateOrientation_inv in Hq as (? & ? & ->)
    end.
  repeat match goal with
    | Ha : ?l !! ?c = Some ?a, Hb : ?l !! ?c = Some ?b |- _ =>
        assert (b = a) as -> by congruence; clear Hb
    end.
  eexists (mkPositionBodies _ _ _ _ _ _ _), _. rewrite_hyps. simpl.
  split; [reflexivity|]. split; [by rewrite list_insert_insert_eq|].
  split.
  { match goal with
    | Hx : mConstrainedPositions _ !! ?c = Some _
      |- context [bump (mConstrainedPositions _) ?c _] =>
        rewrite (bump_lookup _ _ _ _ Hx)
    end.
    by erewrite bump_lookup by eassumption. }
  split; [eassumption | reflexivity].
Qed.

(** X17.  The position update of a joint row that uses
    NON_LINEAR_GAUSS_SEIDEL, when the test [|det K| > MACHINE_EPSILON]
    passes, is steps 4-6 of section 4.5 on what [readPositionRow] and
    [readPositionBodies] read: the [inverseMassMatrix] of the row becomes
    [K⁻¹] in cofactor form (the zero matrix when neither body is DYNAMIC);
    [λ = inverseMassMatrix · (−(x2 + r2World − x1 − r1World))]; the
    constrained position of body 1 moves by [m1⁻¹·linLock1 ⊙ (−λ)] and then
    that of body 2 by [m2⁻¹·linLock2 ⊙ λ]; the orientation of body 1 is
    integrated with [ω1 = angLock1 ⊙ (I1·(λ × r1World))] and normalized, then
    that of body 2 with [ω2 = angLock2 ⊙ (I2·(−(λ × r2World)))]. *)
Theorem solvePositionConstraint_applies_the_pseudo_impulse
    (i : nat) (s s' : System D) (r : PositionRow D) :
  solvePositionConstraint_joint i s = Some s' →
  readPositionRow s i = Some r →
  (dabs (getDeterminant (pos_K r)) >? MACHINE_EPSILON) = true →
  let rb := mRigidBodyComponents s in
  let rb' := mRigidBodyComponents s' in
  ∃ b q2,
    readPositionBodies s r = Some b
    ∧ mInverseMassMatrix (mBallAndSocketJointComponents s')
      = <[i := pos_inverseMassMatrix r b]>
          (mInverseMassMatrix (mBallAndSocketJointComponents s))
    ∧ mConstrainedPositions rb'
      = bump (bump (mConstrainedPositions rb) (pr_c1 r) (pos_v1 r b))
             (pr_c2 r) (pos_v2 r b)
    ∧ <[pr_c1 r := normalize (firstOrderStep (pr_q1 r) (pos_w1 r b))]>
        (mConstrainedOrientations rb) !! pr_c2 r = Some q2
    ∧ mConstrainedOrientations rb'
      = <[pr_c2 r := normalize (firstOrderStep q2 (pos_w2 r b))]>
          (<[pr_c1 r := normalize (firstOrderStep (pr_q1 r) (pos_w1 r b))]>
             (mConstrainedOrientations rb)).
Proof. apply solvePositionConstraint_joint_correction. Qed.

Lemma readPositionBodies_lookups (s : System D) r b :
  readPositionBodies s r = Some b →
  let rb := mRigidBodyComponents s in
  mConstrainedPositions rb !! pr_c1 r = Some (pb_x1 b)
  ∧ mConstrainedPositions rb !! pr_c2 r = Some (pb_x2 b)
  ∧ mLinearLockAxisFactors rb !! pr_c1 r = Some (pb_linLock1 b)
  ∧ mLinearLockAxisFactors rb !! pr_c2 r = Some (pb_linLock2 b)
  ∧ mAngularLockAxisFactors rb !! pr_c1 r = Some (pb_angLock1 b)
  ∧ mAngularLockAxisFactors rb !! pr_c2 r = Some (pb_angLock2 b).
Proof.
  unfold readPositionBodies. intros Hb. invert_writes. simpl. by split_and!.
Qed.

End PositionUpdate.

Section PositionUpdateOnDoubles.
#[local] Existing Instance float_decimal.
Local Open Scope float_scope.

(** X18.  On doubles, in a position update that passes the test on the
    determinant, with a finite [λ] and finite inverse masses: for every body
    row and axis whose linear lock factor is a zero, that component of the
    constrained position is the number it was, up to the sign of a zero. *)
Theorem solvePositionConstraint_respects_linear_lock_factors
    (i : nat) (s s' : System float) (r : PositionRow float) (b : PositionBodies float)
    (body : nat) (k : Axis) (lock : Vector3 float) :
  solvePositionConstraint_joint i s = Some s' →
  readPositionRow s i = Some r →
  (dabs (getDeterminant (pos_K r)) >? MACHINE_EPSILON)%dec = true →
  readPositionBodies s r = Some b →
  v3_all ffinite (pos_lambda r b) = true →
  ffinite (pr_invMass1 r) = true → ffinite (pr_invMass2 r) = true →
  mLinearLockAxisFactors (mRigidBodyComponents s) !! body = Some lock →
  fzero (component k lock) = true →
  same_component k body (mConstrainedPositions (mRigidBodyComponents s))
                        (mConstrainedPositions (mRigidBodyComponents s')).
Proof.
  intros Hrun Hr Hdet Hb Hfin Hm1 Hm2 Hlock Hk.
  destruct (solvePositionConstraint_joint_correction i s s' r Hrun Hr Hdet)
    as (b' & q2 & Hb' & _ & Hx & _).
  assert (b' = b) as -> by congruence. simpl in Hx. rewrite Hx.
  destruct (readPositionBodies_lookups s r b Hb) as (_ & _ & Hl1 & Hl2 & _).
  simpl in *. apply bump_bump_same_component.
  - intros ->. unfold pos_v1. assert (lock = pb_linLock1 b) as -> by congruence.
    apply locked_linear_increment; [done..|]. by apply v3_neg_finite.
  - intros ->. unfold pos_v2. assert (lock = pb_linLock2 b) as -> by congruence.
    by apply locked_linear_increment.
Qed.

(** X17 at [twistedPendulum]: the hanging body is pulled back and turned. *)
Lemma solvePositionConstraint_applies_the_pseudo_impulse_witness :
  ∃ (s' : System float) (r : PositionRow float) (b : PositionBodies float)
    (q2 : Quaternion float),
    solvePositionConstraint_joint 0 twistedPendulum = Some s'
    ∧ readPositionRow twistedPendulum 0 = Some r
    ∧ readPositionBodies twistedPendulum r = Some b
    ∧ pos_lambda r b = mkVector3 (-0x1.5555555555555p-2) 0x1.5555555555555p-2 0
    ∧ mConstrainedPositions (mRigidBodyComponents s')
      = bump (bump (mConstrainedPositions (mRigidBodyComponents twistedPendulum))
                   (pr_c1 r) (pos_v1 r b)) (pr_c2 r) (pos_v2 r b)
    ∧ mConstrainedPositions (mRigidBodyComponents s') !! 1%nat
      = Some (mkVector3 (-0x1.5555555555555p-2) (-0x1.5555555555556p-1) 0)
    ∧ mConstrainedOrientations (mRigidBodyComponents s')
      = <[pr_c2 r := normalize (firstOrderStep q2 (pos_w2 r b))]>
          (<[pr_c1 r := normalize (firstOrderStep (pr_q1 r) (pos_w1 r b))]>
             (mConstrainedOrientations (mRigidBodyComponents twistedPendulum))).
Proof.
  destruct (solvePositionConstraint_joint 0 twistedPendulum) as [s'|] eqn:Hrun;
    [|vm_compute in Hrun; discriminate].
  destruct (readPositionRow twistedPendulum 0) as [r|] eqn:Hr;
    [|vm_compute in Hr; discriminate].
  assert ((dabs (getDeterminant (pos_K r)) >? MACHINE_EPSILON)%dec = true) as Hdet.
  { vm_compute in Hr. injection Hr as <-. vm_compute. reflexivity. }
  destruct (solvePositionConstraint_applies_the_pseudo_impulse 0 _ s' r Hrun Hr Hdet)
    as (b & q2 & Hb & _ & Hx & _ & Hq).
  exists s', r, b, q2.
  split_and!; [reflexivity | reflexivity | exact Hb | | exact Hx | | exact Hq].
  - vm_compute in Hr. injection Hr as <-. vm_compute in Hb. injection Hb as <-.
    vm_compute. reflexivity.
  - vm_compute in Hrun. injection Hrun as <-. vm_compute. reflexivity.
Defined.

(** X18 at the stretched pendulum whose hanging body cannot move along Y:
    the joint error is along Y, and Y stays at -1. *)
Lemma solvePositionConstraint_respects_linear_lock_factors_witness :
  ∃ (s' : System float) (x' : Vector3 float),
    solvePositionConstraint_joint 0 (stretchedPendulum (mkVector3 1 0 1) Vector3_zero)
    = Some s'
    ∧ mConstrainedPositions (mRigidBodyComponents s') !! 1%nat = Some x'
    ∧ same_number (component AxisY x') (-1).
Proof.
  destruct (solvePositionConstraint_joint 0
              (stretchedPendulum (mkVector3 1 0 1) Vector3_zero))
    as [s'|] eqn:Hrun; [|vm_compute in Hrun; discriminate].
  destruct (readPositionRow (stretchedPendulum (mkVector3 1 0 1) Vector3_zero) 0)
    as [r|] eqn:Hr; [|vm_compute in Hr; discriminate].
  destruct (readPositionBodies (stretchedPendulum (mkVector3 1 0 1) Vector3_zero) r)
    as [b|] eqn:Hb;
    [|vm_compute in Hr; injection Hr as <-; vm_compute in Hb; discriminate].
  pose proof (solvePositionConstraint_respects_linear_lock_factors
                0 _ s' r b 1 AxisY (mkVector3 1 0 1) Hrun Hr) as Hkept.
  pose proof Hr as Hr'. vm_compute in Hr'. injection Hr' as <-.
  pose proof Hb as Hb'. vm_compute in Hb'. injection Hb' as <-.
  specialize (Hkept ltac:(vm_compute; reflexivity) Hb
                ltac:(vm_compute; reflexivity) ltac:(vm_compute; reflexivity)
                ltac:(vm_compute; reflexivity) eq_refl ltac:(vm_compute; reflexivity)).
  unfold same_component in Hkept.
  destruct (mConstrainedPositions (mRigidBodyComponents s') !! 1%nat) as [x'|] eqn:Hx';
    [|by vm_compute in Hkept].
  exists s', x'. split_and!; [reflexivity | exact Hx' | exact Hkept].
Defined.
End PositionUpdateOnDoubles.

(* ------------------------------------------------------------------------- *)
(** ** More on the legacy [ConstraintSolver] *)

Section ConstraintSolverMore.
Context {D : Type}.
Import ConstraintSolver.

Lemma isConstrainedBody_true (s : t D) body :
  body ∈ constraintBodies s → isConstrainedBody s body = true.
Proof. intros Hin. unfold isConstrainedBody. by rewrite decide_True. Qed.

Lemma constrainedVelocityAt_inv offset (s s' : t D) body v :
  constrainedVelocityAt offset s body = Some (v, s') →
  body ∈ constraintBodies s
  ∧ ((∃ n, bodyNumberMapping s !! body = Some n ∧ s' = s)
     ∨ (bodyNumberMapping s !! body = None ∧ s' = withBodyNumberZero body s)).
Proof.
  unfold constrainedVelocityAt, isConstrainedBody, bodyNumberMapping_at.
  case_decide; [|done]. intros Hrun. split; [done|].
  destruct (bodyNumberMapping s !! body) as [n|] eqn:Hn.
  - left. exists n. split; [done|]. by simplify_option_eq.
  - right. split; [done|]. unfold withBodyNumberZero. by simplify_option_eq.
Qed.

Lemma constrainedVelocityAt_again offset (s s' : t D) body v :
  constrainedVelocityAt offset s body = Some (v, s') →
  constrainedVelocityAt offset s' body = Some (v, s').
Proof.
  intros Hrun.
  destruct (constrainedVelocityAt_inv _ _ _ _ _ Hrun) as [Hin [(n & Hn & ->) | [Hn ->]]];
    [done|].
  revert Hrun.
  unfold constrainedVelocityAt, isConstrainedBody, bodyNumberMapping_at, withBodyNumberZero.
  simpl. rewrite !decide_True by done. rewrite Hn, lookup_insert_eq. done.
Qed.

Lemma call_keeps_tunables c (s s' : t D) :
  call c s = Some s' →
  penetrationFactor s' = finalPenetrationFactor [c] (penetrationFactor s)
  ∧ nbIterationsLCP s' = finalNbLCPIterations [c] (nbIterationsLCP s)
  ∧ Vconstraint s' = Vconstraint s.
Proof.
  destruct c as [| f | n | b | b | b]; simpl; intros Hrun; simplify_eq; try done.
  - unfold getConstrainedLinearVelocityOfBody in Hrun.
    destruct (constrainedVelocityAt 0 s b) as [[v s1]|] eqn:Hget; simplify_eq/=.
    by destruct (constrainedVelocityAt_inv _ _ _ _ _ Hget) as [_ [(n & _ & ->) | [_ ->]]].
  - unfold getConstrainedAngularVelocityOfBody in Hrun.
    destruct (constrainedVelocityAt 3 s b) as [[v s1]|] eqn:Hget; simplify_eq/=.
    by destruct (constrainedVelocityAt_inv _ _ _ _ _ Hget) as [_ [(n & _ & ->) | [_ ->]]].
Qed.

(** X19.  For a body that is in [constraintBodies] and has the number [n] in
    [bodyNumberMapping], with [6·n + 5] below 2^32 (no [uint] subscript
    wraps): if the six cells of [Vconstraint] from index [6·n] on hold
    [a, b, c, d, e, f], then [getConstrainedLinearVelocityOfBody] returns
    [(a, b, c)], [getConstrainedAngularVelocityOfBody] returns [(d, e, f)],
    and neither changes the solver. *)
Theorem getters_read_the_six_cells_of_a_body (s : t D) (body : positive) (n : N)
    (before after : list D) (a b c d e f : D) :
  body ∈ constraintBodies s →
  bodyNumberMapping s !! body = Some n →
  (6 * n + 5 < 2 ^ 32)%N →
  Vconstraint s = before ++ [a; b; c; d; e; f] ++ after →
  length before = N.to_nat (6 * n) →
  getConstrainedLinearVelocityOfBody s body = Some (mkVector3 a b c, s)
  ∧ getConstrainedAngularVelocityOfBody s body = Some (mkVector3 d e f, s).
Proof.
  intros Hin Hn Hsmall HV Hlen.
  unfold getConstrainedLinearVelocityOfBody, getConstrainedAngularVelocityOfBody,
    constrainedVelocityAt, bodyNumberMapping_at.
  rewrite (isConstrainedBody_true s body Hin), Hn.
  assert (∀ k, (k ≤ 5)%N → uint (uint (6 * n) + k) = (6 * n + k)%N) as Hsub.
  { intros k Hk. unfold uint. rewrite (N.mod_small (6 * n)) by lia.
    apply N.mod_small. lia. }
  rewrite !Hsub by lia. rewrite HV.
  assert (∀ j x, ([a; b; c; d; e; f] ++ after) !! j = Some x →
                 ∀ m, N.to_nat m = (length before + j)%nat →
                      (before ++ [a; b; c; d; e; f] ++ after) !! N.to_nat m = Some x)
    as Hcell.
  { intros j x Hj m ->. by rewrite lookup_app_r, Nat.add_sub' by lia. }
  split.
  - rewrite (Hcell 0%nat a eq_refl (6 * n + 0)%N),
      (Hcell 1%nat b eq_refl (6 * n + (0 + 1))%N),
      (Hcell 2%nat c eq_refl (6 * n + (0 + 2))%N) by lia.
    done.
  - rewrite (Hcell 3%nat d eq_refl (6 * n + 3)%N),
      (Hcell 4%nat e eq_refl (6 * n + (3 + 1))%N),
      (Hcell 5%nat f eq_refl (6 * n + (3 + 2))%N) by lia.
    done.
Qed.

(** X20.  The getters are not [const]: for a body that is in [constraintBodies]
    but has no entry in [bodyNumberMapping], [operator[]] adds the entry
    [body ↦ 0] and the getter returns the velocity of body number 0.  In
    every case a getter that returns changes nothing but that entry, and
    the same call on the solver it leaves returns the same vector and the
    same solver. *)
Theorem getters_may_insert_a_zero_body_number (s s' : t D) (body : positive)
    (v : Vector3 D) (getter : t D → positive → option (Vector3 D * t D)) (offset : N) :
  (getter = getConstrainedLinearVelocityOfBody ∧ offset = 0%N)
  ∨ (getter = getConstrainedAngularVelocityOfBody ∧ offset = 3%N) →
  getter s body = Some (v, s') →
  (∀ n, bodyNumberMapping s !! body = Some n → s' = s)
  ∧ (bodyNumberMapping s !! body = None →
     s' = withBodyNumberZero body s
     ∧ Vconstraint s !! N.to_nat offset = Some (vx v)
     ∧ Vconstraint s !! N.to_nat (offset + 1) = Some (vy v)
     ∧ Vconstraint s !! N.to_nat (offset + 2) = Some (vz v))
  ∧ getter s' body = Some (v, s').
Proof.
  intros Hgetter Hrun.
  assert (getter = constrainedVelocityAt offset) as Hget
    by (by destruct Hgetter as [[-> ->]|[-> ->]]).
  rewrite Hget in Hrun |- *.
  pose proof (constrainedVelocityAt_again _ _ _ _ _ Hrun) as Hagain.
  destruct (constrainedVelocityAt_inv _ _ _ _ _ Hrun) as [Hin [(n & Hn & ->) | [Hn ->]]].
  - split_and!; [done | by rewrite Hn | done].
  - split_and!; [by rewrite Hn | | done]. intros _. split; [done|].
    revert Hrun. unfold constrainedVelocityAt, bodyNumberMapping_at.
    rewrite (isConstrainedBody_true s body Hin), Hn.
    assert (uint (uint (6 * 0) + offset) = offset
            ∧ uint (uint (6 * 0) + (offset + 1)) = (offset + 1)%N
            ∧ uint (uint (6 * 0) + (offset + 2)) = (offset + 2)%N) as (-> & -> & ->)
      by (by destruct Hgetter as [[_ ->]|[_ ->]]).
    simpl. intros Hrun. by simplify_option_eq.
Qed.

(** X21.  Whatever calls of the inline methods are made without a [solve] in
    between, when they return: the penetration factor is the argument of the
    last [setPenetrationFactor] (the one the solver had if there was none),
    likewise for the number of LCP iterations, and [Vconstraint] is what it
    was; [cleanup] resets none of them. *)
Theorem tunables_survive_cleanup (cs : list Call) (s s' : t D) :
  calls cs s = Some s' →
  penetrationFactor s' = finalPenetrationFactor cs (penetrationFactor s)
  ∧ nbIterationsLCP s' = finalNbLCPIterations cs (nbIterationsLCP s)
  ∧ Vconstraint s' = Vconstraint s.
Proof.
  revert s. induction cs as [|c cs IH]; intros s Hrun; simpl in Hrun.
  - by simplify_eq.
  - destruct (call c s) as [s1|] eqn:Hc; simplify_eq/=.
    destruct (call_keeps_tunables c s s1 Hc) as (Hp & Hn & HV).
    destruct (IH s1 Hrun) as (Hp' & Hn' & HV').
    rewrite Hp', Hn', HV', Hp, Hn, HV.
    by destruct c.
Qed.
End ConstraintSolverMore.

Section ConstraintSolverMoreWitnesses.
Import ConstraintSolver.

(** On IEEE doubles: body 3 has number 1, so its cells are 6..11. *)
Lemma getters_read_the_six_cells_of_a_body_witness :
  let s := mk [5%positive] 10%N 0%float {[ 3%positive ]} {[ 3%positive := 1%N ]}
              [0; 0; 0; 0; 0; 0; 1; 2; 3; 4; 5; 6; 7]%float in
  getConstrainedLinearVelocityOfBody s 3 = Some (mkVector3 1 2 3, s)%float
  ∧ getConstrainedAngularVelocityOfBody s 3 = Some (mkVector3 4 5 6, s)%float.
Proof.
  intros s.
  apply (getters_read_the_six_cells_of_a_body s 3 1
           [0; 0; 0; 0; 0; 0]%float [7]%float).
  - set_solver.
  - reflexivity.
  - reflexivity.
  - reflexivity.
  - reflexivity.
Defined.

(** On IEEE doubles: body 3 is constrained but has no number. *)
Lemma getters_may_insert_a_zero_body_number_witness :
  let s := mk [5%positive] 10%N 0%float {[ 3%positive ]} ∅
              [1; 2; 3; 4; 5; 6]%float in
  ∃ s' : t float,
    getConstrainedAngularVelocityOfBody s 3 = Some (mkVector3 4 5 6, s')%float
    ∧ bodyNumberMapping s' = {[ 3%positive := 0%N ]}
    ∧ getConstrainedAngularVelocityOfBody s' 3 = Some (mkVector3 4 5 6, s')%float.
Proof.
  intros s.
  destruct (getConstrainedAngularVelocityOfBody s 3) as [[v s']|] eqn:Hget;
    [|vm_compute in Hget; discriminate].
  destruct (getters_may_insert_a_zero_body_number s s' 3 v
              getConstrainedAngularVelocityOfBody 3 ltac:(by right) Hget)
    as (_ & Hnone & Hagain).
  destruct (Hnone eq_refl) as (Hs' & Hx & Hy & Hz).
  assert (v = (mkVector3 4 5 6)%float) as ->.
  { destruct v as [x y z]. simpl in *. vm_compute in Hx, Hy, Hz. congruence. }
  exists s'. split; [reflexivity|]. split; [by rewrite Hs'|]. exact Hagain.
Defined.

(** On IEEE doubles: a penetration factor set before [cleanup] is still
    there after it. *)
Lemma tunables_survive_cleanup_witness :
  ∃ s' : t float,
    calls [CallSetPenetrationFactor 0.5%float; CallSetNbLCPIterations 7; CallCleanup]
      (mk [5%positive] 10%N 0%float {[ 3%positive ]} {[ 3%positive := 1%N ]} [])
    = Some s'
    ∧ penetrationFactor s' = 0.5%float
    ∧ nbIterationsLCP s' = 7%N.
Proof.
  eexists. split; [reflexivity|].
  destruct (tunables_survive_cleanup
              [CallSetPenetrationFactor 0.5%float; CallSetNbLCPIterations 7; CallCleanup]
              (mk [5%positive] 10%N 0%float {[ 3%positive ]} {[ 3%positive := 1%N ]} [])
              _ eq_refl) as (Hp & Hn & _).
  split; [exact Hp | exact Hn].
Defined.
End ConstraintSolverMoreWitnesses.
